(** * everybtckey: deterministic keyspace engine

    A shallow embedding of the TypeScript sources
    ([src/utils/crypto.ts], [src/utils/base58.ts], [src/utils/bech32.ts],
    [src/utils/bitcoin.ts] and the [useInfiniteKeys] hook) and the
    properties of the specification checked against it.

    Conventions of the embedding:
    - a JavaScript [number] holding an integer and a [bigint] are both a [Z];
      the 32-bit coercions of the bitwise operators on [number] are written
      out in [JS]. The sums and products of the sources on [number] are
      those of [Z]: they are the sources' while the operands and the
      result are below 2^53 in absolute value, where a [number] holds
      every integer and prints it in full. A property that depends on
      such arithmetic states this range;
    - a [Uint8Array] is a [list Z]; a store into it reduces modulo 256;
    - a JavaScript string is a [string] (the sources only build ASCII text);
    - an [async] function is the function computing the value its promise
      settles with; a rejected promise or a [throw] is [Throw];
    - [crypto.subtle.digest('SHA-256', _)] and [Date.now()] are not code of
      the repository: the first is a [Variable] of the sections below
      ([Sha256.sha256] is its standard definition, used to run the model),
      the second a parameter [now]. *)

From Stdlib Require Import ZArith Lia List Ascii String QArith.
From stdpp Require Import gmap strings list pretty.
Import ListNotations.

Local Open Scope string_scope.
Local Open Scope list_scope.
Local Open Scope Z_scope.

(** ** Results of code that can throw *)

Inductive JsResult (A : Type) : Type :=
| Ok (a : A)
| Throw (msg : string).
Arguments Ok {A} a.
Arguments Throw {A} msg.

Global Instance JsResult_ret : MRet JsResult := fun A a => Ok a.
Global Instance JsResult_bind : MBind JsResult := fun A B k r =>
  match r with
  | Ok a => k a
  | Throw m => Throw m
  end.

(** ** JavaScript number and typed-array primitives *)

Module JS.

(** ToInt32 *)
Definition toInt32 (z : Z) : Z := (z + 2 ^ 31) mod 2 ^ 32 - 2 ^ 31.

(** [a << n] *)
Definition shl (a n : Z) : Z := toInt32 (Z.shiftl (toInt32 a) (n mod 32)).

(** [a >> n] *)
Definition sar (a n : Z) : Z := Z.shiftr (toInt32 a) (n mod 32).

(** [a & b], [a | b], [a ^ b] *)
Definition band (a b : Z) : Z := Z.land (toInt32 a) (toInt32 b).
Definition bor (a b : Z) : Z := Z.lor (toInt32 a) (toInt32 b).
Definition bxor (a b : Z) : Z := Z.lxor (toInt32 a) (toInt32 b).

(** [a % b] on integers: the sign follows the dividend *)
Definition rem (a b : Z) : Z := Z.rem a b.

(** The value a [Uint8Array] element holds after [arr[i] = z] *)
Definition u8 (z : Z) : Z := z mod 256.

(** [arr[i]] inside a bitwise operator: [undefined] coerces to 0 *)
Definition at0 (arr : list Z) (i : nat) : Z := nth i arr 0.

(** [0, 1, ..., n-1], the values a counting [for] loop takes *)
Definition upto (n : nat) : list Z := map Z.of_nat (seq 0 n).

(** [target.set(src, offset)] on a [Uint8Array]: a [RangeError] when the
    source does not fit *)
Definition set (target src : list Z) (offset : nat) : JsResult (list Z) :=
  if (offset + length src <=? length target)%nat
  then Ok (firstn offset target ++ map u8 src
             ++ skipn (offset + length src) target)
  else Throw "RangeError: offset is out of bounds".

(** [new Uint8Array(n)] *)
Definition zeros (n : nat) : list Z := repeat 0 n.

(** [arr[i] = v] for [i] in range ([<[i:=v]>] does nothing out of range,
    and so does a typed array) *)
Definition store (arr : list Z) (i : nat) (v : Z) : list Z :=
  <[i := u8 v]> arr.

(** [s[i]] appended to a string: ["undefined"] out of range *)
Definition strAt (s : string) (i : Z) : string :=
  if i <? 0 then "undefined"
  else match String.get (Z.to_nat i) s with
       | Some c => String c EmptyString
       | None => "undefined"
       end.

(** [s.indexOf(c)] for a one-character [c] *)
Fixpoint indexOf_from (c : ascii) (s : string) (pos : Z) : Z :=
  match s with
  | EmptyString => -1
  | String d rest =>
      if Ascii.eqb c d then pos else indexOf_from c rest (pos + 1)
  end.
Definition indexOf (c : ascii) (s : string) : Z := indexOf_from c s 0.

(** [s.includes(t)] *)
Fixpoint includes (s t : string) : bool :=
  String.prefix t s ||
  match s with
  | EmptyString => false
  | String _ rest => includes rest t
  end.

(** [s.toLowerCase()] on ASCII text *)
Definition lowerChar (c : ascii) : ascii :=
  let n := nat_of_ascii c in
  if ((65 <=? n) && (n <=? 90))%nat then ascii_of_nat (n + 32) else c.
Fixpoint toLowerCase (s : string) : string :=
  match s with
  | EmptyString => EmptyString
  | String c rest => String (lowerChar c) (toLowerCase rest)
  end.

(** [`${n}`] for a safe integer [n], [|n| < 2^53]: the decimal digits
    of [n]. (A larger [number] prints the shortest digits that read back
    to it, which are not those of the integer.) *)
Definition numToString (n : Z) : string := pretty n.

(** [s.lastIndexOf(c)] for a one-character [c] *)
Fixpoint lastIndexOf_from (c : ascii) (s : string) (pos last : Z) : Z :=
  match s with
  | EmptyString => last
  | String d rest =>
      lastIndexOf_from c rest (pos + 1) (if Ascii.eqb c d then pos else last)
  end.
Definition lastIndexOf (c : ascii) (s : string) : Z :=
  lastIndexOf_from c s 0 (-1).

(** White space and line terminators, among the code units below 256 *)
Definition isWhiteSpace (c : ascii) : bool :=
  let n := nat_of_ascii c in
  (((9 <=? n) && (n <=? 13)) || (n =? 32) || (n =? 160))%nat.

Fixpoint trimStart (s : string) : string :=
  match s with
  | String c rest => if isWhiteSpace c then trimStart rest else s
  | EmptyString => s
  end.

Definition hexDigitValue (c : ascii) : option Z :=
  let n := Z.of_nat (nat_of_ascii c) in
  if (48 <=? n) && (n <=? 57) then Some (n - 48)
  else if (97 <=? n) && (n <=? 102) then Some (n - 87)
  else if (65 <=? n) && (n <=? 70) then Some (n - 55)
  else None.

(** The value of the longest prefix of hexadecimal digits of [s]; [acc]
    is the value of the digits already read, [None] when there is none *)
Fixpoint hexPrefix (s : string) (acc : option Z) : option Z :=
  match s with
  | String c rest =>
      match hexDigitValue c with
      | Some d =>
          hexPrefix rest (Some (match acc with
                                | Some a => a * 16 + d
                                | None => d
                                end))
      | None => acc
      end
  | EmptyString => acc
  end.

(** [parseInt(s, 16)], [None] being [NaN]: leading white space, a sign,
    a [0x] or [0X] prefix, then the longest run of digits. Exact for the
    short strings the sources pass. *)
Definition parseInt16 (s : string) : option Z :=
  let s := trimStart s in
  let '(sign, s) :=
    match s with
    | String "-" rest => (-1, rest)
    | String "+" rest => (1, rest)
    | _ => (1, s)
    end in
  let s :=
    match s with
    | String "0" (String x rest) =>
        if Ascii.eqb x "x" || Ascii.eqb x "X" then rest else s
    | _ => s
    end in
  match hexPrefix s None with
  | Some v => Some (sign * v)
  | None => None
  end.

End JS.

(** ** [utils/crypto.ts] *)

Module BitcoinCrypto.

Definition secp256k1Order : Z :=
  0xFFFFFFFFFFFFFFFFFFFFFFFFFFFFFFFEBAAEDCE6AF48A03BBFD25E8CD0364141.

(** The first loop of [simulateSecp256k1PublicKey] *)
Definition rollingHash (privateKey : list Z) : Z :=
  fold_left
    (fun hash b => JS.band (JS.shl hash 5 - hash + b) 0xffffffff)
    privateKey 0.

Definition simulateSecp256k1PublicKey (privateKey : list Z) : list Z :=
  let hash := rollingHash privateKey in
  0x02 ::
  map (fun i : Z =>
         let seed := JS.band (hash + i * 1337) 0xffffffff in
         JS.u8 (JS.band
                  (JS.bxor (JS.at0 privateKey (Z.to_nat i)) (JS.rem seed 256))
                  0xff))
      (JS.upto 32).

Definition getPublicKey (privateKey : list Z) : list Z :=
  simulateSecp256k1PublicKey privateKey.

Definition hexDigit (d : Z) : ascii :=
  match String.get (Z.to_nat d) "0123456789abcdef" with
  | Some c => c
  | None => "0"%char
  end.

(** [byte.toString(16).padStart(2, '0')] for a byte *)
Definition byteToHex (byte : Z) : string :=
  String (hexDigit (byte / 16)) (String (hexDigit (byte mod 16)) EmptyString).

Definition bytesToHex (bytes : list Z) : string :=
  String.concat "" (map byteToHex bytes).

Definition bytesToBigInt (bytes : list Z) : Z :=
  fold_left (fun result byte => Z.shiftl result 8 + byte) bytes 0.

(** The loop of [bigIntToBytes], [n] iterations left; [acc] holds the
    bytes already written, at the indices [n..31] *)
Fixpoint bigIntToBytes_loop (n : nat) (value : Z) (acc : list Z) : list Z :=
  match n with
  | O => acc
  | S n' => bigIntToBytes_loop n' (Z.shiftr value 8) (Z.land value 0xFF :: acc)
  end.

Definition bigIntToBytes (bigint : Z) : list Z :=
  bigIntToBytes_loop 32 bigint [].

Section Hashes.
Variable sha256 : list Z -> list Z.

Definition doubleSha256 (data : list Z) : list Z := sha256 (sha256 data).

Definition ripemd160 (data : list Z) : list Z :=
  let hash := sha256 data in
  map (fun i : Z =>
         JS.u8 (JS.bxor (JS.at0 hash (Z.to_nat i))
                        (JS.at0 hash (Z.to_nat (i + 12)))))
      (JS.upto 20).
End Hashes.

(** [generatePrivateKey]: [draws] are the successive values
    [crypto.getRandomValues] gives; [None] when the loop has not ended
    with them *)
Fixpoint generatePrivateKey (draws : list (list Z)) : option (list Z) :=
  match draws with
  | [] => None
  | privateKey :: rest =>
      if (secp256k1Order <=? bytesToBigInt privateKey)
         || (bytesToBigInt privateKey =? 0)
      then generatePrivateKey rest
      else Some privateKey
  end.

(** [hexToBytes]: the array has [hex.length / 2] elements, rounded down;
    for an odd length the last store is out of range and does nothing. A
    [NaN] is stored as 0. *)
Definition hexToBytes (hex : string) : list Z :=
  map (fun k : nat =>
         match JS.parseInt16 (String.substring (2 * k) 2 hex) with
         | Some v => JS.u8 v
         | None => 0
         end)
      (seq 0 (String.length hex / 2)).

End BitcoinCrypto.

(** ** [utils/base58.ts] *)

Module Base58.

Definition BASE58_ALPHABET : string :=
  "123456789ABCDEFGHJKLMNPQRSTUVWXYZabcdefghijkmnopqrstuvwxyz".

(** A bound on the iterations of [while (num > 0) { ...; num = num / b }]
    for a base [b >= 2]: the number of binary digits of [num] *)
Definition steps (num : Z) : nat := S (Z.to_nat (Z.log2 num)).

Definition bytesToNum (bytes : list Z) : Z :=
  fold_left (fun num byte => num * 256 + byte) bytes 0.

Fixpoint encode_loop (fuel : nat) (num : Z) (encoded : string) : string :=
  match fuel with
  | O => encoded
  | S fuel' =>
      if 0 <? num then
        let remainder := Z.rem num 58 in
        encode_loop fuel' (Z.quot num 58)
                    (JS.strAt BASE58_ALPHABET remainder +:+ encoded)
      else encoded
  end.

(** [for (const byte of bytes) if (byte === 0) encoded = '1' + encoded
    else break] *)
Fixpoint encode_leading (bytes : list Z) (encoded : string) : string :=
  match bytes with
  | byte :: rest =>
      if byte =? 0 then encode_leading rest ("1" +:+ encoded) else encoded
  | [] => encoded
  end.

Definition encode (bytes : list Z) : string :=
  if (length bytes =? 0)%nat then ""
  else
    let num := bytesToNum bytes in
    let encoded := encode_loop (steps num) num "" in
    encode_leading bytes encoded.

Fixpoint decode_num (str : string) (num : Z) : JsResult Z :=
  match str with
  | EmptyString => Ok num
  | String char rest =>
      let index := JS.indexOf char BASE58_ALPHABET in
      if index =? -1 then Throw "Invalid Base58 character"
      else decode_num rest (num * 58 + index)
  end.

(** [while (num > 0) { bytes.unshift(num % 256); num = num / 256 }] *)
Fixpoint decode_loop (fuel : nat) (num : Z) (bytes : list Z) : list Z :=
  match fuel with
  | O => bytes
  | S fuel' =>
      if 0 <? num then decode_loop fuel' (Z.quot num 256) (Z.rem num 256 :: bytes)
      else bytes
  end.

Fixpoint decode_leading (str : string) (bytes : list Z) : list Z :=
  match str with
  | String char rest =>
      if Ascii.eqb char "1" then decode_leading rest (0 :: bytes) else bytes
  | EmptyString => bytes
  end.

Definition decode (str : string) : JsResult (list Z) :=
  if (String.length str =? 0)%nat then Ok []
  else
    num ← decode_num str 0;
    Ok (map JS.u8 (decode_leading str (decode_loop (steps num) num []))).

Section Checksum.
Variable sha256 : list Z -> list Z.

Definition encodeCheck (bytes : list Z) : JsResult string :=
  let hash := BitcoinCrypto.doubleSha256 sha256 bytes in
  let checksum := firstn 4 hash in
  let payload := JS.zeros (length bytes + 4) in
  payload ← JS.set payload bytes 0;
  payload ← JS.set payload checksum (length bytes);
  Ok (encode payload).

(** [checksum[i] !== hash[i]] for [i < 4] *)
Definition checksumMismatch (checksum hash : list Z) : bool :=
  existsb (fun i => match nth_error hash i with
                    | Some h => negb (nth i checksum 0 =? h)
                    | None => true
                    end)
          (seq 0 4).

Definition decodeCheck (str : string) : JsResult (list Z) :=
  decoded ← decode str;
  if (length decoded <? 4)%nat then Throw "Invalid length"
  else
    let payload := firstn (length decoded - 4) decoded in
    let checksum := skipn (length decoded - 4) decoded in
    let hash := BitcoinCrypto.doubleSha256 sha256 payload in
    if checksumMismatch checksum hash then Throw "Invalid checksum"
    else Ok payload.

End Checksum.

End Base58.

(** ** [utils/bech32.ts] *)

Module Bech32.

Definition BECH32_ALPHABET : string := "qpzry9x8gf2tvdw0s3jn54khce6mua7l".

Definition GEN : list Z :=
  [0x3b6a57b2; 0x26508e6d; 0x1ea119fa; 0x3d4233dd; 0x2a1462b3].

Definition polymod (values : list Z) : Z :=
  fold_left
    (fun chk value =>
       let top := JS.sar chk 25 in
       let chk := JS.bxor (JS.shl (JS.band chk 0x1ffffff) 5) value in
       fold_left
         (fun chk i =>
            JS.bxor chk (if JS.band (JS.sar top i) 1 =? 0 then 0
                         else nth (Z.to_nat i) GEN 0))
         (JS.upto 5) chk)
    values 1.

Definition charCodes (s : string) : list Z :=
  map (fun c => Z.of_nat (nat_of_ascii c)) (list_ascii_of_string s).

Definition hrpExpand (hrp : string) : list Z :=
  map (fun c => JS.sar c 5) (charCodes hrp)
    ++ [0]
    ++ map (fun c => JS.band c 31) (charCodes hrp).

Definition createChecksum (hrp : string) (data : list Z) : list Z :=
  let values := hrpExpand hrp ++ data ++ [0; 0; 0; 0; 0; 0] in
  let mod_ := JS.bxor (polymod values) 1 in
  map (fun i => JS.band (JS.sar mod_ (5 * (5 - i))) 31) (JS.upto 6).

Definition encode (hrp : string) (data : list Z) : string :=
  let checksum := createChecksum hrp data in
  let combined := data ++ checksum in
  fold_left (fun result d => result +:+ JS.strAt BECH32_ALPHABET d)
            combined (hrp +:+ "1").

(** [while (bits >= toBits) { bits -= toBits; result.push(...) }]; it
    ends for [toBits >= 1], within [bits] iterations *)
Fixpoint convertBits_drain (fuel : nat) (acc bits toBits maxv : Z)
         (result : list Z) : Z * list Z :=
  match fuel with
  | O => (bits, result)
  | S fuel' =>
      if toBits <=? bits then
        let bits := bits - toBits in
        convertBits_drain fuel' acc bits toBits maxv
                          (result ++ [JS.band (JS.sar acc bits) maxv])
      else (bits, result)
  end.

(** The [for (const value of data)] loop; [None] is the early
    [return null] *)
Fixpoint convertBits_loop (data : list Z) (fromBits toBits maxv : Z)
         (acc bits : Z) (result : list Z) : option (Z * Z * list Z) :=
  match data with
  | [] => Some (acc, bits, result)
  | value :: rest =>
      if (value <? 0) || negb (JS.sar value fromBits =? 0) then None
      else
        let acc := JS.bor (JS.shl acc fromBits) value in
        let bits := bits + fromBits in
        let '(bits, result) :=
          convertBits_drain (Z.to_nat bits) acc bits toBits maxv result in
        convertBits_loop rest fromBits toBits maxv acc bits result
  end.

Definition convertBits (data : list Z) (fromBits toBits : Z) (pad : bool)
  : option (list Z) :=
  let maxv := JS.shl 1 toBits - 1 in
  match convertBits_loop data fromBits toBits maxv 0 0 [] with
  | None => None
  | Some (acc, bits, result) =>
      if pad then
        if bits =? 0 then Some result
        else Some (result ++ [JS.band (JS.shl acc (toBits - bits)) maxv])
      else if (fromBits <=? bits)
              || negb (JS.band (JS.shl acc (toBits - bits)) maxv =? 0)
           then None
           else Some result
  end.

Definition verifyChecksum (hrp : string) (data : list Z) : bool :=
  polymod (hrpExpand hrp ++ data) =? 1.

(** The [for] loop of [decode] over the characters after the separator;
    [None] is the [return null] *)
Fixpoint decode_data (s : string) (data : list Z) : option (list Z) :=
  match s with
  | EmptyString => Some data
  | String c rest =>
      let d := JS.indexOf c BECH32_ALPHABET in
      if d =? -1 then None else decode_data rest (data ++ [d])
  end.

Definition decode (addr : string) : option (string * list Z) :=
  let pos := JS.lastIndexOf "1" addr in
  let len := Z.of_nat (String.length addr) in
  if (pos <? 1) || (len <? pos + 7) || (90 <? len) then None
  else
    let hrp := String.substring 0 (Z.to_nat pos) addr in
    let rest := String.substring (Z.to_nat (pos + 1)) (String.length addr) addr in
    match decode_data rest [] with
    | None => None
    | Some data =>
        if verifyChecksum hrp data
        then Some (hrp, firstn (length data - 6) data)
        else None
    end.

End Bech32.

(** ** [utils/bitcoin.ts] *)

Record Addresses : Type := mkAddresses {
  legacy : string;
  segwit : string;
  nativeSegwit : string;
}.

(** [number | null] fields: [None] is [null] *)
Record Balances : Type := mkBalances {
  legacyBalance : option Q;
  segwitBalance : option Q;
  nativeSegwitBalance : option Q;
}.

Record BitcoinKey : Type := mkBitcoinKey {
  id : string;
  privateKeyHex : string;
  privateKeyWIF : string;
  publicKey : string;
  addresses : Addresses;
  balances : Balances;
  timestamp : Z;
  index : Z;
}.

(** What [fetch] and [response.json()] can do in [checkBalance] *)
Inductive FetchOutcome : Type :=
| NetworkError                  (* [fetch] rejects with a [TypeError] *)
| HttpStatus (status : Z)       (* [response.ok] is false *)
| BadJson                       (* [response.json()] rejects *)
| FinalBalance (satoshis : Z).  (* [data.final_balance] *)

(** The static mutable fields of [BitcoinKeyGenerator]; a cache entry is
    [(balance, timestamp)] *)
Record ApiState : Type := mkApiState {
  balanceCache : gmap string (Q * Z);
  lastApiCall : Z;
}.

Module BitcoinKeyGenerator.

Definition MASTER_SEED : list Z :=
  [0x42; 0x69; 0x74; 0x63; 0x6f; 0x69; 0x6e; 0x20;
   0x4c; 0x65; 0x61; 0x6b; 0x65; 0x64; 0x20; 0x44;
   0x61; 0x74; 0x61; 0x62; 0x61; 0x73; 0x65; 0x20;
   0x32; 0x30; 0x32; 0x35; 0x00; 0x00; 0x00; 0x00].

Definition API_RATE_LIMIT : Z := 1000.
Definition CACHE_DURATION : Z := 5 * 60 * 1000.

(** [view.setBigUint64(0, BigInt(index), false)]: the 8 bytes of
    [index] modulo 2^64, most significant first *)
Definition indexArray (index : Z) : list Z :=
  map (fun k : Z => (index mod 2 ^ 64) / 2 ^ (8 * (7 - k)) mod 256) (JS.upto 8).

(** The body of the mixing loop: the value stored in [privateKey[i]].
    [index + i] is a sum of [number]s: the sum of [Z] while it is below
    2^53. *)
Definition mixByte (index i : Z) : Z :=
  let seedByte := JS.at0 MASTER_SEED (Z.to_nat (JS.rem i 32)) in
  let indexByte := JS.at0 (indexArray index) (Z.to_nat (JS.rem i 8)) in
  let positionByte := JS.rem (index + i) 256 in
  JS.u8 (JS.rem (JS.bxor (JS.bxor seedByte indexByte) positionByte) 256).

Definition maxKey : Z :=
  0xFFFFFFFFFFFFFFFFFFFFFFFFFFFFFFFEBAAEDCE6AF48A03BBFD25E8CD0364140.

(** The [while] loop of [ensureValidPrivateKeySync]. The condition holds
    [attempts < 10], so ten iterations exhaust it: [fuel] is 10.
    [index + attempts * 1337] and [index + 1] are computed on [number]s
    and then turned into a [bigint]: the sums of [Z] while they are below
    2^53. The XOR and the remainder are [bigint] operations, exact. *)
Fixpoint ensureValid_loop (fuel : nat) (keyBigInt attempts index : Z) : Z * Z :=
  match fuel with
  | O => (keyBigInt, attempts)
  | S fuel' =>
      if ((maxKey <=? keyBigInt) || (keyBigInt =? 0)) && (attempts <? 10) then
        let keyBigInt := Z.rem (Z.lxor keyBigInt (index + attempts * 1337)) maxKey in
        let keyBigInt := if keyBigInt =? 0 then index + 1 else keyBigInt in
        ensureValid_loop fuel' keyBigInt (attempts + 1) index
      else (keyBigInt, attempts)
  end.

Definition ensureValidPrivateKeySync (seed : list Z) (index : Z) : list Z :=
  let keyBigInt := BitcoinCrypto.bytesToBigInt seed in
  let '(keyBigInt, _) := ensureValid_loop 10 keyBigInt 0 index in
  BitcoinCrypto.bigIntToBytes keyBigInt.

Definition generateFixedPrivateKeyFromIndex (index : Z) : list Z :=
  let privateKey := map (mixByte index) (JS.upto 32) in
  ensureValidPrivateKeySync privateKey index.

(** [index * 1337 + 42] is computed on [number]s: the value in [Z] while
    it is below 2^53 in absolute value. *)
Definition shouldHaveBalance (index : Z) : bool :=
  let hash := JS.rem (index * 1337 + 42) 10000 in
  hash <? 10.

Section Derivation.
Variable sha256 : list Z -> list Z.

Definition privateKeyToWIF (privateKey : list Z) : JsResult string :=
  let extended := JS.zeros 34 in
  let extended := JS.store extended 0 0x80 in
  extended ← JS.set extended privateKey 1;
  let extended := JS.store extended 33 0x01 in
  Base58.encodeCheck sha256 extended.

Definition deriveAddresses (publicKey : list Z) : JsResult Addresses :=
  let pubKeyHash :=
    BitcoinCrypto.ripemd160 sha256 (sha256 publicKey) in
  let legacyPayload := JS.zeros 21 in
  let legacyPayload := JS.store legacyPayload 0 0x00 in
  legacyPayload ← JS.set legacyPayload pubKeyHash 1;
  legacy ← Base58.encodeCheck sha256 legacyPayload;
  let redeemScript := JS.zeros 22 in
  let redeemScript := JS.store redeemScript 0 0x00 in
  let redeemScript := JS.store redeemScript 1 0x14 in
  redeemScript ← JS.set redeemScript pubKeyHash 2;
  let scriptHash :=
    BitcoinCrypto.ripemd160 sha256 (sha256 redeemScript) in
  let segwitPayload := JS.zeros 21 in
  let segwitPayload := JS.store segwitPayload 0 0x05 in
  segwitPayload ← JS.set segwitPayload scriptHash 1;
  segwit ← Base58.encodeCheck sha256 segwitPayload;
  let witnessVersion := 0 in
  let witnessProgram := pubKeyHash in
  match Bech32.convertBits witnessProgram 8 5 true with
  | None => Throw "Failed to convert witness program"
  | Some converted =>
      let nativeSegwit := Bech32.encode "bc" ([witnessVersion] ++ converted) in
      Ok (mkAddresses legacy segwit nativeSegwit)
  end.

(** [now] is the value of [Date.now()] *)
Definition generateKeyFromPrivateKey (now : Z) (privateKey : list Z)
           (indexOrTimestamp : Z) : JsResult BitcoinKey :=
  let publicKey := BitcoinCrypto.getPublicKey privateKey in
  let privateKeyHex := BitcoinCrypto.bytesToHex privateKey in
  privateKeyWIF ← privateKeyToWIF privateKey;
  let publicKeyHex := BitcoinCrypto.bytesToHex publicKey in
  addresses ← deriveAddresses publicKey;
  let isIndex := indexOrTimestamp <? 1000000000000 in
  Ok {| id := "key-" +:+ JS.numToString indexOrTimestamp;
        privateKeyHex := privateKeyHex;
        privateKeyWIF := privateKeyWIF;
        publicKey := publicKeyHex;
        addresses := addresses;
        balances := mkBalances None None None;
        timestamp := if isIndex then now else indexOrTimestamp;
        index := if isIndex then indexOrTimestamp else 0 |}.

(** The [while] loop of [ensureValidPrivateKey]; ten iterations exhaust
    its condition *)
Fixpoint ensureValidPrivateKey_loop (fuel : nat) (keyBigInt attempts : Z)
  : Z * Z :=
  match fuel with
  | O => (keyBigInt, attempts)
  | S fuel' =>
      if ((maxKey <=? keyBigInt) || (keyBigInt =? 0)) && (attempts <? 10) then
        let newHash := sha256 (BitcoinCrypto.bigIntToBytes keyBigInt) in
        ensureValidPrivateKey_loop fuel' (BitcoinCrypto.bytesToBigInt newHash)
                                   (attempts + 1)
      else (keyBigInt, attempts)
  end.

Definition ensureValidPrivateKey (seed : list Z) : list Z :=
  let keyBigInt := BitcoinCrypto.bytesToBigInt seed in
  let keyBigInt :=
    if (maxKey <=? keyBigInt) || (keyBigInt =? 0) then
      let hashed := sha256 seed in
      fst (ensureValidPrivateKey_loop 10 (BitcoinCrypto.bytesToBigInt hashed) 0)
    else keyBigInt in
  BitcoinCrypto.bigIntToBytes keyBigInt.

Definition generateKeyFromSeed (now : Z) (seed : list Z) (index : Z)
  : JsResult BitcoinKey :=
  let privateKey := ensureValidPrivateKey seed in
  generateKeyFromPrivateKey now privateKey index.

(** [generateKey]: [draws] are the values of the random source;
    [argNow] is the clock read for the argument, [now] the one inside
    [generateKeyFromPrivateKey]. [None] when [generatePrivateKey] has
    not returned. *)
Definition generateKey (argNow now : Z) (draws : list (list Z))
  : option (JsResult BitcoinKey) :=
  match BitcoinCrypto.generatePrivateKey draws with
  | Some privateKey => Some (generateKeyFromPrivateKey now privateKey argNow)
  | None => None
  end.

End Derivation.

(** *** Balance lookups

    The clock is read once per call ([now]), a timer fires when it is due
    and a response arrives at once; [fetch] gives what the request to
    blockchain.info does for an address. *)

Section Lookup.
Variable now : Z.
Variable fetch : string -> FetchOutcome.

(** A [checkBalance] call up to its first [await]: the cache check *)
Inductive Pending : Type :=
| Cached (balance : Q)
| Request (address : string).

Definition checkBalance_start (st : ApiState) (address : string) : Pending :=
  match balanceCache st !! address with
  | Some (balance, timestamp) =>
      if now - timestamp <? CACHE_DURATION then Cached balance
      else Request address
  | None => Request address
  end.

(** The rest of the [try] block *)
Definition checkBalance_try (st : ApiState) (p : Pending)
  : JsResult Q * ApiState :=
  match p with
  | Cached balance => (Ok balance, st)
  | Request address =>
      let timeSinceLastCall := now - lastApiCall st in
      let sent :=
        if timeSinceLastCall <? API_RATE_LIMIT
        then now + (API_RATE_LIMIT - timeSinceLastCall) else now in
      let st := mkApiState (balanceCache st) sent in
      match fetch address with
      | NetworkError => (Throw "TypeError: Failed to fetch", st)
      | HttpStatus status =>
          if status =? 429 then (Ok 0%Q, st)
          else (Throw ("HTTP " +:+ JS.numToString status), st)
      | BadJson => (Throw "SyntaxError", st)
      | FinalBalance satoshis =>
          let balanceInBTC := (satoshis # 100000000)%Q in
          (Ok balanceInBTC,
           mkApiState (<[address := (balanceInBTC, sent)]> (balanceCache st))
                      sent)
      end
  end.

(** The [catch] block returns 0 on every path *)
Definition checkBalance_finish (st : ApiState) (p : Pending)
  : JsResult Q * ApiState :=
  match checkBalance_try st p with
  | (Ok balance, st') => (Ok balance, st')
  | (Throw _, st') => (Ok 0%Q, st')
  end.

Definition checkBalance (st : ApiState) (address : string)
  : JsResult Q * ApiState :=
  checkBalance_finish st (checkBalance_start st address).

(** [b > 0 ? b : null] *)
Definition positiveOrNull (b : Q) : option Q :=
  if Qle_bool b 0 then None else Some b.

(** [Promise.all] starts the three calls before any of them passes its
    first [await]: the three cache checks see the state at the call, and
    each request reads [lastApiCall] as the calls started before it have
    left it.

    [checkBalance_sync]: what a call has made of [lastApiCall] when it
    reaches its first [await]. A request that need not wait has set it
    to [now]; one that waits sets it when its timer fires. *)
Definition checkBalance_sync (lastSeen : Z) (p : Pending) : Z :=
  match p with
  | Cached _ => lastSeen
  | Request _ =>
      if now - lastSeen <? API_RATE_LIMIT then lastSeen else now
  end.

(** A call resumed, in the state [st] the calls resumed before it have
    left: its wait was computed from [lastSeen], the [lastApiCall] it
    read before its first [await] *)
Definition checkBalance_resume (lastSeen : Z) (st : ApiState) (p : Pending)
  : JsResult Q * ApiState :=
  match p with
  | Cached balance => (Ok balance, st)
  | Request _ =>
      checkBalance_finish (mkApiState (balanceCache st) lastSeen) p
  end.

Definition checkAllBalances (st : ApiState) (key : BitcoinKey)
  : BitcoinKey * ApiState :=
  let p1 := checkBalance_start st (legacy (addresses key)) in
  let p2 := checkBalance_start st (segwit (addresses key)) in
  let p3 := checkBalance_start st (nativeSegwit (addresses key)) in
  let seen1 := lastApiCall st in
  let seen2 := checkBalance_sync seen1 p1 in
  let seen3 := checkBalance_sync seen2 p2 in
  let '(r1, st) := checkBalance_resume seen1 st p1 in
  let '(r2, st) := checkBalance_resume seen2 st p2 in
  let '(r3, st) := checkBalance_resume seen3 st p3 in
  match r1, r2, r3 with
  | Ok legacyBalance, Ok segwitBalance, Ok nativeSegwitBalance =>
      ({| id := id key;
          privateKeyHex := privateKeyHex key;
          privateKeyWIF := privateKeyWIF key;
          publicKey := publicKey key;
          addresses := addresses key;
          balances :=
            mkBalances (positiveOrNull legacyBalance)
                       (positiveOrNull segwitBalance)
                       (positiveOrNull nativeSegwitBalance);
          timestamp := timestamp key;
          index := index key |}, st)
  | _, _, _ => (key, st)
  end.
End Lookup.

Definition clearBalanceCache (st : ApiState) : ApiState :=
  mkApiState ∅ (lastApiCall st).

End BitcoinKeyGenerator.

(** ** The [useInfiniteKeys] hook

    The React state and refs of the hook are one record; a callback runs
    on the state the previous one left. An [async] callback that is
    suspended at an [await] while other callbacks run ([performSearch]
    inside [searchVirtualKeys]) is cut at its [await]s: its local
    variables are a [SearchTask], each piece reads the hook state of the
    moment it runs. The waits of the hook (the rate limit of
    [generateKeys], the debounce of the search, the 10 ms pause between
    batches) only delay: the pause is a point of suspension of the model,
    the durations are not modelled. *)

Record SearchTask : Type := mkSearchTask {
  signal : nat;                      (* the task's own [AbortController] *)
  term : string;
  loadedMatches : list BitcoinKey;
  searchIndex : Z;
  batchStart : Z;                    (* first index of the awaited batch *)
  results : list BitcoinKey;
  foundKeyIds : gset string;
  foundCount : Z;
}.

Record HookState : Type := mkHookState {
  keys : list BitcoinKey;
  loading : bool;
  searchLoading : bool;
  searchCompleted : bool;
  currentIndex : Z;
  searchResults : list BitcoinKey;
  generatedKeyIds : gset string;
  searchAbortController : option nat;  (* the ref; controllers are numbered *)
  aborted : gset nat;                  (* controllers whose signal is aborted *)
  controllers : nat;                   (* controllers created so far *)
}.

Module UseInfiniteKeys.

Definition BATCH_SIZE : Z := 50.
Definition SEARCH_BATCH_SIZE : Z := 1000.
Definition MAX_SEARCH_RESULTS : Z := 100.

Definition initialState : HookState :=
  {| keys := []; loading := false; searchLoading := false;
     searchCompleted := false; currentIndex := 0; searchResults := [];
     generatedKeyIds := ∅; searchAbortController := None;
     aborted := ∅; controllers := 0 |}.

Section Hook.
Variable sha256 : list Z -> list Z.
Variable now : Z.

Definition generateKeyAtIndex (index : Z) : JsResult BitcoinKey :=
  let privateKey :=
    BitcoinKeyGenerator.generateFixedPrivateKeyFromIndex index in
  BitcoinKeyGenerator.generateKeyFromPrivateKey sha256 now privateKey index.

(** The [for] loop of [generateKeys], over [i = 0 .. count-1] *)
Fixpoint generateKeys_loop (startIndex : Z) (offsets : list Z)
         (ids : gset string) (newKeys : list BitcoinKey)
  : list BitcoinKey * gset string :=
  match offsets with
  | [] => (newKeys, ids)
  | i :: rest =>
      let keyIndex := startIndex + i in
      let keyId := "key-" +:+ JS.numToString keyIndex in
      if bool_decide (keyId ∈ ids)
      then generateKeys_loop startIndex rest ids newKeys
      else
        match generateKeyAtIndex keyIndex with
        | Ok key =>
            generateKeys_loop startIndex rest ({[id key]} ∪ ids)
                              (newKeys ++ [key])
        | Throw _ => generateKeys_loop startIndex rest ids newKeys
        end
  end.

Definition generateKeys (startIndex count : Z) (ids : gset string)
  : list BitcoinKey * gset string :=
  generateKeys_loop startIndex (JS.upto (Z.to_nat count)) ids [].

Definition loadMore (st : HookState) : HookState :=
  if loading st then st
  else
    let '(newKeys, ids) :=
      generateKeys (currentIndex st) BATCH_SIZE (generatedKeyIds st) in
    let existingIds : gset string := list_to_set (map id (keys st)) in
    let uniqueNewKeys :=
      List.filter (fun k => negb (bool_decide (id k ∈ existingIds))) newKeys in
    {| keys := keys st ++ uniqueNewKeys;
       loading := false;
       searchLoading := searchLoading st;
       searchCompleted := searchCompleted st;
       currentIndex := currentIndex st + BATCH_SIZE;
       searchResults := searchResults st;
       generatedKeyIds := ids;
       searchAbortController := searchAbortController st;
       aborted := aborted st;
       controllers := controllers st |}.

(** *** Search *)

Definition matches (term : string) (key : BitcoinKey) : bool :=
  JS.includes (JS.toLowerCase (privateKeyHex key)) term
  || JS.includes (JS.toLowerCase (privateKeyWIF key)) term
  || JS.includes (JS.toLowerCase (legacy (addresses key))) term
  || JS.includes (JS.toLowerCase (segwit (addresses key))) term
  || JS.includes (JS.toLowerCase (nativeSegwit (addresses key))) term.

(** [signal.aborted] of a task, read in the state of the moment *)
Definition signalAborted (st : HookState) (t : SearchTask) : bool :=
  bool_decide (signal t ∈ aborted st).

(** [Promise.all(batchPromises)]: rejected when a derivation throws *)
Fixpoint awaitAll (ps : list (JsResult BitcoinKey))
  : JsResult (list BitcoinKey) :=
  match ps with
  | [] => Ok []
  | p :: rest => key ← p; batch ← awaitAll rest; Ok (key :: batch)
  end.

Definition batchOf (t : SearchTask) : JsResult (list BitcoinKey) :=
  awaitAll (map (fun i => generateKeyAtIndex (batchStart t + i))
                (JS.upto (Z.to_nat (searchIndex t - batchStart t)))).

(** [for (const key of batch)] in [searchVirtualKeys] *)
Fixpoint scanBatch (isAborted : bool) (term : string)
         (batch : list BitcoinKey)
         (acc : list BitcoinKey * gset string * Z)
  : list BitcoinKey * gset string * Z :=
  match batch with
  | [] => acc
  | key :: rest =>
      let '(results, foundKeyIds, foundCount) := acc in
      if isAborted then acc
      else if bool_decide (id key ∈ foundKeyIds)
           then scanBatch isAborted term rest acc
           else if matches term key then
                  let acc' := (results ++ [key], {[id key]} ∪ foundKeyIds,
                               foundCount + 1) in
                  if MAX_SEARCH_RESULTS <=? foundCount + 1 then acc'
                  else scanBatch isAborted term rest acc'
                else scanBatch isAborted term rest acc
  end.

(** What a piece of [searchVirtualKeys] ends with: suspended at an
    [await], or returned with [results t] *)
Inductive Scan : Type :=
| AwaitBatch (t : SearchTask)   (* at [await Promise.all(batchPromises)] *)
| AwaitDelay (t : SearchTask)   (* at the 10 ms [setTimeout] *)
| Return (t : SearchTask).

(** From the head of the [while] loop to [await Promise.all] *)
Definition scanHead (st : HookState) (t : SearchTask) : Scan :=
  if (foundCount t <? MAX_SEARCH_RESULTS) && (searchIndex t <? 100000) then
    if signalAborted st t then Return t
    else
      let n := Z.min SEARCH_BATCH_SIZE (100000 - searchIndex t) in
      AwaitBatch {| signal := signal t; term := term t;
                    loadedMatches := loadedMatches t;
                    searchIndex := searchIndex t + n;
                    batchStart := searchIndex t;
                    results := results t;
                    foundKeyIds := foundKeyIds t;
                    foundCount := foundCount t |}
  else Return t.

(** From the settled batch to the [setTimeout]; a rejected batch goes
    to [catch], which leaves the loop *)
Definition scanBody (st : HookState) (t : SearchTask) : Scan :=
  match batchOf t with
  | Throw _ => Return t
  | Ok batch =>
      let '(results, foundKeyIds, foundCount) :=
        scanBatch (signalAborted st t) (JS.toLowerCase (term t)) batch
                  (results t, foundKeyIds t, foundCount t) in
      AwaitDelay {| signal := signal t; term := term t;
                    loadedMatches := loadedMatches t;
                    searchIndex := searchIndex t;
                    batchStart := batchStart t;
                    results := results;
                    foundKeyIds := foundKeyIds;
                    foundCount := foundCount |}
  end.

(** [combinedResults.set(key.id, key)] on a [Map]: a present key keeps
    its place *)
Fixpoint mapSet (m : list (string * BitcoinKey)) (k : string)
         (v : BitcoinKey) : list (string * BitcoinKey) :=
  match m with
  | [] => [(k, v)]
  | (k', v') :: rest =>
      if String.eqb k k' then (k, v) :: rest else (k', v') :: mapSet rest k v
  end.

Definition mapHas (m : list (string * BitcoinKey)) (k : string) : bool :=
  existsb (fun e => String.eqb k (fst e)) m.

(** [.sort((a, b) => a.index - b.index)]: stable, records of equal
    index keep their order *)
Fixpoint insertByIndex (k : BitcoinKey) (l : list BitcoinKey)
  : list BitcoinKey :=
  match l with
  | [] => [k]
  | k' :: rest =>
      if index k <=? index k' then k :: l else k' :: insertByIndex k rest
  end.

Definition sortByIndex (l : list BitcoinKey) : list BitcoinKey :=
  fold_right insertByIndex [] l.

Definition combine (loaded virtualMatches : list BitcoinKey)
  : list BitcoinKey :=
  let combinedResults :=
    fold_left (fun m key => mapSet m (id key) key) loaded [] in
  let combinedResults :=
    fold_left (fun m key => if mapHas m (id key) then m
                            else mapSet m (id key) key)
              virtualMatches combinedResults in
  sortByIndex (map snd combinedResults).

Definition abortCurrent (st : HookState) : gset nat :=
  match searchAbortController st with
  | Some c => {[c]} ∪ aborted st
  | None => aborted st
  end.

(** [performSearch(term)] up to its [await]: the new state, and the
    suspended call when there is one. [searchVirtualKeys] is entered
    with a term of three characters or more, so that its own guard on
    the length of the term does not return. *)
Definition performSearch_start (searchTerm : string) (st : HookState)
  : HookState * option Scan :=
  let aborted' := abortCurrent st in
  if (String.length searchTerm <? 3)%nat then
    ({| keys := keys st; loading := loading st;
        searchLoading := false; searchCompleted := false;
        currentIndex := currentIndex st; searchResults := [];
        generatedKeyIds := generatedKeyIds st;
        searchAbortController := searchAbortController st;
        aborted := aborted'; controllers := controllers st |}, None)
  else
    let c := controllers st in
    let st' :=
      {| keys := keys st; loading := loading st;
         searchLoading := true; searchCompleted := false;
         currentIndex := currentIndex st;
         searchResults := searchResults st;
         generatedKeyIds := generatedKeyIds st;
         searchAbortController := Some c;
         aborted := aborted'; controllers := S c |} in
    let loaded :=
      List.filter (matches (JS.toLowerCase searchTerm)) (keys st) in
    (st', Some (scanHead st'
                  {| signal := c; term := searchTerm;
                     loadedMatches := loaded;
                     searchIndex := 0; batchStart := 0; results := [];
                     foundKeyIds := ∅; foundCount := 0 |})).

(** [performSearch] after [await searchVirtualKeys(...)], which
    returned [results t]; [t] holds the locals of the call. The guards
    read [searchAbortController.current], the ref, in the state of the
    moment; with no controller there the [try] block throws and the
    [catch] block shows an empty list. *)
Definition performSearch_finish (st : HookState) (t : SearchTask)
  : HookState :=
  let virtualMatches := results t in
  let allMatches := combine (loadedMatches t) virtualMatches in
  let shown :=
    match searchAbortController st with
    | Some c => negb (bool_decide (c ∈ aborted st))
    | None => true
    end in
  if shown then
    {| keys := keys st; loading := loading st;
       searchLoading := false; searchCompleted := true;
       currentIndex := currentIndex st;
       searchResults :=
         match searchAbortController st with
         | Some _ => allMatches
         | None => []
         end;
       generatedKeyIds := generatedKeyIds st;
       searchAbortController := searchAbortController st;
       aborted := aborted st; controllers := controllers st |}
  else st.

(** A suspended search resumed in state [st]: one piece of
    [searchVirtualKeys], or the rest of [performSearch] once it has
    returned *)
Definition resume (st : HookState) (s : Scan) : HookState * option Scan :=
  match s with
  | AwaitBatch t => (st, Some (scanBody st t))
  | AwaitDelay t => (st, Some (scanHead st t))
  | Return t => (performSearch_finish st t, None)
  end.

(** The effect on [searchTerm] that runs when the term is empty *)
Definition clearSearch (st : HookState) : HookState :=
  {| keys := keys st; loading := loading st;
     searchLoading := false; searchCompleted := false;
     currentIndex := currentIndex st; searchResults := [];
     generatedKeyIds := generatedKeyIds st;
     searchAbortController := searchAbortController st;
     aborted := abortCurrent st; controllers := controllers st |}.

(** *** Balance of a record

    [balanceCheckQueue], a ref, is a set beside the state. [fetch] and
    [api] are the network and the static fields of [BitcoinKeyGenerator];
    the call is cut at its [await]. *)





End Hook.

End UseInfiniteKeys.

(** ** SHA-256

    [crypto.subtle.digest('SHA-256', data)] is the platform's; this is the
    function it computes (FIPS 180-4), on byte lists. The model above takes
    the hash as a parameter; [Sha256.sha256] instantiates it where the
    model is run. *)

Module Sha256.

(** The largest [r] below [2 ^ bits] with [power r <= x], for an
    increasing [power] *)
Fixpoint root (power : Z -> Z) (bits : nat) (x r : Z) : Z :=
  match bits with
  | O => r
  | S b =>
      let c := r + 2 ^ Z.of_nat b in
      root power b x (if power c <=? x then c else r)
  end.

Definition isPrime (p : Z) : bool :=
  (1 <? p)
  && forallb (fun d => negb (p mod d =? 0))
             (map (fun d => d + 2) (JS.upto (Z.to_nat (p - 2)))).

(** The first 64 primes *)
Definition primes : list Z :=
  Eval vm_compute in List.filter isPrime (JS.upto 312).

(** The round constants: the first 32 bits of the fractional parts of
    the cube roots of the primes *)
Definition K : list Z :=
  Eval vm_compute in
    map (fun p => root (fun c => c * c * c) 35 (p * 2 ^ 96) 0 mod 2 ^ 32)
        primes.

(** The initial hash value: the same for the square roots of the first
    8 primes *)
Definition H0 : list Z :=
  Eval vm_compute in
    map (fun p => root (fun c => c * c) 35 (p * 2 ^ 64) 0 mod 2 ^ 32)
        (firstn 8 primes).

(** The low 32 bits of a non-negative number *)
Definition w32 (x : Z) : Z := Z.land x 0xffffffff.
Definition rotr (x n : Z) : Z :=
  w32 (Z.lor (Z.shiftr x n) (Z.shiftl x (32 - n))).
Definition shr (x n : Z) : Z := Z.shiftr x n.
Definition xor3 (a b c : Z) : Z := Z.lxor (Z.lxor a b) c.

Definition ch (x y z : Z) : Z :=
  Z.lxor (Z.land x y) (Z.land (Z.lxor x 0xffffffff) z).
Definition maj (x y z : Z) : Z :=
  xor3 (Z.land x y) (Z.land x z) (Z.land y z).
Definition bsig0 (x : Z) : Z := xor3 (rotr x 2) (rotr x 13) (rotr x 22).
Definition bsig1 (x : Z) : Z := xor3 (rotr x 6) (rotr x 11) (rotr x 25).
Definition ssig0 (x : Z) : Z := xor3 (rotr x 7) (rotr x 18) (shr x 3).
Definition ssig1 (x : Z) : Z := xor3 (rotr x 17) (rotr x 19) (shr x 10).

(** The message with its padding: a 1 bit, zeros, the bit length on 64
    bits, up to a multiple of 64 bytes *)
Definition pad (msg : list Z) : list Z :=
  let len := Z.of_nat (length msg) in
  let zeros := Z.to_nat ((55 - len) mod 64) in
  msg ++ [0x80] ++ repeat 0 zeros
      ++ map (fun k : Z => (8 * len) / 2 ^ (8 * (7 - k)) mod 256) (JS.upto 8).

Fixpoint words (bytes : list Z) : list Z :=
  match bytes with
  | a :: b :: c :: d :: rest =>
      (((a * 256 + b) * 256 + c) * 256 + d) :: words rest
  | _ => []
  end.

(** The message schedule, most recent word first *)
Fixpoint schedule (n : nat) (rev_w : list Z) : list Z :=
  match n with
  | O => rev_w
  | S n' =>
      let w := w32 (ssig1 (nth 1 rev_w 0) + nth 6 rev_w 0
                    + ssig0 (nth 14 rev_w 0) + nth 15 rev_w 0) in
      schedule n' (w :: rev_w)
  end.

Definition round (s : list Z) (kw : Z * Z) : list Z :=
  match s with
  | [a; b; c; d; e; f; g; h] =>
      let t1 := h + bsig1 e + ch e f g + fst kw + snd kw in
      let t2 := bsig0 a + maj a b c in
      [w32 (t1 + t2); a; b; c; w32 (d + t1); e; f; g]
  | _ => s
  end.

Definition compress (h : list Z) (block : list Z) : list Z :=
  let w := rev (schedule 48 (rev (words block))) in
  let s := fold_left round (zip K w) h in
  zip_with (fun x y => w32 (x + y)) h s.

Fixpoint blocks (fuel : nat) (bytes : list Z) (h : list Z) : list Z :=
  match fuel with
  | O => h
  | S fuel' =>
      match bytes with
      | [] => h
      | _ => blocks fuel' (skipn 64 bytes) (compress h (firstn 64 bytes))
      end
  end.

Definition sha256 (data : list Z) : list Z :=
  let padded := pad (map JS.u8 data) in
  let h := blocks (length padded) padded H0 in
  concat (map (fun x : Z =>
                 [x / 2 ^ 24 mod 256; x / 2 ^ 16 mod 256;
                  x / 2 ^ 8 mod 256; x mod 256]) h).

End Sha256.

(** * Definitions for the statements

    Predicates on the data of the model, the words of the specification
    where a property compares the source with them, and the inputs the
    properties are run on. *)

Definition is_byte (b : Z) : Prop := 0 <= b < 256.

Definition bytes (l : list Z) : Prop := Forall is_byte l.

(** The words of the specification for [uintToBytes(value, width)]:
    big-endian, zero-padded to [width] bytes, [None] (the overflow error)
    when [value] does not fit *)
Fixpoint spec_littleEndian (width : nat) (value : Z) : list Z :=
  match width with
  | O => []
  | S w => value mod 256 :: spec_littleEndian w (value / 256)
  end.

Definition spec_uintToBytes (value : Z) (width : nat) : option (list Z) :=
  if (0 <=? value) && (value <? 256 ^ Z.of_nat width)
  then Some (rev (spec_littleEndian width value))
  else None.

(** The words of the specification for the correction of a candidate
    scalar, for a modulus [M]: nothing is done to a value in [(0, M)];
    otherwise, at most ten times, the value is XORed with
    [index + attempt * 1337], reduced modulo [M] and, if zero, set to
    [index + 1], until it is in [(0, M)] *)
Fixpoint spec_correct (M index : Z) (attemptsLeft : nat) (v : Z) : Z :=
  if (0 <? v) && (v <? M) then v
  else
    match attemptsLeft with
    | O => v
    | S n =>
        let attempt := 10 - Z.of_nat attemptsLeft in
        let x := (Z.lxor v (index + attempt * 1337)) mod M in
        spec_correct M index n (if x =? 0 then index + 1 else x)
    end.

(** The largest valid key, and the largest 32-byte value *)
Definition seed_orderMinusOne : list Z :=
  BitcoinCrypto.bigIntToBytes (BitcoinCrypto.secp256k1Order - 1).
Definition seed_allOnes : list Z := repeat 255 32.

(** [k] characters ['1'] *)
Fixpoint ones (k : nat) : string :=
  match k with
  | O => EmptyString
  | S k' => String "1" (ones k')
  end.

(** The number of leading zero bytes *)
Fixpoint leadingZeros (b : list Z) : nat :=
  match b with
  | x :: rest => if x =? 0 then S (leadingZeros rest) else O
  | [] => O
  end.

(** A string that does not start with ['1'] *)
Definition noLeadingOne (s : string) : Prop :=
  match s with
  | EmptyString => True
  | String c _ => c <> "1"%char
  end.

(** A byte list that does not start with a zero byte *)
Definition canonical (r : list Z) : Prop :=
  match r with
  | [] => True
  | x :: _ => x <> 0
  end.

(** The id of the record of an index: [`key-${index}`] *)
Definition keyId (i : Z) : string := "key-" +:+ JS.numToString i.

(** The state of a hook that materialized the indices below [c] and is
    not loading *)
Definition materialized (c : Z) (st : HookState) : Prop :=
  loading st = false
  /\ currentIndex st = c
  /\ map id (keys st) = map keyId (JS.upto (Z.to_nat c))
  /\ map index (keys st) = JS.upto (Z.to_nat c)
  /\ generatedKeyIds st = list_to_set (map keyId (JS.upto (Z.to_nat c))).

(** A lookup that fails: the cache has no fresh entry for the address
    and the request does not deliver a balance *)
Definition lookupFails (now : Z) (fetch : string -> FetchOutcome)
           (st : ApiState) (address : string) : Prop :=
  BitcoinKeyGenerator.checkBalance_start now st address
  = BitcoinKeyGenerator.Request address
  /\ forall satoshis, fetch address <> FinalBalance satoshis.

(** A lookup that is answered by a request, with [satoshis] *)
Definition lookupFetches (now : Z) (fetch : string -> FetchOutcome)
           (st : ApiState) (address : string) (satoshis : Z) : Prop :=
  BitcoinKeyGenerator.checkBalance_start now st address
  = BitcoinKeyGenerator.Request address
  /\ fetch address = FinalBalance satoshis.

(** The value a pending [checkBalance] call settles with *)
Definition settled (fetch : string -> FetchOutcome)
           (p : BitcoinKeyGenerator.Pending) : Q :=
  match p with
  | BitcoinKeyGenerator.Cached balance => balance
  | BitcoinKeyGenerator.Request address =>
      match fetch address with
      | FinalBalance satoshis => (satoshis # 100000000)%Q
      | _ => 0%Q
      end
  end.

Definition emptyApi : ApiState := mkApiState ∅ 0.

(** A record with a known legacy balance of half a coin, as a check
    that found 50000000 satoshis on its legacy address has returned it *)
Definition paidKey : BitcoinKey :=
  {| id := "key-7"; privateKeyHex := "07"; privateKeyWIF := "K7";
     publicKey := "02"; addresses := mkAddresses "1A" "3B" "bc1q";
     balances := mkBalances (Some (50000000 # 100000000)%Q) None None;
     timestamp := 0; index := 7 |}.

(** The network with 50000000 satoshis on the address ["1A"] and
    nothing elsewhere, and the network down *)
Definition paidNetwork (address : string) : FetchOutcome :=
  if String.eqb address "1A" then FinalBalance 50000000 else FinalBalance 0.
Definition networkDown (address : string) : FetchOutcome := NetworkError.

(** A record as [generateKeyFromPrivateKey] makes it: no balance known *)
Definition freshKey : BitcoinKey :=
  {| id := "key-7"; privateKeyHex := "07"; privateKeyWIF := "K7";
     publicKey := "02"; addresses := mkAddresses "1A" "3B" "bc1q";
     balances := mkBalances None None None;
     timestamp := 0; index := 7 |}.

(** Controllers are numbered in the order of their creation. *)
Definition wellNumbered (st : HookState) : Prop :=
  (forall c, c ∈ aborted st -> (c < controllers st)%nat)
  /\ (forall c, searchAbortController st = Some c -> (c < controllers st)%nat).

(** The state [performSearch] leaves at its [await], for a term of three
    characters or more: a new controller is installed *)
Definition searching (st : HookState) : HookState :=
  {| keys := keys st; loading := loading st;
     searchLoading := true; searchCompleted := false;
     currentIndex := currentIndex st; searchResults := searchResults st;
     generatedKeyIds := generatedKeyIds st;
     searchAbortController := Some (controllers st);
     aborted := UseInfiniteKeys.abortCurrent st;
     controllers := S (controllers st) |}.

(** The locals of that call, awaiting its first batch *)
Definition firstBatch (searchTerm : string) (st : HookState) : SearchTask :=
  {| signal := controllers st; term := searchTerm;
     loadedMatches :=
       List.filter (UseInfiniteKeys.matches (JS.toLowerCase searchTerm)) (keys st);
     searchIndex := 1000; batchStart := 0; results := [];
     foundKeyIds := ∅; foundCount := 0 |}.

Section SearchRuns.
Variable sha256 : list Z -> list Z.
Variable now : Z.

(** At most [n] resumptions of a suspended search, each in the state
    the previous one left *)
Fixpoint resumeAll (n : nat) (st : HookState)
         (s : option UseInfiniteKeys.Scan)
  : HookState * option UseInfiniteKeys.Scan :=
  match n, s with
  | S n', Some sc =>
      let '(st', s') := UseInfiniteKeys.resume sha256 now st sc in
      resumeAll n' st' s'
  | _, _ => (st, s)
  end.

(** A search for [termA] is started; while it awaits its first batch a
    search for [termB] is started; then the first search runs on, until
    its [performSearch] call has ended. *)
Definition superseded (termA termB : string) (st : HookState) : HookState :=
  let '(st1, searchA) := UseInfiniteKeys.performSearch_start termA st in
  let '(st2, _) := UseInfiniteKeys.performSearch_start termB st1 in
  fst (resumeAll 3 st2 searchA).

(** The same, the query being cleared instead. *)
Definition cleared (termA : string) (st : HookState) : HookState :=
  let '(st1, searchA) := UseInfiniteKeys.performSearch_start termA st in
  let st2 := UseInfiniteKeys.clearSearch st1 in
  fst (resumeAll 3 st2 searchA).
End SearchRuns.

(** The public key of the record of index 0 *)
Definition publicKey0 : list Z :=
  BitcoinCrypto.getPublicKey
    (BitcoinKeyGenerator.generateFixedPrivateKeyFromIndex 0).

(** The hook after its initial load, with the platform's SHA-256 *)
Definition loadedState : HookState :=
  UseInfiniteKeys.loadMore Sha256.sha256 0 UseInfiniteKeys.initialState.


(** Text made of characters of the Base58 alphabet only *)
Definition base58Text (s : string) : bool :=
  forallb (fun c => negb (JS.indexOf c Base58.BASE58_ALPHABET =? -1))
          (list_ascii_of_string s).

(** The payload of a WIF string: version byte, key, compression flag *)
Definition wifPayload (privateKey : list Z) : list Z :=
  0x80 :: privateKey ++ [0x01].

(** How many of the [n] indices from [a] on [shouldHaveBalance] marks *)
Definition balancesIn (a : Z) (n : nat) : nat :=
  length (List.filter BitcoinKeyGenerator.shouldHaveBalance
                      (map (fun k => a + k) (JS.upto n))).

(** The same count by a loop that carries the index *)
Fixpoint countBalances (n : nat) (a : Z) (acc : nat) : nat :=
  match n with
  | O => acc
  | S n' =>
      countBalances n' (a + 1)
        (if BitcoinKeyGenerator.shouldHaveBalance a then S acc else acc)
  end.

(** Records in the order of their indices *)
Fixpoint indexSorted (l : list BitcoinKey) : Prop :=
  match l with
  | [] => True
  | k :: rest =>
      (forall k', In k' rest -> index k <= index k') /\ indexSorted rest
  end.

(** The hook after [n] calls of [loadMore], one after the other *)
Definition loadMoreTimes (sha256 : list Z -> list Z) (now : Z) (n : nat)
  : HookState :=
  Nat.iter n (UseInfiniteKeys.loadMore sha256 now) UseInfiniteKeys.initialState.

(** What the two loops over [combinedResults] keep: an entry is filed
    under the id of its record, the keys are distinct, and a record
    comes from the loaded matches or, its id not being among theirs,
    from the virtual ones. *)
Definition merged (loaded virtualMatches : list BitcoinKey)
           (m : list (string * BitcoinKey)) : Prop :=
  Forall (fun e => fst e = id (snd e)) m
  /\ NoDup (map fst m)
  /\ (forall e, In e m ->
        In (snd e) loaded
        \/ (In (snd e) virtualMatches /\ ~ In (id (snd e)) (map id loaded))).

(** What holds of a search nobody has aborted, each time it is
    suspended: the ref holds its controller, its results match its term
    and are counted by [foundCount], at most [MAX_SEARCH_RESULTS] *)
Definition searchInvariant (st : HookState) (t : SearchTask) : Prop :=
  searchAbortController st = Some (signal t)
  /\ (signal t ∉ aborted st)
  /\ Forall (fun k => UseInfiniteKeys.matches (JS.toLowerCase (term t)) k = true)
            (results t)
  /\ foundCount t = Z.of_nat (length (results t))
  /\ foundCount t <= UseInfiniteKeys.MAX_SEARCH_RESULTS.

(** One step of [polymod] on non-negative integers below 2^30, with the
    32-bit coercions left out, and the checksum loop from a state *)
Definition polymodStep (chk value : Z) : Z :=
  let top := Z.shiftr chk 25 in
  fold_left
    (fun chk i =>
       Z.lxor chk (if Z.testbit top i then nth (Z.to_nat i) Bech32.GEN 0 else 0))
    (JS.upto 5)
    (Z.lxor (Z.shiftl (Z.land chk 0x1ffffff) 5) value).

Definition polymodFrom (chk : Z) (values : list Z) : Z :=
  fold_left polymodStep values chk.

(** Values of five bits *)
Definition fiveBit (v : Z) : Prop := 0 <= v < 32.

(** The number six values of five bits denote, most significant first *)
Definition fromFiveBit (values : list Z) : Z :=
  fold_left (fun acc v => acc * 32 + v) values 0.

(** The body of the loop of [polymod], as the source has it *)
Definition polymodBody (chk value : Z) : Z :=
  let top := JS.sar chk 25 in
  let chk := JS.bxor (JS.shl (JS.band chk 0x1ffffff) 5) value in
  fold_left
    (fun chk i =>
       JS.bxor chk (if JS.band (JS.sar top i) 1 =? 0 then 0
                    else nth (Z.to_nat i) Bech32.GEN 0))
    (JS.upto 5) chk.

(** The characters that stand for five-bit values *)
Definition bech32Text (values : list Z) : string :=
  fold_right (fun d s => JS.strAt Bech32.BECH32_ALPHABET d +:+ s)
             EmptyString values.

(** The groups of five bits of a number below 2^30 *)
Definition toFiveBit (m : Z) : list Z :=
  map (fun i => Z.land (Z.shiftr m (5 * (5 - i))) 31) (JS.upto 6).

(** The byte [simulateSecp256k1PublicKey] XORs onto byte [i] of the
    key, from the rolling hash of the key *)
Definition keystream (hash i : Z) : Z :=
  JS.rem (JS.band (hash + i * 1337) 0xffffffff) 256 mod 256.

(** * Properties *)

(** ** Runs of the model *)

Example sha256_abc :
  BitcoinCrypto.bytesToHex (Sha256.sha256 [0x61; 0x62; 0x63])
  = "ba7816bf8f01cfea414140de5dae2223b00361a396177a9cb410ff61f20015ad".
Proof. vm_compute. reflexivity. Qed.

Example sha256_empty :
  BitcoinCrypto.bytesToHex (Sha256.sha256 [])
  = "e3b0c44298fc1c149afbf4c8996fb92427ae41e4649b934ca495991b7852b855".
Proof. vm_compute. reflexivity. Qed.

(** ** Bytes and big integers *)

Section Codec.
Import BitcoinCrypto.

Lemma u8_is_byte z : is_byte (JS.u8 z).
Proof. unfold is_byte, JS.u8. apply Z.mod_pos_bound. lia. Qed.

Lemma u8_id b : is_byte b -> JS.u8 b = b.
Proof. unfold is_byte, JS.u8. intros H. apply Z.mod_small. exact H. Qed.

Lemma map_u8_bytes l : bytes l -> map JS.u8 l = l.
Proof.
  induction 1 as [|b l Hb _ IH]; simpl; [reflexivity|].
  rewrite u8_id, IH; auto.
Qed.

Lemma bytes_map_u8 l : bytes (map JS.u8 l).
Proof. induction l; constructor; auto using u8_is_byte. Qed.

Lemma bytesToBigInt_acc l a :
  fold_left (fun result byte => Z.shiftl result 8 + byte) l a
  = a * 256 ^ Z.of_nat (length l) + bytesToBigInt l.
Proof.
  unfold bytesToBigInt. revert a.
  induction l as [|x l IH]; intros a; simpl fold_left.
  - simpl. lia.
  - rewrite (IH (Z.shiftl a 8 + x)), (IH (Z.shiftl 0 8 + x)).
    rewrite !Z.shiftl_mul_pow2 by lia.
    replace (Z.of_nat (length (x :: l))) with (1 + Z.of_nat (length l))
      by (simpl length; lia).
    rewrite Z.pow_add_r by lia. lia.
Qed.

Lemma bytesToBigInt_cons x l :
  bytesToBigInt (x :: l) = x * 256 ^ Z.of_nat (length l) + bytesToBigInt l.
Proof.
  unfold bytesToBigInt at 1. simpl fold_left.
  rewrite bytesToBigInt_acc, Z.shiftl_mul_pow2 by lia. lia.
Qed.

Lemma bytesToBigInt_app l1 l2 :
  bytesToBigInt (l1 ++ l2)
  = bytesToBigInt l1 * 256 ^ Z.of_nat (length l2) + bytesToBigInt l2.
Proof.
  unfold bytesToBigInt at 1. rewrite fold_left_app.
  fold (bytesToBigInt l1). apply bytesToBigInt_acc.
Qed.

Lemma bytesToBigInt_bound l :
  bytes l -> 0 <= bytesToBigInt l < 256 ^ Z.of_nat (length l).
Proof.
  induction 1 as [|b l Hb _ IH].
  - simpl. unfold bytesToBigInt. simpl. lia.
  - rewrite bytesToBigInt_cons.
    replace (Z.of_nat (length (b :: l))) with (1 + Z.of_nat (length l))
      by (simpl length; lia).
    rewrite Z.pow_add_r by lia. unfold is_byte in Hb.
    assert (0 < 256 ^ Z.of_nat (length l)) by (apply Z.pow_pos_nonneg; lia).
    nia.
Qed.

Lemma bigIntToBytes_loop_spec n v acc :
  bigIntToBytes_loop n v acc = rev (spec_littleEndian n v) ++ acc.
Proof.
  revert v acc. induction n as [|n IH]; intros v acc; simpl.
  - reflexivity.
  - rewrite IH, <- app_assoc. simpl.
    rewrite Z.shiftr_div_pow2 by lia.
    change 255 with (Z.ones 8). rewrite Z.land_ones by lia.
    reflexivity.
Qed.

Lemma spec_littleEndian_mod n v :
  spec_littleEndian n (v mod 256 ^ Z.of_nat n) = spec_littleEndian n v.
Proof.
  revert v. induction n as [|n IH]; intros v; [reflexivity|].
  cbn [spec_littleEndian].
  replace (Z.of_nat (S n)) with (1 + Z.of_nat n) by lia.
  rewrite Z.pow_add_r by lia. change (256 ^ 1) with 256.
  assert (0 < 256 ^ Z.of_nat n) by (apply Z.pow_pos_nonneg; lia).
  f_equal.
  - rewrite Z.rem_mul_r by lia.
    rewrite (Z.mul_comm 256), Z.mod_add by lia.
    apply Z.mod_mod. lia.
  - rewrite <- IH. rewrite <- (IH (v / 256)). f_equal.
    rewrite Z.rem_mul_r by lia.
    rewrite (Z.mul_comm 256), Z.div_add by lia.
    rewrite (Z.div_small (v mod 256)) by (apply Z.mod_pos_bound; lia).
    rewrite Z.add_0_l. apply Z.mod_mod. lia.
Qed.

Lemma spec_littleEndian_length n v : length (spec_littleEndian n v) = n.
Proof. revert v. induction n; intros; simpl; auto. Qed.

Lemma spec_littleEndian_bytes n v : bytes (spec_littleEndian n v).
Proof.
  revert v. induction n as [|n IH]; intros v; simpl; constructor.
  - apply Z.mod_pos_bound. lia.
  - apply IH.
Qed.

Lemma spec_littleEndian_value n v :
  bytesToBigInt (rev (spec_littleEndian n v)) = v mod 256 ^ Z.of_nat n.
Proof.
  revert v. induction n as [|n IH]; intros v.
  - simpl. unfold bytesToBigInt. simpl. symmetry. apply Z.mod_1_r.
  - cbn [spec_littleEndian rev]. rewrite bytesToBigInt_app, IH.
    unfold bytesToBigInt at 1. simpl fold_left. simpl length.
    rewrite Z.shiftl_mul_pow2 by lia.
    replace (Z.of_nat (S n)) with (1 + Z.of_nat n) by lia.
    rewrite Z.pow_add_r by lia. change (256 ^ 1) with 256.
    assert (0 < 256 ^ Z.of_nat n) by (apply Z.pow_pos_nonneg; lia).
    rewrite (Z.rem_mul_r v 256) by lia.
    change (256 ^ Z.of_nat 1) with 256. change (2 ^ 8) with 256. lia.
Qed.

Lemma bigIntToBytes_length v : length (bigIntToBytes v) = 32%nat.
Proof.
  unfold bigIntToBytes. rewrite bigIntToBytes_loop_spec, app_nil_r.
  rewrite length_rev. apply spec_littleEndian_length.
Qed.

Lemma bigIntToBytes_bytes v : bytes (bigIntToBytes v).
Proof.
  unfold bigIntToBytes. rewrite bigIntToBytes_loop_spec, app_nil_r.
  apply Forall_rev, spec_littleEndian_bytes.
Qed.

Lemma bytesToBigInt_bigIntToBytes v :
  bytesToBigInt (bigIntToBytes v) = v mod 2 ^ 256.
Proof.
  unfold bigIntToBytes. rewrite bigIntToBytes_loop_spec, app_nil_r.
  apply spec_littleEndian_value.
Qed.

End Codec.

(** ** Deterministic key derivation *)

Section KeyDerivation.
Import BitcoinCrypto BitcoinKeyGenerator.

Lemma maxKey_order : maxKey = secp256k1Order - 1.
Proof. reflexivity. Qed.

Lemma mixByte_is_byte index i : is_byte (mixByte index i).
Proof. apply u8_is_byte. Qed.

Lemma bytes_map_mixByte index l : bytes (map (mixByte index) l).
Proof. induction l; constructor; auto using mixByte_is_byte. Qed.

(** Byte 7 of the candidate only depends on the low byte of the index:
    it is [0x20 ^ (index & 255) ^ ((index + 7) & 255)]. *)
Lemma mixByte_7_low index :
  0 <= index -> mixByte index 7 = mixByte (index mod 256) 7.
Proof.
  intros Hi. unfold mixByte.
  assert (Hm : 0 <= index mod 256 < 256) by (apply Z.mod_pos_bound; lia).
  assert (Hia : forall j, JS.at0 (indexArray j) (Z.to_nat (JS.rem 7 8))
                          = j mod 256).
  { intros j. unfold indexArray.
    change (Z.to_nat (JS.rem 7 8)) with 7%nat.
    change (JS.upto 8) with [0; 1; 2; 3; 4; 5; 6; 7].
    cbn [map JS.at0 nth].
    change (2 ^ (8 * (7 - 7))) with 1. rewrite Z.div_1_r.
    apply Z.mod_mod_divide. exists (2 ^ 56). reflexivity. }
  assert (Hpos : JS.rem (index + 7) 256 = JS.rem (index mod 256 + 7) 256).
  { unfold JS.rem. rewrite !Z.rem_mod_nonneg by lia.
    symmetry. apply Zplus_mod_idemp_l. }
  rewrite !Hia, Hpos, Z.mod_mod by lia. reflexivity.
Qed.

Lemma mixByte_7_check :
  forallb (fun m => negb (mixByte m 7 =? 0) && negb (mixByte m 7 =? 255))
          (JS.upto 256) = true.
Proof. vm_compute. reflexivity. Qed.

Lemma mixByte_7_mid index :
  0 <= index -> mixByte index 7 <> 0 /\ mixByte index 7 <> 255.
Proof.
  intros Hi. rewrite mixByte_7_low by exact Hi.
  assert (Hm : 0 <= index mod 256 < 256) by (apply Z.mod_pos_bound; lia).
  pose proof mixByte_7_check as Hc.
  rewrite forallb_forall in Hc.
  specialize (Hc (index mod 256)).
  assert (Hin : In (index mod 256) (JS.upto 256)).
  { unfold JS.upto. apply in_map_iff.
    exists (Z.to_nat (index mod 256)). split; [lia|].
    apply in_seq. lia. }
  specialize (Hc Hin).
  apply andb_prop in Hc as [H0 H255].
  apply negb_true_iff in H0, H255.
  apply Z.eqb_neq in H0, H255. auto.
Qed.

(** A 32-byte value whose byte 7 is neither 0 nor 255 is a valid key. *)
Lemma candidate_range l1 b l2 :
  bytes l1 -> bytes l2 -> length l1 = 7%nat -> length l2 = 24%nat ->
  is_byte b -> b <> 0 -> b <> 255 ->
  0 < bytesToBigInt (l1 ++ b :: l2) < maxKey.
Proof.
  intros B1 B2 L1 L2 Hb H0 H255.
  rewrite bytesToBigInt_app, bytesToBigInt_cons.
  apply bytesToBigInt_bound in B1, B2.
  simpl length. rewrite L1 in B1. rewrite L2 in *.
  change (256 ^ Z.of_nat 7) with 72057594037927936 in B1.
  change (256 ^ Z.of_nat 24) with 6277101735386680763835789423207666416102355444464034512896 in *.
  change (256 ^ Z.of_nat 25) with 1606938044258990275541962092341162602522202993782792835301376.
  unfold is_byte in Hb. unfold maxKey. lia.
Qed.

Lemma candidate_valid index :
  0 <= index ->
  0 < bytesToBigInt (map (mixByte index) (JS.upto 32)) < maxKey.
Proof.
  intros Hi.
  change (JS.upto 32)
    with (JS.upto 7 ++ 7 :: map Z.of_nat (seq 8 24)).
  rewrite map_app. cbn [map].
  destruct (mixByte_7_mid index Hi) as [H0 H255].
  apply candidate_range;
    auto using bytes_map_mixByte, mixByte_is_byte;
    rewrite length_map; reflexivity.
Qed.

Lemma ensureValid_loop_S fuel k attempts index :
  ensureValid_loop (S fuel) k attempts index
  = if ((maxKey <=? k) || (k =? 0)) && (attempts <? 10)
    then ensureValid_loop fuel
           (if Z.rem (Z.lxor k (index + attempts * 1337)) maxKey =? 0
            then index + 1
            else Z.rem (Z.lxor k (index + attempts * 1337)) maxKey)
           (attempts + 1) index
    else (k, attempts).
Proof. reflexivity. Qed.

(** A valid key leaves the loop of [ensureValidPrivateKeySync] at once. *)
Lemma ensureValid_loop_valid fuel k attempts index :
  0 < k < maxKey -> ensureValid_loop fuel k attempts index = (k, attempts).
Proof.
  intros Hk. destruct fuel; [reflexivity|].
  cbn [ensureValid_loop].
  replace (maxKey <=? k) with false by (symmetry; apply Z.leb_gt; lia).
  replace (k =? 0) with false by (symmetry; apply Z.eqb_neq; lia).
  reflexivity.
Qed.

Lemma ensureValid_valid seed index :
  0 < bytesToBigInt seed < maxKey ->
  ensureValidPrivateKeySync seed index = bigIntToBytes (bytesToBigInt seed).
Proof.
  intros Hk. unfold ensureValidPrivateKeySync.
  rewrite ensureValid_loop_valid by exact Hk. reflexivity.
Qed.

(** For a non-negative index the candidate is a valid key as it is: the
    correction loop is not entered. *)
Lemma scalar_is_candidate index :
  0 <= index ->
  bytesToBigInt (generateFixedPrivateKeyFromIndex index)
  = bytesToBigInt (map (mixByte index) (JS.upto 32)).
Proof.
  intros Hi. unfold generateFixedPrivateKeyFromIndex.
  pose proof (candidate_valid index Hi) as Hc.
  rewrite ensureValid_valid by exact Hc.
  rewrite bytesToBigInt_bigIntToBytes.
  apply Z.mod_small. unfold maxKey in Hc. lia.
Qed.

(** C1. For every index in [0, 10^6] the scalar of
    [generateFixedPrivateKeyFromIndex], read as a big-endian unsigned
    integer, is strictly between 0 and the secp256k1 group order. *)
Theorem scalar_in_range index :
  0 <= index <= 10 ^ 6 ->
  0 < bytesToBigInt (generateFixedPrivateKeyFromIndex index) < secp256k1Order.
Proof.
  intros [Hi _]. rewrite scalar_is_candidate by exact Hi.
  pose proof (candidate_valid index Hi) as Hc.
  rewrite maxKey_order in Hc. lia.
Qed.

Lemma scalar_in_range_witness :
  0 < bytesToBigInt (generateFixedPrivateKeyFromIndex 1000000) < secp256k1Order.
Proof. apply (scalar_in_range 1000000). lia. Defined.

End KeyDerivation.

Section Correction.
Import BitcoinCrypto BitcoinKeyGenerator.

(** The loop of the source, counting [attempts] up, against the words of
    the specification, counting the attempts left down. *)
Lemma ensureValid_loop_spec index fuel k :
  0 <= index -> 0 <= k -> (fuel <= 10)%nat ->
  fst (ensureValid_loop fuel k (10 - Z.of_nat fuel) index)
  = spec_correct maxKey index fuel k.
Proof.
  intros Hi. revert k. induction fuel as [|fuel IH]; intros k Hk Hf.
  - cbn [ensureValid_loop spec_correct fst].
    destruct ((0 <? k) && (k <? maxKey)); reflexivity.
  - cbn [ensureValid_loop spec_correct].
    replace (10 - Z.of_nat (S fuel) <? 10) with true
      by (symmetry; apply Z.ltb_lt; lia).
    rewrite andb_true_r.
    destruct (Z.ltb_spec 0 k) as [Hpos|Hzero];
      destruct (Z.ltb_spec k maxKey) as [Hlt|Hge]; cbn [andb].
    + replace (maxKey <=? k) with false by (symmetry; apply Z.leb_gt; lia).
      replace (k =? 0) with false by (symmetry; apply Z.eqb_neq; lia).
      reflexivity.
    + replace (maxKey <=? k) with true by (symmetry; apply Z.leb_le; lia).
      cbn [orb].
      set (x := Z.lxor k (index + (10 - Z.of_nat (S fuel)) * 1337)).
      assert (Hx : 0 <= x) by (apply Z.lxor_nonneg; lia).
      rewrite Z.rem_mod_nonneg by (unfold maxKey; lia).
      replace (10 - Z.of_nat (S fuel) + 1) with (10 - Z.of_nat fuel) by lia.
      apply IH; [|lia].
      pose proof (Z.mod_pos_bound x maxKey ltac:(unfold maxKey; lia)).
      destruct (x mod maxKey =? 0); lia.
    + replace (k =? 0) with true by (symmetry; apply Z.eqb_eq; lia).
      rewrite orb_true_r.
      set (x := Z.lxor k (index + (10 - Z.of_nat (S fuel)) * 1337)).
      assert (Hx : 0 <= x) by (apply Z.lxor_nonneg; lia).
      rewrite Z.rem_mod_nonneg by (unfold maxKey; lia).
      replace (10 - Z.of_nat (S fuel) + 1) with (10 - Z.of_nat fuel) by lia.
      apply IH; [|lia].
      pose proof (Z.mod_pos_bound x maxKey ltac:(unfold maxKey; lia)).
      destruct (x mod maxKey =? 0); lia.
    + unfold maxKey in Hge. lia.
Qed.

(** With ten iterations the loop of the model has left its [while]: the
    condition is false in the state it returns. *)
Lemma ensureValid_loop_exits index k fuel attempts :
  attempts = 10 - Z.of_nat fuel ->
  let '(k', attempts') := ensureValid_loop fuel k attempts index in
  ((maxKey <=? k') || (k' =? 0)) && (attempts' <? 10) = false.
Proof.
  revert k attempts. induction fuel as [|fuel IH]; intros k attempts Ha.
  - cbn [ensureValid_loop]. subst attempts.
    rewrite andb_false_r. reflexivity.
  - cbn [ensureValid_loop].
    destruct (((maxKey <=? k) || (k =? 0)) && (attempts <? 10)) eqn:Hc.
    + apply IH. lia.
    + exact Hc.
Qed.






(** Off these seeds the source and the words of the specification part:
    the source compares with and reduces by its own constant [maxKey],
    the group order minus one. No index has such a candidate, and
    [ensureValidPrivateKeySync] is only called on candidates. With
    [maxKey] for the modulus the two agree on every seed. *)
Lemma correction_modulo_maxKey seed index :
  bytes seed -> 0 <= index -> index + 10 * 1337 < 2 ^ 53 ->
  ensureValidPrivateKeySync seed index
  = bigIntToBytes
      (spec_correct (secp256k1Order - 1) index 10 (bytesToBigInt seed)).
Proof.
  intros Hs Hi _. unfold ensureValidPrivateKeySync.
  pose proof (ensureValid_loop_spec index 10 (bytesToBigInt seed) Hi) as H.
  change (10 - Z.of_nat 10) with 0 in H.
  destruct (ensureValid_loop 10 (bytesToBigInt seed) 0 index) as [k a].
  cbn [fst] in H. rewrite H, maxKey_order; [reflexivity| |lia].
  apply bytesToBigInt_bound in Hs. lia.
Qed.

(** The candidate [N - 1] is in [(0, N)], and the loop of the source is
    applied to it (it returns the key 1); on the 32 bytes 0xff the
    source reduces modulo [N - 1], not modulo [N]. *)
Example correction_off_candidates :
  (0 < bytesToBigInt seed_orderMinusOne < secp256k1Order
   /\ ensureValidPrivateKeySync seed_orderMinusOne 0 = bigIntToBytes 1
   /\ bigIntToBytes (spec_correct secp256k1Order 0 10
                                  (bytesToBigInt seed_orderMinusOne))
      = seed_orderMinusOne
   /\ ensureValidPrivateKeySync seed_orderMinusOne 0 <> seed_orderMinusOne)
  /\ ensureValidPrivateKeySync seed_allOnes 0
     <> bigIntToBytes (spec_correct secp256k1Order 0 10
                                    (bytesToBigInt seed_allOnes)).
Proof.
  repeat split; try (vm_compute; congruence).
Qed.

(** C9 (amended). [bigIntToBytes] has the fixed width 32 and never
    fails: for every value it returns the 32-byte big-endian encoding of
    the value modulo 2^256, which is the zero-padded encoding of the
    value itself when it fits in 32 bytes. *)
Theorem bigIntToBytes_truncates value :
  length (bigIntToBytes value) = 32%nat
  /\ bytesToBigInt (bigIntToBytes value) = value mod 2 ^ 256
  /\ spec_uintToBytes (value mod 2 ^ 256) 32 = Some (bigIntToBytes value).
Proof.
  split; [apply bigIntToBytes_length|].
  split; [apply bytesToBigInt_bigIntToBytes|].
  unfold spec_uintToBytes.
  pose proof (Z.mod_pos_bound value (2 ^ 256) ltac:(lia)) as Hm.
  change (256 ^ Z.of_nat 32) with (2 ^ 256).
  replace (0 <=? value mod 2 ^ 256) with true by (symmetry; apply Z.leb_le; lia).
  replace (value mod 2 ^ 256 <? 2 ^ 256) with true
    by (symmetry; apply Z.ltb_lt; lia).
  cbn [andb]. f_equal.
  change (2 ^ 256) with (256 ^ Z.of_nat 32).
  rewrite spec_littleEndian_mod.
  unfold bigIntToBytes. rewrite bigIntToBytes_loop_spec, app_nil_r.
  reflexivity.
Qed.

(** C9, as stated, fails: 2^256 does not fit in 32 bytes, and
    [bigIntToBytes] returns 32 zero bytes for it. *)
Lemma bigIntToBytes_no_overflow_error :
  spec_uintToBytes (2 ^ 256) 32 = None
  /\ bigIntToBytes (2 ^ 256) = repeat 0 32.
Proof. split; vm_compute; reflexivity. Qed.

End Correction.

(** ** Base58 *)

Section Base58Facts.
Import Base58.

Lemma append_cons c (s1 s2 : string) :
  String c s1 +:+ s2 = String c (s1 +:+ s2).
Proof. reflexivity. Qed.

Lemma append_nil_l (s : string) : "" +:+ s = s.
Proof. reflexivity. Qed.

Lemma append_assoc (s1 s2 s3 : string) :
  (s1 +:+ s2) +:+ s3 = s1 +:+ (s2 +:+ s3).
Proof.
  induction s1 as [|c s1 IH]; [reflexivity|].
  rewrite !append_cons. f_equal. exact IH.
Qed.

Lemma append_nil_r (s : string) : s +:+ "" = s.
Proof.
  induction s as [|c s IH]; [reflexivity|].
  rewrite append_cons. f_equal. exact IH.
Qed.

Lemma length_append (s1 s2 : string) :
  String.length (s1 +:+ s2) = (String.length s1 + String.length s2)%nat.
Proof.
  induction s1 as [|c s1 IH]; [reflexivity|].
  rewrite append_cons. cbn [String.length]. rewrite IH. reflexivity.
Qed.

Lemma bytesToNum_bytesToBigInt l :
  bytesToNum l = BitcoinCrypto.bytesToBigInt l.
Proof.
  unfold bytesToNum, BitcoinCrypto.bytesToBigInt.
  generalize 0. induction l as [|x l IH]; intros a; simpl; [reflexivity|].
  rewrite IH. f_equal. rewrite Z.shiftl_mul_pow2 by lia. reflexivity.
Qed.

(** The alphabet has 58 distinct characters, and ['1'] is digit 0. *)
Lemma alphabet_check :
  forallb
    (fun r =>
       match String.get (Z.to_nat r) BASE58_ALPHABET with
       | Some c => (JS.indexOf c BASE58_ALPHABET =? r)
                   && ((r =? 0) || negb (Ascii.eqb c "1"))
       | None => false
       end)
    (JS.upto 58) = true.
Proof. vm_compute. reflexivity. Qed.

Lemma alphabet_digit r :
  0 <= r < 58 ->
  exists c, JS.strAt BASE58_ALPHABET r = String c EmptyString
            /\ JS.indexOf c BASE58_ALPHABET = r
            /\ (r <> 0 -> c <> "1"%char).
Proof.
  intros Hr. pose proof alphabet_check as Hc.
  rewrite forallb_forall in Hc. specialize (Hc r).
  assert (Hin : In r (JS.upto 58)).
  { unfold JS.upto. apply in_map_iff. exists (Z.to_nat r).
    split; [lia|]. apply in_seq. lia. }
  specialize (Hc Hin). unfold JS.strAt.
  replace (r <? 0) with false by (symmetry; apply Z.ltb_ge; lia).
  destruct (String.get (Z.to_nat r) BASE58_ALPHABET) as [c|]; [|discriminate].
  apply andb_prop in Hc as [Hidx Hone].
  exists c. split; [reflexivity|]. split; [apply Z.eqb_eq, Hidx|].
  intros Hr0. apply orb_prop in Hone as [Hz|Hn].
  - apply Z.eqb_eq in Hz. contradiction.
  - apply negb_true_iff in Hn. intros ->. rewrite Ascii.eqb_refl in Hn.
    discriminate.
Qed.

Lemma decode_num_digit c r rest a :
  JS.indexOf c BASE58_ALPHABET = r -> 0 <= r ->
  decode_num (String c rest) a = decode_num rest (a * 58 + r).
Proof.
  intros Hidx Hr. cbn [decode_num]. rewrite Hidx.
  replace (r =? -1) with false by (symmetry; apply Z.eqb_neq; lia).
  reflexivity.
Qed.

(** The digits [encode_loop] puts in front of [s], with enough fuel:
    they denote [num] in base 58 and do not start with the digit 0. *)
Lemma encode_loop_digits fuel : forall num s,
  0 <= num < 2 ^ Z.of_nat fuel ->
  exists D,
    encode_loop fuel num s = D +:+ s
    /\ (forall rest a,
          decode_num (D +:+ rest) a
          = decode_num rest (a * 58 ^ Z.of_nat (String.length D) + num))
    /\ (num = 0 -> D = EmptyString)
    /\ noLeadingOne D.
Proof.
  induction fuel as [|fuel IH]; intros num s Hn.
  - assert (num = 0) by (change (2 ^ Z.of_nat 0) with 1 in Hn; lia). subst num.
    exists EmptyString. cbn. repeat split; auto. intros. f_equal. lia.
  - cbn [encode_loop]. destruct (Z.ltb_spec 0 num) as [Hpos|Hzero].
    + rewrite Z.rem_mod_nonneg, Z.quot_div_nonneg by lia.
      assert (Hr : 0 <= num mod 58 < 58) by (apply Z.mod_pos_bound; lia).
      destruct (alphabet_digit _ Hr) as (c & Hc & Hidx & Hone).
      rewrite Hc, append_cons, append_nil_l.
      assert (Hq : 0 <= num / 58 < 2 ^ Z.of_nat fuel).
      { split; [apply Z.div_pos; lia|].
        apply Z.div_lt_upper_bound; [lia|].
        replace (Z.of_nat (S fuel)) with (1 + Z.of_nat fuel) in Hn by lia.
        rewrite Z.pow_add_r in Hn by lia. lia. }
      destruct (IH (num / 58) (String c s) Hq) as (D & HD & Hval & Hnil & Hlead).
      exists (D +:+ String c EmptyString).
      rewrite append_assoc, append_cons, append_nil_l. split; [exact HD|].
      split; [|split].
      * intros rest a. rewrite append_assoc, append_cons, append_nil_l.
        rewrite Hval, (decode_num_digit c (num mod 58)) by (auto; lia).
        f_equal. rewrite length_append. cbn [String.length].
        replace (Z.of_nat (String.length D + 1)) with (Z.of_nat (String.length D) + 1) by lia.
        rewrite Z.pow_add_r by lia.
        pose proof (Z.div_mod num 58 ltac:(lia)). lia.
      * intros ->. lia.
      * destruct D as [|d D']; rewrite ?append_cons, ?append_nil_l;
          cbn [noLeadingOne] in *.
        -- apply Hone. destruct (Z.eq_dec (num / 58) 0) as [Hq0|Hq0].
           ++ rewrite Z.mod_small; [lia|].
              apply Z.div_small_iff in Hq0; lia.
           ++ specialize (Hval EmptyString 0). cbn in Hval.
              injection Hval as Hval. lia.
        -- exact Hlead.
    + assert (num = 0) by lia. subst num.
      exists EmptyString. cbn. repeat split; auto. intros. f_equal. lia.
Qed.

Lemma steps_enough num : 0 <= num -> 0 <= num < 2 ^ Z.of_nat (steps num).
Proof.
  intros Hn. split; [exact Hn|]. unfold steps.
  destruct (Z.eq_dec num 0) as [->|Hne].
  - reflexivity.
  - pose proof (Z.log2_spec num ltac:(lia)) as [_ Hlt].
    pose proof (Z.log2_nonneg num).
    replace (Z.of_nat (S (Z.to_nat (Z.log2 num)))) with (Z.succ (Z.log2 num)) by lia.
    exact Hlt.
Qed.

End Base58Facts.

Section Base58RoundTrip.
Import Base58.

Lemma bytesToNum_snoc l x : bytesToNum (l ++ [x]) = bytesToNum l * 256 + x.
Proof. unfold bytesToNum. rewrite fold_left_app. reflexivity. Qed.

Lemma bytesToNum_nonneg l : bytes l -> 0 <= bytesToNum l.
Proof.
  intros Hb. rewrite bytesToNum_bytesToBigInt.
  apply bytesToBigInt_bound in Hb. lia.
Qed.

Lemma bytesToNum_lower x l :
  bytes (x :: l) -> x <> 0 -> 256 ^ Z.of_nat (length l) <= bytesToNum (x :: l).
Proof.
  intros Hb Hx. rewrite bytesToNum_bytesToBigInt, bytesToBigInt_cons.
  inversion Hb as [|? ? Hbx Hbl]; subst.
  apply bytesToBigInt_bound in Hbl. unfold is_byte in Hbx.
  assert (0 < 256 ^ Z.of_nat (length l)) by (apply Z.pow_pos_nonneg; lia).
  nia.
Qed.

Lemma bytesToNum_zeros k r : bytesToNum (repeat 0 k ++ r) = bytesToNum r.
Proof.
  induction k as [|k IH]; [reflexivity|].
  cbn [repeat app]. unfold bytesToNum in *. cbn [fold_left]. exact IH.
Qed.

Lemma canonical_pos r : bytes r -> canonical r -> r <> [] -> 0 < bytesToNum r.
Proof.
  destruct r as [|x l]; [congruence|]. intros Hb Hc _.
  pose proof (bytesToNum_lower x l Hb Hc).
  assert (0 < 256 ^ Z.of_nat (length l)) by (apply Z.pow_pos_nonneg; lia).
  lia.
Qed.

Lemma canonical_snoc r x : canonical (r ++ [x]) -> canonical r.
Proof. destruct r; simpl; auto. Qed.

(** The bytes [decode_loop] puts in front of [acc], with enough fuel *)
Lemma decode_loop_bytes r : forall fuel acc,
  bytes r -> canonical r -> (length r <= fuel)%nat ->
  decode_loop fuel (bytesToNum r) acc = r ++ acc.
Proof.
  induction r as [|x r IH] using rev_ind; intros fuel acc Hb Hc Hlen.
  - destruct fuel; reflexivity.
  - rewrite length_app in Hlen. cbn [length] in Hlen.
    destruct fuel as [|fuel]; [lia|].
    assert (Hpos : 0 < bytesToNum (r ++ [x])).
    { apply canonical_pos; auto. destruct r; discriminate. }
    apply Forall_app in Hb as [Hbr Hbx].
    inversion Hbx as [|? ? Hx _]; subst. unfold is_byte in Hx.
    pose proof (bytesToNum_nonneg r Hbr) as Hr.
    cbn [decode_loop].
    replace (0 <? bytesToNum (r ++ [x])) with true
      by (symmetry; apply Z.ltb_lt; exact Hpos).
    rewrite bytesToNum_snoc in *.
    rewrite Z.rem_mod_nonneg, Z.quot_div_nonneg by lia.
    replace ((bytesToNum r * 256 + x) mod 256) with x
      by (rewrite Z.add_comm, Z.mod_add by lia; symmetry; apply Z.mod_small; lia).
    replace ((bytesToNum r * 256 + x) / 256) with (bytesToNum r)
      by (rewrite Z.add_comm, Z.div_add by lia;
          rewrite (Z.div_small x) by lia; lia).
    rewrite IH; [now rewrite <- app_assoc|exact Hbr| |lia].
    apply (canonical_snoc r x). exact Hc.
Qed.

Lemma steps_length r :
  bytes r -> canonical r -> (length r <= steps (bytesToNum r))%nat.
Proof.
  destruct r as [|x l]; intros Hb Hc; [cbn; lia|].
  pose proof (bytesToNum_lower x l Hb Hc) as Hlow.
  assert (Hlog : 8 * Z.of_nat (length l) <= Z.log2 (bytesToNum (x :: l))).
  { replace (256 ^ Z.of_nat (length l)) with (2 ^ (8 * Z.of_nat (length l))) in Hlow
      by (rewrite Z.pow_mul_r by lia; reflexivity).
    apply Z.log2_le_mono in Hlow. rewrite Z.log2_pow2 in Hlow by lia.
    exact Hlow. }
  unfold steps. cbn [length]. lia.
Qed.

Lemma ones_snoc k s : ones k +:+ String "1" s = String "1" (ones k +:+ s).
Proof.
  induction k as [|k IH]; [reflexivity|].
  cbn [ones]. rewrite !append_cons, IH. reflexivity.
Qed.

Lemma encode_leading_zeros k : forall r D,
  canonical r -> encode_leading (repeat 0 k ++ r) D = ones k +:+ D.
Proof.
  induction k as [|k IH]; intros r D Hc.
  - cbn [repeat app ones]. rewrite append_nil_l.
    destruct r as [|x l]; [reflexivity|]. cbn [encode_leading].
    cbn in Hc. apply Z.eqb_neq in Hc. rewrite Hc. reflexivity.
  - cbn [repeat app encode_leading]. change (0 =? 0) with true. cbv iota.
    rewrite IH by exact Hc.
    rewrite append_cons, append_nil_l, ones_snoc. reflexivity.
Qed.

Lemma decode_num_ones k : forall s, decode_num (ones k +:+ s) 0 = decode_num s 0.
Proof.
  induction k as [|k IH]; intros s; [reflexivity|].
  cbn [ones]. rewrite append_cons.
  rewrite (decode_num_digit "1" 0) by (reflexivity || lia).
  apply IH.
Qed.

Lemma decode_leading_ones k : forall D acc,
  noLeadingOne D -> decode_leading (ones k +:+ D) acc = repeat 0 k ++ acc.
Proof.
  induction k as [|k IH]; intros D acc HD.
  - cbn [ones repeat app]. rewrite append_nil_l.
    destruct D as [|c D']; [reflexivity|]. cbn [decode_leading].
    cbn in HD. apply Ascii.eqb_neq in HD. rewrite HD. reflexivity.
  - cbn [ones]. rewrite append_cons. cbn [decode_leading].
    rewrite Ascii.eqb_refl, IH by exact HD.
    cbn [repeat]. rewrite repeat_cons, <- app_assoc. reflexivity.
Qed.

Lemma leadingZeros_split b :
  exists r, b = repeat 0 (leadingZeros b) ++ r /\ canonical r.
Proof.
  induction b as [|x b (r & Hr & Hc)].
  - exists []. split; [reflexivity|exact I].
  - cbn [leadingZeros]. destruct (Z.eqb_spec x 0) as [->|Hx].
    + exists r. split; [|exact Hc]. cbn [repeat app]. f_equal. exact Hr.
    + exists (x :: b). split; [reflexivity|exact Hx].
Qed.

(** What [encode] returns: one ['1'] per leading zero byte, then the
    base-58 digits of the number *)
Lemma encode_shape b :
  bytes b ->
  exists D,
    encode b = ones (leadingZeros b) +:+ D
    /\ noLeadingOne D
    /\ (forall a, decode_num D a
                  = Ok (a * 58 ^ Z.of_nat (String.length D) + bytesToNum b))
    /\ (bytesToNum b = 0 -> D = EmptyString).
Proof.
  intros Hb. destruct b as [|x b'].
  - exists EmptyString. cbn. repeat split; auto. intros. f_equal. lia.
  - set (b := x :: b') in *. unfold encode.
    change (length b =? 0)%nat with false. cbv iota.
    destruct (leadingZeros_split b) as (r & Hr & Hc).
    destruct (encode_loop_digits (steps (bytesToNum b)) (bytesToNum b) ""
                (steps_enough _ (bytesToNum_nonneg b Hb)))
      as (D & HD & Hval & Hnil & Hlead).
    rewrite HD, append_nil_r.
    exists D. rewrite Hr at 1. rewrite encode_leading_zeros by exact Hc.
    repeat split; auto.
    intros a. specialize (Hval EmptyString a).
    rewrite append_nil_r in Hval. exact Hval.
Qed.

Lemma decode_encode b : bytes b -> decode (encode b) = Ok b.
Proof.
  intros Hb.
  destruct (encode_shape b Hb) as (D & HE & Hlead & Hval & Hnil).
  destruct (leadingZeros_split b) as (r & Hr & Hc).
  set (k := leadingZeros b) in *.
  assert (Hbr : bytes r).
  { rewrite Hr in Hb. apply Forall_app in Hb. tauto. }
  assert (Hnum : bytesToNum b = bytesToNum r)
    by (rewrite Hr at 1; apply bytesToNum_zeros).
  rewrite HE. unfold decode.
  destruct (String.length (ones k +:+ D) =? 0)%nat eqn:Hlen.
  - apply Nat.eqb_eq in Hlen. rewrite length_append in Hlen.
    destruct k; [|cbn in Hlen; lia].
    destruct D; [|cbn in Hlen; lia].
    specialize (Hval 0). cbn in Hval. injection Hval as Hval.
    destruct r as [|y r'].
    + rewrite Hr. reflexivity.
    + pose proof (canonical_pos (y :: r') Hbr Hc ltac:(discriminate)). lia.
  - rewrite decode_num_ones, Hval. cbn [mbind JsResult_bind].
    rewrite Z.mul_0_l, Z.add_0_l.
    rewrite decode_leading_ones by exact Hlead.
    rewrite Hnum, decode_loop_bytes, app_nil_r, <- Hr
      by auto using steps_length.
    rewrite map_u8_bytes by exact Hb. reflexivity.
Qed.

(** C4. For every byte sequence [b] of length 0 to 64,
    [decode (encode b)] is [b]; the encoding starts with one ['1'] per
    leading zero byte of [b], followed by digits that do not start with
    ['1'], and decoding gives the zero bytes back. *)
Theorem base58_roundtrip b :
  bytes b -> (length b <= 64)%nat ->
  decode (encode b) = Ok b
  /\ exists D, encode b = ones (leadingZeros b) +:+ D /\ noLeadingOne D.
Proof.
  intros Hb _. split; [apply decode_encode, Hb|].
  destruct (encode_shape b Hb) as (D & HE & Hlead & _).
  exists D. auto.
Qed.

Lemma base58_roundtrip_witness :
  decode (encode [0; 0; 5]) = Ok [0; 0; 5]
  /\ exists D, encode [0; 0; 5] = ones (leadingZeros [0; 0; 5]) +:+ D
               /\ noLeadingOne D.
Proof.
  apply (base58_roundtrip [0; 0; 5]).
  - repeat constructor; unfold is_byte; lia.
  - simpl. lia.
Defined.

Example base58_leading_zeros : encode [0; 0; 5] = "116".
Proof. vm_compute. reflexivity. Qed.

End Base58RoundTrip.

(** ** Address derivation *)

Section AddressDerivation.
Import BitcoinCrypto BitcoinKeyGenerator.
Variable sha256 : list Z -> list Z.

Lemma upto_length n : length (JS.upto n) = n.
Proof. unfold JS.upto. now rewrite length_map, length_seq. Qed.

Lemma ripemd160_length data : length (ripemd160 sha256 data) = 20%nat.
Proof. unfold ripemd160. now rewrite length_map, upto_length. Qed.

Lemma ripemd160_bytes data : bytes (ripemd160 sha256 data).
Proof.
  unfold ripemd160. apply Forall_map, Forall_forall.
  intros i _. apply u8_is_byte.
Qed.

(** Writing a source of the right length after a prefix of a zeroed
    array: [target.set(src, offset)] *)
Lemma set_fill (pre src : list Z) (n offset : nat) :
  bytes src -> length src = n -> offset = length pre ->
  JS.set (pre ++ JS.zeros n) src offset = Ok (pre ++ src).
Proof.
  intros Hb Hn ->. unfold JS.set, JS.zeros.
  rewrite length_app, repeat_length, Hn, Nat.leb_refl.
  rewrite firstn_app, firstn_all, Nat.sub_diag, firstn_0, app_nil_r.
  rewrite skipn_all2 by (rewrite length_app, repeat_length; lia).
  rewrite app_nil_r, map_u8_bytes by exact Hb. reflexivity.
Qed.

Lemma set_in_range target src offset :
  (offset + length src <= length target)%nat ->
  exists t, JS.set target src offset = Ok t /\ length t = length target.
Proof.
  intros Hle. unfold JS.set.
  replace (offset + length src <=? length target)%nat with true
    by (symmetry; apply Nat.leb_le; exact Hle).
  eexists. split; [reflexivity|].
  rewrite !length_app, length_map, length_firstn, length_skipn. lia.
Qed.

(** [encodeCheck] does not throw: the two [set] calls are in range. *)
Lemma encodeCheck_ok data :
  exists s, Base58.encodeCheck sha256 data = Ok s.
Proof.
  unfold Base58.encodeCheck.
  set (checksum := firstn 4 (doubleSha256 sha256 data)).
  assert (Hc : (length checksum <= 4)%nat) by apply firstn_le_length.
  destruct (set_in_range (JS.zeros (length data + 4)) data 0)
    as (t1 & H1 & L1).
  { unfold JS.zeros. rewrite repeat_length. lia. }
  rewrite H1. cbn [mbind JsResult_bind].
  destruct (set_in_range t1 checksum (length data)) as (t2 & H2 & L2).
  { rewrite L1. unfold JS.zeros. rewrite repeat_length. lia. }
  rewrite H2. cbn [mbind JsResult_bind]. eexists. reflexivity.
Qed.

Lemma sar_byte v : is_byte v -> JS.sar v 8 = 0.
Proof.
  unfold is_byte, JS.sar, JS.toInt32. intros Hv.
  change (8 mod 32) with 8.
  replace ((v + 2 ^ 31) mod 2 ^ 32 - 2 ^ 31) with v
    by (rewrite Z.mod_small; lia).
  rewrite Z.shiftr_div_pow2 by lia. apply Z.div_small. lia.
Qed.

(** On bytes the loop of [convertBits] never takes its [return null]. *)
Lemma convertBits_loop_bytes data : forall toBits maxv acc bits result,
  bytes data ->
  exists r, Bech32.convertBits_loop data 8 toBits maxv acc bits result = Some r.
Proof.
  induction data as [|v data IH]; intros toBits maxv acc bits result Hb.
  - eexists. reflexivity.
  - inversion Hb as [|? ? Hv Hd]; subst.
    cbn [Bech32.convertBits_loop].
    rewrite (sar_byte v Hv).
    replace (v <? 0) with false
      by (symmetry; apply Z.ltb_ge; unfold is_byte in Hv; lia).
    cbn [orb negb Z.eqb].
    destruct (Bech32.convertBits_drain _ _ _ _ _ _) as [bits' result'].
    apply IH. exact Hd.
Qed.

(** The inner [while] of [convertBits] has left its loop when the model
    returns: the fuel [bits] is enough for [toBits >= 1]. *)
Lemma convertBits_drain_exits fuel : forall acc bits toBits maxv result,
  1 <= toBits -> 0 <= bits -> (Z.to_nat bits <= fuel)%nat ->
  fst (Bech32.convertBits_drain fuel acc bits toBits maxv result) < toBits.
Proof.
  induction fuel as [|fuel IH]; intros acc bits toBits maxv result Ht Hb Hf.
  - cbn. lia.
  - cbn [Bech32.convertBits_drain].
    destruct (Z.leb_spec toBits bits) as [Hle|Hlt]; [|cbn; lia].
    apply IH; lia.
Qed.

Lemma convertBits_bytes data :
  bytes data -> exists converted, Bech32.convertBits data 8 5 true = Some converted.
Proof.
  intros Hb. unfold Bech32.convertBits.
  destruct (convertBits_loop_bytes data 5 (JS.shl 1 5 - 1) 0 0 [] Hb)
    as [[[acc bits] result] Hr].
  rewrite Hr. destruct (bits =? 0); eexists; reflexivity.
Qed.

(** The three [set] calls of [deriveAddresses] build the payloads
    [[0x00] ++ pubKeyHash], [[0x00; 0x14] ++ pubKeyHash] and
    [[0x05] ++ scriptHash]. *)
Lemma deriveAddresses_payloads publicKey :
  let pubKeyHash := ripemd160 sha256 (sha256 publicKey) in
  let scriptHash := ripemd160 sha256 (sha256 ([0x00; 0x14] ++ pubKeyHash)) in
  deriveAddresses sha256 publicKey
  = (legacy ← Base58.encodeCheck sha256 ([0x00] ++ pubKeyHash);
     segwit ← Base58.encodeCheck sha256 ([0x05] ++ scriptHash);
     match Bech32.convertBits pubKeyHash 8 5 true with
     | None => Throw "Failed to convert witness program"
     | Some converted =>
         Ok (mkAddresses legacy segwit
                         (Bech32.encode "bc" ([0] ++ converted)))
     end).
Proof.
  intros pubKeyHash scriptHash. unfold deriveAddresses.
  fold pubKeyHash.
  assert (Hpl : length pubKeyHash = 20%nat) by apply ripemd160_length.
  assert (Hpb : bytes pubKeyHash) by apply ripemd160_bytes.
  change (JS.store (JS.zeros 21) 0 0) with ([0] ++ JS.zeros 20).
  rewrite (set_fill [0] pubKeyHash 20 1 Hpb Hpl eq_refl).
  cbn [mbind JsResult_bind].
  destruct (Base58.encodeCheck sha256 ([0] ++ pubKeyHash)) as [l|m];
    [|reflexivity].
  change (JS.store (JS.store (JS.zeros 22) 0 0) 1 20)
    with ([0; 20] ++ JS.zeros 20).
  rewrite (set_fill [0; 20] pubKeyHash 20 2 Hpb Hpl eq_refl).
  cbn [mbind JsResult_bind]. fold scriptHash.
  change (JS.store (JS.zeros 21) 0 5) with ([5] ++ JS.zeros 20).
  rewrite (set_fill [5] scriptHash 20 1 (ripemd160_bytes _)
                    (ripemd160_length _) eq_refl).
  reflexivity.
Qed.

Lemma deriveAddresses_total publicKey :
  exists a, deriveAddresses sha256 publicKey = Ok a.
Proof.
  rewrite deriveAddresses_payloads.
  destruct (encodeCheck_ok ([0] ++ ripemd160 sha256 (sha256 publicKey)))
    as [l ->].
  cbn [mbind JsResult_bind].
  match goal with
  | |- context [Base58.encodeCheck sha256 ?p] =>
      destruct (encodeCheck_ok p) as [s ->]
  end.
  cbn [mbind JsResult_bind].
  destruct (convertBits_bytes _ (ripemd160_bytes (sha256 publicKey)))
    as [converted ->].
  eexists. reflexivity.
Qed.

(** C3. For a 33-byte public key, [deriveAddresses] returns three
    addresses computed from one [pubKeyHash]
    [= ripemd160 (sha256 publicKey)]: the legacy address is
    [encodeCheck ([0x00] ++ pubKeyHash)], the segwit address is
    [encodeCheck ([0x05] ++ ripemd160 (sha256 ([0x00; 0x14] ++ pubKeyHash)))]
    and the native segwit address is
    [Bech32.encode "bc" ([0] ++ convertBits pubKeyHash 8 5 true)]. *)
Theorem addresses_from_one_pubKeyHash publicKey :
  length publicKey = 33%nat ->
  let pubKeyHash := ripemd160 sha256 (sha256 publicKey) in
  let scriptHash := ripemd160 sha256 (sha256 ([0x00; 0x14] ++ pubKeyHash)) in
  exists a converted,
    deriveAddresses sha256 publicKey = Ok a
    /\ Base58.encodeCheck sha256 ([0x00] ++ pubKeyHash) = Ok (legacy a)
    /\ Base58.encodeCheck sha256 ([0x05] ++ scriptHash) = Ok (segwit a)
    /\ Bech32.convertBits pubKeyHash 8 5 true = Some converted
    /\ nativeSegwit a = Bech32.encode "bc" ([0] ++ converted).
Proof.
  intros _ pubKeyHash scriptHash.
  pose proof (deriveAddresses_payloads publicKey) as Hd.
  cbv zeta in Hd. fold pubKeyHash scriptHash in Hd.
  destruct (encodeCheck_ok ([0] ++ pubKeyHash)) as [l Hl].
  destruct (encodeCheck_ok ([5] ++ scriptHash)) as [s Hs].
  destruct (convertBits_bytes pubKeyHash (ripemd160_bytes _))
    as [converted Hc].
  rewrite Hl, Hs, Hc in Hd. cbn [mbind JsResult_bind] in Hd.
  exists (mkAddresses l s (Bech32.encode "bc" ([0] ++ converted))), converted.
  cbn [legacy segwit nativeSegwit]. auto.
Qed.

End AddressDerivation.

(** ** Records and materialization *)

Section Records.
Import BitcoinCrypto BitcoinKeyGenerator UseInfiniteKeys.
Variable sha256 : list Z -> list Z.
Variable now : Z.

Lemma append_inv_head (p s1 s2 : string) : p +:+ s1 = p +:+ s2 -> s1 = s2.
Proof.
  induction p as [|c p IH]; [auto|].
  rewrite !append_cons. intros H. injection H as H. auto.
Qed.

Lemma keyId_inj i j : keyId i = keyId j -> i = j.
Proof.
  unfold keyId, JS.numToString. intros H.
  apply append_inv_head in H. apply (inj pretty) in H. exact H.
Qed.

Lemma privateKeyToWIF_ok privateKey :
  (length privateKey <= 33)%nat ->
  exists wif, privateKeyToWIF sha256 privateKey = Ok wif.
Proof.
  intros Hlen. unfold privateKeyToWIF.
  destruct (set_in_range (JS.store (JS.zeros 34) 0 128) privateKey 1)
    as (t & Ht & _).
  { unfold JS.store. rewrite length_insert. unfold JS.zeros.
    rewrite repeat_length. lia. }
  rewrite Ht. cbn [mbind JsResult_bind]. apply encodeCheck_ok.
Qed.

Lemma generateKeyFromPrivateKey_ok privateKey n :
  (length privateKey <= 33)%nat ->
  exists key,
    generateKeyFromPrivateKey sha256 now privateKey n = Ok key
    /\ id key = keyId n
    /\ index key = (if n <? 1000000000000 then n else 0)
    /\ timestamp key = (if n <? 1000000000000 then now else n)
    /\ privateKeyHex key = bytesToHex privateKey
    /\ balances key = mkBalances None None None.
Proof.
  intros Hlen. unfold generateKeyFromPrivateKey.
  destruct (privateKeyToWIF_ok privateKey Hlen) as [wif Hw]. rewrite Hw.
  cbn [mbind JsResult_bind].
  destruct (deriveAddresses_total sha256 (getPublicKey privateKey))
    as (a & Ha). rewrite Ha.
  cbn [mbind JsResult_bind]. eexists. split; [reflexivity|].
  cbn. repeat split; reflexivity.
Qed.

(** C10. [generateKeyFromPrivateKey] reads its number as an index only
    below 10^12: then the record has that index and a fresh timestamp;
    from 10^12 on the record has index 0 and the number as timestamp.
    The id is ["key-"] followed by the number in both cases, and
    determines the number. The numbers are the safe integers, below
    2^53 in absolute value, which the template literal prints in
    full. *)
Theorem index_or_timestamp privateKey n :
  (length privateKey <= 33)%nat ->
  - 2 ^ 53 < n < 2 ^ 53 ->
  exists key,
    generateKeyFromPrivateKey sha256 now privateKey n = Ok key
    /\ id key = "key-" +:+ JS.numToString n
    /\ (n < 10 ^ 12 -> index key = n /\ timestamp key = now)
    /\ (10 ^ 12 <= n -> index key = 0 /\ timestamp key = n)
    /\ (forall m, - 2 ^ 53 < m < 2 ^ 53 ->
                  id key = "key-" +:+ JS.numToString m -> n = m).
Proof.
  intros Hlen Hsafe.
  destruct (generateKeyFromPrivateKey_ok privateKey n Hlen)
    as (key & Hk & Hid & Hidx & Hts & _).
  exists key. split; [exact Hk|]. split; [exact Hid|].
  change (10 ^ 12) with 1000000000000.
  split; [|split].
  - intros Hn. rewrite Hidx, Hts.
    replace (n <? 1000000000000) with true by (symmetry; apply Z.ltb_lt; lia).
    auto.
  - intros Hn. rewrite Hidx, Hts.
    replace (n <? 1000000000000) with false by (symmetry; apply Z.ltb_ge; lia).
    auto.
  - intros m _ Hm. rewrite Hid in Hm. apply keyId_inj. exact Hm.
Qed.

Lemma generateFixedPrivateKeyFromIndex_length i :
  length (generateFixedPrivateKeyFromIndex i) = 32%nat.
Proof.
  unfold generateFixedPrivateKeyFromIndex, ensureValidPrivateKeySync.
  destruct (ensureValid_loop _ _ _ _). apply bigIntToBytes_length.
Qed.

Lemma generateKeyAtIndex_ok i :
  exists key,
    generateKeyAtIndex sha256 now i = Ok key
    /\ id key = keyId i
    /\ index key = (if i <? 1000000000000 then i else 0).
Proof.
  unfold generateKeyAtIndex.
  destruct (generateKeyFromPrivateKey_ok
              (generateFixedPrivateKeyFromIndex i) i)
    as (key & Hk & Hid & Hidx & _).
  { rewrite generateFixedPrivateKeyFromIndex_length. lia. }
  eauto.
Qed.

(** The loop of [generateKeys] over indices none of which was emitted *)
Lemma generateKeys_loop_fresh start offsets : forall ids newKeys,
  NoDup offsets ->
  (forall i, In i offsets ->
             start + i < 1000000000000 /\ keyId (start + i) ∉ ids) ->
  exists ks,
    generateKeys_loop sha256 now start offsets ids newKeys
    = (newKeys ++ ks,
       list_to_set (map (fun i => keyId (start + i)) offsets) ∪ ids)
    /\ map id ks = map (fun i => keyId (start + i)) offsets
    /\ map index ks = map (fun i => start + i) offsets.
Proof.
  induction offsets as [|i rest IH]; intros ids newKeys Hnd Hfresh.
  - exists []. cbn [map list_to_set]. rewrite app_nil_r.
    rewrite (left_id_L ∅ (∪)). repeat split.
  - apply NoDup_cons in Hnd as [Hi Hnd].
    destruct (Hfresh i (or_introl eq_refl)) as [Hlt Hnew].
    cbn [generateKeys_loop]. fold (keyId (start + i)).
    rewrite bool_decide_eq_false_2 by exact Hnew.
    destruct (generateKeyAtIndex_ok (start + i)) as (key & Hk & Hid & Hidx).
    rewrite Hk.
    replace (start + i <? 1000000000000) with true in Hidx
      by (symmetry; apply Z.ltb_lt; lia).
    destruct (IH ({[id key]} ∪ ids) (newKeys ++ [key]) Hnd)
      as (ks & Hloop & Hids & Hidxs).
    { intros j Hj. destruct (Hfresh j (or_intror Hj)) as [Hjlt Hjnew].
      split; [exact Hjlt|]. rewrite Hid.
      apply not_elem_of_union. split; [|exact Hjnew].
      rewrite elem_of_singleton. intros Heq. apply keyId_inj in Heq.
      assert (j = i) by lia. subst j.
      apply Hi. apply list_elem_of_In. exact Hj. }
    exists (key :: ks). rewrite Hloop, <- app_assoc. cbn [app map].
    rewrite Hid, Hidx, Hids, Hidxs. repeat split.
    f_equal. cbn [list_to_set].
    rewrite (assoc_L (∪)), (comm_L (∪) (list_to_set _)). reflexivity.
Qed.

End Records.

Section Materialization.
Import UseInfiniteKeys.
Variable sha256 : list Z -> list Z.
Variable now : Z.

Lemma in_upto x n : In x (JS.upto n) <-> 0 <= x < Z.of_nat n.
Proof.
  unfold JS.upto. rewrite in_map_iff. split.
  - intros (k & <- & Hk). apply in_seq in Hk. lia.
  - intros Hx. exists (Z.to_nat x). split; [lia|]. apply in_seq. lia.
Qed.

Lemma NoDup_upto n : NoDup (JS.upto n).
Proof.
  unfold JS.upto. change (NoDup (Z.of_nat <$> seq 0 n)).
  apply NoDup_fmap_2; [apply _|apply NoDup_seq].
Qed.

Lemma seq_offset b : forall a s, seq (a + s) b = map (Nat.add a) (seq s b).
Proof.
  induction b as [|b IH]; intros a s; [reflexivity|].
  cbn [seq map]. f_equal. rewrite <- IH. f_equal. lia.
Qed.

Lemma upto_app a b :
  JS.upto (a + b) = JS.upto a ++ map (fun i => Z.of_nat a + i) (JS.upto b).
Proof.
  unfold JS.upto. rewrite seq_app, map_app. f_equal.
  replace (0 + a)%nat with (a + 0)%nat by lia.
  rewrite seq_offset, !map_map. apply map_ext. intros k. lia.
Qed.

Lemma filter_all {A} (f : A -> bool) l :
  (forall x, In x l -> f x = true) -> List.filter f l = l.
Proof.
  induction l as [|x l IH]; intros H; [reflexivity|]. cbn [List.filter].
  rewrite (H x (or_introl eq_refl)), IH; [reflexivity|].
  intros y Hy. apply H. right. exact Hy.
Qed.

Lemma keyId_fresh (c i : Z) :
  0 <= c -> 0 <= i ->
  keyId (c + i) ∉ (list_to_set (map keyId (JS.upto (Z.to_nat c))) : gset string).
Proof.
  intros Hc Hi. rewrite elem_of_list_to_set, list_elem_of_In, in_map_iff.
  intros (j & Hj & Hin). apply keyId_inj in Hj. apply in_upto in Hin. lia.
Qed.

(** One [loadMore] on such a state materializes the next 50 indices. *)
Lemma loadMore_materialized c st :
  0 <= c -> c + 50 <= 1000000000000 ->
  materialized c st -> materialized (c + 50) (loadMore sha256 now st).
Proof.
  intros Hc Hmax (Hl & Hcur & Hids & Hidx & Hgen).
  unfold loadMore. rewrite Hl. unfold generateKeys.
  change (Z.to_nat BATCH_SIZE) with 50%nat.
  destruct (generateKeys_loop_fresh sha256 now (currentIndex st)
              (JS.upto 50) (generatedKeyIds st) [] (NoDup_upto 50))
    as (ks & Hloop & Hkid & Hkidx).
  { intros i Hi. apply in_upto in Hi. rewrite Hcur, Hgen.
    split; [lia|]. apply keyId_fresh; lia. }
  rewrite Hloop. cbn [app].
  assert (Hkeep :
    List.filter
      (fun k => negb (bool_decide
                        (id k ∈ (list_to_set (map id (keys st)) : gset string))))
      ks = ks).
  { apply filter_all. intros k Hk. apply negb_true_iff.
    apply bool_decide_eq_false_2. rewrite Hids.
    assert (Hin : In (id k) (map id ks)) by (apply in_map; exact Hk).
    rewrite Hkid in Hin. apply in_map_iff in Hin as (i & <- & Hi).
    apply in_upto in Hi. rewrite Hcur. apply keyId_fresh; lia. }
  rewrite Hkeep.
  assert (Hup : JS.upto (Z.to_nat (c + 50))
                = JS.upto (Z.to_nat c) ++ map (fun i => c + i) (JS.upto 50)).
  { replace (Z.to_nat (c + 50)) with (Z.to_nat c + 50)%nat by lia.
    rewrite upto_app. f_equal. apply map_ext. intros i. lia. }
  unfold materialized; cbn [loading currentIndex keys generatedKeyIds].
  rewrite !map_app, Hids, Hidx, Hkid, Hkidx, Hup, Hcur, Hgen.
  rewrite map_app, map_map. repeat split; try reflexivity.
  rewrite list_to_set_app_L. apply (comm_L (∪)).
Qed.

Lemma initialState_materialized : materialized 0 initialState.
Proof. repeat split. Qed.

Lemma NoDup_keyIds l : NoDup l -> NoDup (map keyId l).
Proof.
  intros Hl. change (NoDup (keyId <$> l)).
  apply NoDup_fmap_2; [|exact Hl]. intros a b. apply keyId_inj.
Qed.

(** C5. From the fresh state, two [loadMore] calls in sequence leave
    exactly 100 records, with pairwise distinct ids and the indices
    0..99 in order; a call that is not refused advances the cursor by
    the batch size, whatever was skipped. *)
Theorem loadMore_twice :
  let st := loadMore sha256 now (loadMore sha256 now initialState) in
  length (keys st) = 100%nat
  /\ NoDup (map id (keys st))
  /\ map index (keys st) = JS.upto 100
  /\ currentIndex st = 100
  /\ forall st',
       currentIndex (loadMore sha256 now st')
       = if loading st' then currentIndex st'
         else currentIndex st' + BATCH_SIZE.
Proof.
  pose proof (loadMore_materialized 0 _ ltac:(lia) ltac:(lia)
                initialState_materialized) as H1.
  pose proof (loadMore_materialized 50 _ ltac:(lia) ltac:(lia) H1) as H2.
  destruct H2 as (_ & Hcur & Hids & Hidx & _).
  change (Z.to_nat (0 + 50 + 50)) with 100%nat in *.
  cbv zeta. repeat split.
  - rewrite <- (length_map index), Hidx. apply upto_length.
  - rewrite Hids. apply NoDup_keyIds, NoDup_upto.
  - exact Hidx.
  - exact Hcur.
  - intros st'. unfold loadMore. destruct (loading st'); [reflexivity|].
    destruct (generateKeys _ _ _ _ _). reflexivity.
Qed.

End Materialization.

(** ** Balance lookups *)

Section Balances.
Import BitcoinKeyGenerator.
Variable now : Z.
Variable fetch : string -> FetchOutcome.

(** [checkBalance] settles with a number on every path: its promise is
    never rejected. *)
Lemma checkBalance_finish_settled st p :
  fst (checkBalance_finish now fetch st p) = Ok (settled fetch p).
Proof.
  unfold checkBalance_finish, checkBalance_try, settled.
  destruct p as [b|a]; [reflexivity|].
  destruct (fetch a) as [| status | |s]; try reflexivity.
  destruct (status =? 429); reflexivity.
Qed.

Lemma checkBalance_resume_settled lastSeen st p :
  fst (checkBalance_resume now fetch lastSeen st p) = Ok (settled fetch p).
Proof.
  destruct p as [b|a]; [reflexivity|].
  cbn [checkBalance_resume]. apply checkBalance_finish_settled.
Qed.

Lemma checkAllBalances_balances st key :
  let key' := fst (checkAllBalances now fetch st key) in
  balances key'
  = mkBalances
      (positiveOrNull
         (settled fetch (checkBalance_start now st (legacy (addresses key)))))
      (positiveOrNull
         (settled fetch (checkBalance_start now st (segwit (addresses key)))))
      (positiveOrNull
         (settled fetch (checkBalance_start now st (nativeSegwit (addresses key)))))
  /\ id key' = id key /\ addresses key' = addresses key
  /\ privateKeyHex key' = privateKeyHex key
  /\ privateKeyWIF key' = privateKeyWIF key
  /\ publicKey key' = publicKey key
  /\ timestamp key' = timestamp key /\ index key' = index key.
Proof.
  unfold checkAllBalances.
  set (p1 := checkBalance_start now st (legacy (addresses key))).
  set (p2 := checkBalance_start now st (segwit (addresses key))).
  set (p3 := checkBalance_start now st (nativeSegwit (addresses key))).
  set (seen1 := lastApiCall st).
  set (seen2 := checkBalance_sync now seen1 p1).
  set (seen3 := checkBalance_sync now seen2 p2).
  pose proof (checkBalance_resume_settled seen1 st p1) as H1.
  destruct (checkBalance_resume now fetch seen1 st p1) as [r1 st1].
  pose proof (checkBalance_resume_settled seen2 st1 p2) as H2.
  destruct (checkBalance_resume now fetch seen2 st1 p2) as [r2 st2].
  pose proof (checkBalance_resume_settled seen3 st2 p3) as H3.
  destruct (checkBalance_resume now fetch seen3 st2 p3) as [r3 st3].
  cbn [fst] in *. subst r1 r2 r3. cbn. repeat split.
Qed.

Lemma positiveOrNull_positive b b' :
  positiveOrNull b = Some b' -> (0 < b')%Q.
Proof.
  unfold positiveOrNull. destruct (Qle_bool b 0) eqn:Hle; [discriminate|].
  intros [= <-]. apply Qnot_le_lt. intros H.
  apply Qle_bool_iff in H. congruence.
Qed.

Lemma positiveOrNull_nonpositive satoshis :
  satoshis <= 0 -> positiveOrNull (satoshis # 100000000) = None.
Proof.
  intros Hs. unfold positiveOrNull.
  replace (Qle_bool (satoshis # 100000000) 0) with true; [reflexivity|].
  symmetry. apply Qle_bool_iff. unfold Qle. cbn. lia.
Qed.

Lemma settled_fails st a : lookupFails now fetch st a ->
  settled fetch (checkBalance_start now st a) = 0%Q.
Proof.
  intros [-> Hf]. cbn. destruct (fetch a); try reflexivity.
  exfalso. eapply Hf. reflexivity.
Qed.

(** A failed lookup never reaches the caller as an error: [checkBalance]
    settles with 0 for that address, and [checkAllBalances] therefore
    returns the record with the balance of that address set to [null],
    whatever it was before; the fields other than the balances are
    unchanged. *)
Lemma failed_lookup_is_null st key address :
  lookupFails now fetch st address ->
  let key' := fst (checkAllBalances now fetch st key) in
  fst (checkBalance now fetch st address) = Ok 0%Q
  /\ (legacy (addresses key) = address -> legacyBalance (balances key') = None)
  /\ (segwit (addresses key) = address -> segwitBalance (balances key') = None)
  /\ (nativeSegwit (addresses key) = address
      -> nativeSegwitBalance (balances key') = None)
  /\ id key' = id key /\ addresses key' = addresses key
  /\ privateKeyHex key' = privateKeyHex key
  /\ privateKeyWIF key' = privateKeyWIF key
  /\ publicKey key' = publicKey key
  /\ timestamp key' = timestamp key /\ index key' = index key.
Proof.
  intros Hf key'.
  destruct (checkAllBalances_balances st key) as (Hb & Hrest).
  fold key' in Hb, Hrest.
  split.
  { unfold checkBalance. rewrite checkBalance_finish_settled.
    rewrite (settled_fails st address Hf). reflexivity. }
  rewrite Hb. cbn [legacyBalance segwitBalance nativeSegwitBalance].
  repeat split; try apply Hrest;
    intros ->; rewrite (settled_fails st _ Hf); reflexivity.
Qed.

(** C8. A fetch that succeeds with 0 satoshis, or any non-positive
    amount, leaves the balance of its address [null] in the record
    [checkAllBalances] returns; and no balance of that record is a
    number that is not positive. *)
Theorem zero_balance_is_null st key address satoshis :
  lookupFetches now fetch st address satoshis -> satoshis <= 0 ->
  let key' := fst (checkAllBalances now fetch st key) in
  (legacy (addresses key) = address -> legacyBalance (balances key') = None)
  /\ (segwit (addresses key) = address -> segwitBalance (balances key') = None)
  /\ (nativeSegwit (addresses key) = address
      -> nativeSegwitBalance (balances key') = None)
  /\ (forall b, legacyBalance (balances key') = Some b -> (0 < b)%Q)
  /\ (forall b, segwitBalance (balances key') = Some b -> (0 < b)%Q)
  /\ (forall b, nativeSegwitBalance (balances key') = Some b -> (0 < b)%Q).
Proof.
  intros [Hstart Hfetch] Hs key'.
  destruct (checkAllBalances_balances st key) as (Hb & _).
  fold key' in Hb. rewrite Hb.
  cbn [legacyBalance segwitBalance nativeSegwitBalance].
  assert (Hnull : positiveOrNull (settled fetch (checkBalance_start now st address))
                  = None).
  { rewrite Hstart. cbn [settled]. rewrite Hfetch.
    apply positiveOrNull_nonpositive, Hs. }
  repeat split; try (intros ->; exact Hnull);
    intros b; apply positiveOrNull_positive.
Qed.

End Balances.

Lemma failed_lookup_is_null_witness :
  let key' :=
    fst (BitcoinKeyGenerator.checkAllBalances 0 (fun _ => NetworkError)
                                              emptyApi paidKey) in
  fst (BitcoinKeyGenerator.checkBalance 0 (fun _ => NetworkError) emptyApi "1A")
  = Ok 0%Q
  /\ (legacy (addresses paidKey) = "1A" -> legacyBalance (balances key') = None)
  /\ (segwit (addresses paidKey) = "1A" -> segwitBalance (balances key') = None)
  /\ (nativeSegwit (addresses paidKey) = "1A"
      -> nativeSegwitBalance (balances key') = None)
  /\ id key' = id paidKey /\ addresses key' = addresses paidKey
  /\ privateKeyHex key' = privateKeyHex paidKey
  /\ privateKeyWIF key' = privateKeyWIF paidKey
  /\ publicKey key' = publicKey paidKey
  /\ timestamp key' = timestamp paidKey /\ index key' = index paidKey.
Proof.
  apply (failed_lookup_is_null 0 (fun _ => NetworkError) emptyApi paidKey "1A").
  split; [reflexivity|]. intros s. discriminate.
Defined.

(** C7. [checkAllBalances] does not return the record unmodified when
    the lookups fail, as the specification and the comment of its [catch]
    ("Return original key if balance checking fails") say: [checkBalance]
    turns every failure into the balance 0, so [Promise.all] is never
    rejected, the [catch] is not reached, and the record is rebuilt with
    [null] for every balance that is not positive. A first check, of
    [freshKey] with the network up, returns [paidKey], with the legacy
    balance 0.5; a second check of that record, after the cache entries
    have expired and with the network down, returns it with the three
    balances [null]. When only one lookup fails, the two others still
    set their balance. *)
Lemma failed_lookup_modifies_balances :
  let first := BitcoinKeyGenerator.checkAllBalances
                 0 paidNetwork emptyApi freshKey in
  fst first = paidKey
  /\ balances paidKey = mkBalances (Some (50000000 # 100000000)%Q) None None
  /\ balances (fst (BitcoinKeyGenerator.checkAllBalances
                      400000 networkDown (snd first) paidKey))
     = mkBalances None None None
  /\ balances (fst (BitcoinKeyGenerator.checkAllBalances
                      0 networkDown emptyApi paidKey))
     = mkBalances None None None
  /\ balances (fst (BitcoinKeyGenerator.checkAllBalances
                      0 (fun a => if String.eqb a "1A" then NetworkError
                                  else FinalBalance 500000000)
                      emptyApi freshKey))
     = mkBalances None (Some (500000000 # 100000000)%Q)
                  (Some (500000000 # 100000000)%Q).
Proof. repeat split. Qed.

Lemma zero_balance_is_null_witness :
  let key' :=
    fst (BitcoinKeyGenerator.checkAllBalances 0 (fun _ => FinalBalance 0)
                                              emptyApi freshKey) in
  (legacy (addresses freshKey) = "1A" -> legacyBalance (balances key') = None)
  /\ (segwit (addresses freshKey) = "1A" -> segwitBalance (balances key') = None)
  /\ (nativeSegwit (addresses freshKey) = "1A"
      -> nativeSegwitBalance (balances key') = None)
  /\ (forall b, legacyBalance (balances key') = Some b -> (0 < b)%Q)
  /\ (forall b, segwitBalance (balances key') = Some b -> (0 < b)%Q)
  /\ (forall b, nativeSegwitBalance (balances key') = Some b -> (0 < b)%Q).
Proof.
  apply (zero_balance_is_null 0 (fun _ => FinalBalance 0) emptyApi freshKey "1A" 0).
  - split; reflexivity.
  - lia.
Defined.

(** The three lookups of [checkAllBalances] overlap: called at 5000 with
    no request made in the last second, the first request is sent at
    once, and the two others, which both read the time of the first,
    one second later, together. *)
Example checkAllBalances_request_times :
  let api := snd (BitcoinKeyGenerator.checkAllBalances
                    5000 (fun _ => FinalBalance 1) emptyApi freshKey) in
  lastApiCall api = 6000
  /\ snd <$> balanceCache api !! "1A" = Some 5000
  /\ snd <$> balanceCache api !! "3B" = Some 6000
  /\ snd <$> balanceCache api !! "bc1q" = Some 6000.
Proof. vm_compute. repeat split. Qed.

(** ** Search sessions *)

Section SearchSessions.
Import UseInfiniteKeys.
Variable sha256 : list Z -> list Z.
Variable now : Z.

Lemma awaitAll_ok l :
  exists batch, awaitAll (map (generateKeyAtIndex sha256 now) l) = Ok batch.
Proof.
  induction l as [|i l (batch & IH)]; [eexists; reflexivity|].
  cbn [map awaitAll].
  destruct (generateKeyAtIndex_ok sha256 now i) as (key & Hk & _).
  rewrite Hk, IH. cbn [mbind JsResult_bind]. eexists. reflexivity.
Qed.

Lemma scanBatch_aborted t batch acc : scanBatch true t batch acc = acc.
Proof. destruct batch, acc as [[? ?] ?]; reflexivity. Qed.

(** An aborted search that awaits a batch returns, in three resumptions,
    to [performSearch] with the results it had. *)
Lemma aborted_search_returns st t :
  signalAborted st t = true ->
  resumeAll sha256 now 3 st (Some (AwaitBatch t))
  = (performSearch_finish st t, None).
Proof.
  intros Ha. cbn [resumeAll resume]. unfold scanBody.
  unfold batchOf.
  destruct (awaitAll_ok
              (map (fun i => batchStart t + i)
                   (JS.upto (Z.to_nat (searchIndex t - batchStart t)))))
    as (batch & Hb).
  rewrite map_map in Hb. rewrite Hb, Ha, scanBatch_aborted.
  cbv beta iota zeta. cbn [resumeAll resume].
  unfold scanHead, signalAborted in *.
  cbn [foundCount searchIndex signal]. rewrite Ha.
  destruct ((foundCount t <? MAX_SEARCH_RESULTS) && (searchIndex t <? 100000));
    cbn [resumeAll resume]; destruct t; reflexivity.
Qed.

Lemma abortCurrent_bound st c :
  wellNumbered st -> c ∈ abortCurrent st -> (c < controllers st)%nat.
Proof.
  intros [Ha Hc]. unfold abortCurrent.
  destruct (searchAbortController st) as [c'|] eqn:Hcur; [|apply Ha].
  rewrite elem_of_union, elem_of_singleton. intros [->|Hin]; auto.
Qed.

Lemma searching_wellNumbered st : wellNumbered st -> wellNumbered (searching st).
Proof.
  intros Hwf. split; cbn [searching aborted controllers searchAbortController].
  - intros c Hc. apply (abortCurrent_bound st c Hwf) in Hc. lia.
  - intros c [= <-]. lia.
Qed.

(** [performSearch] up to its [await], for a term of three characters
    or more *)
Lemma performSearch_start_searching searchTerm st :
  wellNumbered st -> (3 <= String.length searchTerm)%nat ->
  performSearch_start searchTerm st
  = (searching st, Some (AwaitBatch (firstBatch searchTerm st))).
Proof.
  intros Hwf Hlen. unfold performSearch_start.
  replace (String.length searchTerm <? 3)%nat with false
    by (symmetry; apply Nat.ltb_ge; exact Hlen).
  fold (searching st). f_equal. f_equal. unfold scanHead, signalAborted.
  cbn [foundCount searchIndex signal].
  change ((0 <? MAX_SEARCH_RESULTS) && (0 <? 100000)) with true. cbv iota.
  rewrite bool_decide_eq_false_2; [reflexivity|].
  cbn [searching aborted]. intros Hin.
  apply (abortCurrent_bound st _ Hwf) in Hin. lia.
Qed.

Lemma superseded_eq termA termB st :
  wellNumbered st ->
  (3 <= String.length termA)%nat -> (3 <= String.length termB)%nat ->
  superseded sha256 now termA termB st
  = performSearch_finish (searching (searching st)) (firstBatch termA st).
Proof.
  intros Hwf HA HB. unfold superseded.
  rewrite (performSearch_start_searching termA st Hwf HA).
  rewrite (performSearch_start_searching termB _
             (searching_wellNumbered st Hwf) HB).
  rewrite aborted_search_returns; [reflexivity|].
  unfold signalAborted. apply bool_decide_eq_true_2.
  cbn [firstBatch signal searching aborted abortCurrent searchAbortController].
  apply elem_of_union_l, elem_of_singleton. reflexivity.
Qed.

(** The rest of [performSearch] when the controller in the ref is not
    aborted: the matches of the call are shown. *)
Lemma performSearch_finish_shown st t c :
  searchAbortController st = Some c -> c ∉ aborted st ->
  let st' := performSearch_finish st t in
  searchResults st' = combine (loadedMatches t) (results t)
  /\ searchCompleted st' = true
  /\ searchLoading st' = false
  /\ aborted st' = aborted st
  /\ searchAbortController st' = Some c.
Proof.
  intros Hc Hn. unfold performSearch_finish. rewrite Hc.
  rewrite bool_decide_eq_false_2 by exact Hn. cbn. auto.
Qed.

(** C6, on the source: the results of a superseded search are shown.
    When a search for [termB] is started while a search for [termA]
    awaits its first batch, the first search, once resumed, stores its
    matches in [searchResults] and marks the search completed, although
    its own signal is aborted: the guard of [performSearch] reads the
    controller of the new search. *)
Theorem superseded_results_shown termA termB st :
  wellNumbered st ->
  (3 <= String.length termA)%nat -> (3 <= String.length termB)%nat ->
  let st' := superseded sha256 now termA termB st in
  controllers st ∈ aborted st'
  /\ searchAbortController st' = Some (S (controllers st))
  /\ searchResults st'
     = combine (List.filter (matches (JS.toLowerCase termA)) (keys st)) []
  /\ searchCompleted st' = true
  /\ searchLoading st' = false.
Proof.
  intros Hwf HA HB st'. subst st'.
  rewrite (superseded_eq termA termB st Hwf HA HB).
  destruct (performSearch_finish_shown (searching (searching st))
              (firstBatch termA st) (S (controllers st)) eq_refl)
    as (Hr & Hc & Hl & Ha & Hs).
  { cbn [searching aborted abortCurrent searchAbortController controllers].
    rewrite not_elem_of_union, elem_of_singleton. split; [lia|].
    intros Hin. apply (abortCurrent_bound st _ Hwf) in Hin. lia. }
  rewrite Hr, Hc, Hl, Ha, Hs. repeat split.
  cbn [searching aborted abortCurrent searchAbortController].
  apply elem_of_union_l, elem_of_singleton. reflexivity.
Qed.

(** When the query is cleared instead, the guard reads the controller of
    the search itself, and the search shows nothing. *)
Lemma cleared_results_hidden termA st :
  wellNumbered st -> (3 <= String.length termA)%nat ->
  let st' := cleared sha256 now termA st in
  searchResults st' = [] /\ searchCompleted st' = false.
Proof.
  intros Hwf HA st'. subst st'. unfold cleared.
  rewrite (performSearch_start_searching termA st Hwf HA).
  assert (Hin : controllers st ∈ aborted (clearSearch (searching st))).
  { cbn [clearSearch searching aborted abortCurrent searchAbortController].
    apply elem_of_union_l, elem_of_singleton. reflexivity. }
  rewrite aborted_search_returns
    by (unfold signalAborted; apply bool_decide_eq_true_2; exact Hin).
  cbn [fst]. unfold performSearch_finish.
  cbn [clearSearch searching searchAbortController] in *.
  rewrite bool_decide_eq_true_2 by exact Hin.
  cbn. split; reflexivity.
Qed.

End SearchSessions.

(** ** Runs with SHA-256 *)

Lemma addresses_from_one_pubKeyHash_witness :
  let pubKeyHash :=
    BitcoinCrypto.ripemd160 Sha256.sha256 (Sha256.sha256 publicKey0) in
  let scriptHash :=
    BitcoinCrypto.ripemd160 Sha256.sha256
      (Sha256.sha256 ([0x00; 0x14] ++ pubKeyHash)) in
  exists a converted,
    BitcoinKeyGenerator.deriveAddresses Sha256.sha256 publicKey0 = Ok a
    /\ Base58.encodeCheck Sha256.sha256 ([0x00] ++ pubKeyHash) = Ok (legacy a)
    /\ Base58.encodeCheck Sha256.sha256 ([0x05] ++ scriptHash) = Ok (segwit a)
    /\ Bech32.convertBits pubKeyHash 8 5 true = Some converted
    /\ nativeSegwit a = Bech32.encode "bc" ([0] ++ converted).
Proof.
  apply (addresses_from_one_pubKeyHash Sha256.sha256 publicKey0).
  vm_compute. reflexivity.
Defined.

Lemma index_or_timestamp_witness :
  exists key,
    BitcoinKeyGenerator.generateKeyFromPrivateKey
      Sha256.sha256 1700000000000
      (BitcoinKeyGenerator.generateFixedPrivateKeyFromIndex 0)
      1000000000000 = Ok key
    /\ id key = "key-" +:+ JS.numToString 1000000000000
    /\ (1000000000000 < 10 ^ 12 ->
        index key = 1000000000000 /\ timestamp key = 1700000000000)
    /\ (10 ^ 12 <= 1000000000000 ->
        index key = 0 /\ timestamp key = 1000000000000)
    /\ (forall m, - 2 ^ 53 < m < 2 ^ 53 ->
                  id key = "key-" +:+ JS.numToString m -> 1000000000000 = m).
Proof.
  apply (index_or_timestamp Sha256.sha256 1700000000000
           (BitcoinKeyGenerator.generateFixedPrivateKeyFromIndex 0)
           1000000000000).
  - vm_compute. lia.
  - lia.
Defined.

(** The record of index 0: the scalar, the key material and the three
    addresses the model derives from the master seed *)
Example key_0 :
  UseInfiniteKeys.generateKeyAtIndex Sha256.sha256 1700000000000 0
  = Ok {| id := "key-0";
          privateKeyHex :=
            "426876606b6c6827446c6b6069692e4b71657371756673372a29282e1c1d1e1f";
          privateKeyWIF :=
            "KySoKeqzQyXMPGC3KxKQZh1VrfDwwHNLoVwCKeNtAQecjPgcELqV";
          publicKey :=
            "029a793ce3d7994640e4b5792bedd4d86419c4a96239e3cdc01a408af5085098a0";
          addresses :=
            {| legacy := "18D6Ekh3a5JY41ufTvWScDjDS3YUSk17nE";
               segwit := "35FsAtEAoMV8g6UoxGNFPKjgo2UR3z1P6X";
               nativeSegwit := "bc1qfufruec389lr96v8sze66ap57uk9r2z4xurqw0" |};
          balances := mkBalances None None None;
          timestamp := 1700000000000;
          index := 0 |}.
Proof. vm_compute. reflexivity. Qed.

Lemma loadMore_search_fields sha256 now st :
  aborted (UseInfiniteKeys.loadMore sha256 now st) = aborted st
  /\ searchAbortController (UseInfiniteKeys.loadMore sha256 now st)
     = searchAbortController st
  /\ controllers (UseInfiniteKeys.loadMore sha256 now st) = controllers st.
Proof.
  unfold UseInfiniteKeys.loadMore. destruct (loading st); [auto|].
  destruct (UseInfiniteKeys.generateKeys _ _ _ _ _). auto.
Qed.

Lemma loadedState_wellNumbered : wellNumbered loadedState.
Proof.
  unfold wellNumbered, loadedState.
  destruct (loadMore_search_fields Sha256.sha256 0 UseInfiniteKeys.initialState)
    as (-> & -> & ->).
  split; [intros c Hc; cbn in Hc; set_solver|intros c Hc; discriminate Hc].
Qed.

Lemma superseded_results_shown_witness :
  let st' := superseded Sha256.sha256 0 "abc" "xyz" loadedState in
  controllers loadedState ∈ aborted st'
  /\ searchAbortController st' = Some (S (controllers loadedState))
  /\ searchResults st'
     = UseInfiniteKeys.combine
         (List.filter (UseInfiniteKeys.matches (JS.toLowerCase "abc"))
                      (keys loadedState)) []
  /\ searchCompleted st' = true
  /\ searchLoading st' = false.
Proof.
  apply (superseded_results_shown Sha256.sha256 0 "abc" "xyz" loadedState).
  - exact loadedState_wellNumbered.
  - vm_compute. lia.
  - vm_compute. lia.
Defined.

(** After the initial load, a search for "abc" superseded by a search for
    "xyz": the record of index 43, a match for "abc" and not for "xyz", is
    shown as the result of a completed search. *)
Example superseded_abc_xyz :
  let st' := superseded Sha256.sha256 0 "abc" "xyz" loadedState in
  map id (searchResults st') = ["key-43"]
  /\ searchCompleted st' = true
  /\ List.filter (UseInfiniteKeys.matches "xyz") (searchResults st') = [].
Proof.
  cbv zeta.
  rewrite (superseded_eq Sha256.sha256 0 "abc" "xyz" loadedState
             loadedState_wellNumbered)
    by (vm_compute; lia).
  destruct (performSearch_finish_shown (searching (searching loadedState))
              (firstBatch "abc" loadedState) (S (controllers loadedState))
              eq_refl)
    as (Hr & Hc & _).
  { cbn [searching aborted searchAbortController controllers].
    unfold UseInfiniteKeys.abortCurrent at 1.
    cbn [searching aborted searchAbortController controllers].
    pose proof (abortCurrent_bound loadedState (S (controllers loadedState))
                  loadedState_wellNumbered) as Hb.
    rewrite not_elem_of_union, elem_of_singleton.
    split; [lia|]. intros Hin. apply Hb in Hin. lia. }
  rewrite Hr, Hc. cbn [firstBatch loadedMatches results].
  assert (Hm :
    UseInfiniteKeys.combine
      (List.filter (UseInfiniteKeys.matches (JS.toLowerCase "abc"))
                   (keys loadedState)) []
    = List.filter (fun k => index k =? 43) (keys loadedState)).
  { vm_compute. reflexivity. }
  rewrite Hm. vm_compute. repeat split.
Qed.

(** ** Further properties of the byte codecs *)

Section CodecInverse.
Import BitcoinCrypto.

(** Two byte lists of one length that denote the same integer are equal. *)
Lemma bytesToBigInt_inj l1 : forall l2,
  bytes l1 -> bytes l2 -> length l1 = length l2 ->
  bytesToBigInt l1 = bytesToBigInt l2 -> l1 = l2.
Proof.
  induction l1 as [|x l1 IH]; intros [|y l2] B1 B2 Hlen Hv;
    try discriminate; [reflexivity|].
  inversion B1 as [|? ? Hx B1']; inversion B2 as [|? ? Hy B2']; subst.
  injection Hlen as Hlen.
  rewrite !bytesToBigInt_cons, Hlen in Hv.
  pose proof (bytesToBigInt_bound l1 B1') as H1.
  pose proof (bytesToBigInt_bound l2 B2') as H2.
  rewrite Hlen in H1.
  assert (Hp : 0 < 256 ^ Z.of_nat (length l2)) by (apply Z.pow_pos_nonneg; lia).
  assert (x = y) by nia. subst y.
  f_equal. apply IH; auto. lia.
Qed.

Lemma bytesToBigInt_zeros k l :
  bytesToBigInt (repeat 0 k ++ l) = bytesToBigInt l.
Proof.
  rewrite <- !bytesToNum_bytesToBigInt.
  induction k as [|k IH]; [reflexivity|].
  cbn [repeat app]. unfold Base58.bytesToNum in *. cbn [fold_left]. exact IH.
Qed.

Lemma bytes_repeat_0 k : bytes (repeat 0 k).
Proof. induction k; constructor; auto. unfold is_byte. lia. Qed.

(** X1. [bigIntToBytes] undoes [bytesToBigInt] on byte arrays of at most
    32 elements, up to the zero bytes it puts in front: an array of 32
    bytes is given back as it is. *)
Theorem bigIntToBytes_bytesToBigInt b :
  bytes b -> (length b <= 32)%nat ->
  bigIntToBytes (bytesToBigInt b) = repeat 0 (32 - length b) ++ b.
Proof.
  intros Hb Hlen. apply bytesToBigInt_inj.
  - apply bigIntToBytes_bytes.
  - apply Forall_app. split; [apply bytes_repeat_0|exact Hb].
  - rewrite bigIntToBytes_length, length_app, repeat_length. lia.
  - rewrite bytesToBigInt_bigIntToBytes, bytesToBigInt_zeros.
    apply Z.mod_small.
    pose proof (bytesToBigInt_bound b Hb) as [H0 H1]. split; [exact H0|].
    eapply Z.lt_le_trans; [exact H1|].
    change (2 ^ 256) with (256 ^ Z.of_nat 32).
    apply Z.pow_le_mono_r; lia.
Qed.

Lemma bigIntToBytes_bytesToBigInt_witness :
  bigIntToBytes (bytesToBigInt [1; 2; 3])
  = repeat 0 (32 - length [1; 2; 3]) ++ [1; 2; 3].
Proof.
  apply (bigIntToBytes_bytesToBigInt [1; 2; 3]).
  - repeat constructor; unfold is_byte; lia.
  - simpl. lia.
Defined.

Lemma bytesToHex_cons x l : bytesToHex (x :: l) = byteToHex x +:+ bytesToHex l.
Proof.
  unfold bytesToHex. cbn [map String.concat].
  destruct (map byteToHex l) as [|y m] eqn:E.
  - cbn [String.concat]. unfold byteToHex.
    rewrite !append_cons, append_nil_l. reflexivity.
  - rewrite append_nil_l. reflexivity.
Qed.

Lemma substring_0_0 s : String.substring 0 0 s = EmptyString.
Proof. destruct s; reflexivity. Qed.

Lemma hexToBytes_pair c1 c2 s :
  hexToBytes (String c1 (String c2 s))
  = match JS.parseInt16 (String c1 (String c2 EmptyString)) with
    | Some v => JS.u8 v
    | None => 0
    end :: hexToBytes s.
Proof.
  unfold hexToBytes. cbn [String.length].
  replace (S (S (String.length s)) / 2)%nat with (S (String.length s / 2)).
  2:{ change (S (S (String.length s))) with (1 * 2 + String.length s)%nat.
      rewrite Nat.div_add_l by lia. reflexivity. }
  cbn [seq map]. f_equal.
  { change (2 * 0)%nat with 0%nat. cbn [String.substring].
    rewrite substring_0_0. reflexivity. }
  rewrite <- seq_shift, map_map. apply map_ext. intros k.
  replace (2 * S k)%nat with (S (S (2 * k))) by lia.
  reflexivity.
Qed.

(** Every byte is read back from its two digits. *)
Lemma parseInt16_byteToHex_check :
  forallb (fun x => match JS.parseInt16 (byteToHex x) with
                    | Some v => JS.u8 v =? x
                    | None => false
                    end) (JS.upto 256) = true.
Proof. vm_compute. reflexivity. Qed.

(** X2. [hexToBytes] undoes [bytesToHex]: a byte array is read back
    from its hexadecimal text. *)
Theorem hexToBytes_bytesToHex b : bytes b -> hexToBytes (bytesToHex b) = b.
Proof.
  induction 1 as [|x l Hx _ IH]; [reflexivity|].
  rewrite bytesToHex_cons. unfold byteToHex at 1.
  rewrite !append_cons, append_nil_l, hexToBytes_pair, IH. f_equal.
  pose proof parseInt16_byteToHex_check as Hc.
  rewrite forallb_forall in Hc. specialize (Hc x).
  assert (Hin : In x (JS.upto 256)).
  { unfold JS.upto. apply in_map_iff. exists (Z.to_nat x).
    unfold is_byte in Hx. split; [lia|]. apply in_seq. lia. }
  specialize (Hc Hin). unfold byteToHex in Hc.
  destruct (JS.parseInt16 _) as [v|]; [|discriminate].
  apply Z.eqb_eq, Hc.
Qed.

Lemma hexToBytes_bytesToHex_witness :
  hexToBytes (bytesToHex [0; 171; 255]) = [0; 171; 255].
Proof.
  apply (hexToBytes_bytesToHex [0; 171; 255]).
  repeat constructor; unfold is_byte; lia.
Defined.

Lemma land_toInt32_255 x : Z.land (JS.toInt32 x) 255 = x mod 256.
Proof.
  change 255 with (Z.ones 8). rewrite Z.land_ones by lia.
  change (2 ^ 8) with 256. unfold JS.toInt32.
  rewrite Zminus_mod, (Z.mod_mod_divide _ (2 ^ 32) 256)
    by (exists (2 ^ 24); reflexivity).
  change (2 ^ 31 mod 256) with 0. rewrite Z.sub_0_r, Z.mod_mod by lia.
  rewrite Zplus_mod. change (2 ^ 31 mod 256) with 0.
  rewrite Z.add_0_r, Z.mod_mod by lia. reflexivity.
Qed.

Lemma land_toInt32_255_mod x : JS.toInt32 x mod 256 = x mod 256.
Proof.
  pose proof (land_toInt32_255 x) as H. change 255 with (Z.ones 8) in H.
  rewrite Z.land_ones in H by lia. exact H.
Qed.

Lemma lxor_mod_256 a b : Z.lxor a b mod 256 = Z.lxor (a mod 256) (b mod 256).
Proof.
  change 256 with (2 ^ 8). rewrite <- !Z.land_ones by lia.
  apply Z.bits_inj'. intros n _.
  rewrite Z.land_spec, !Z.lxor_spec, !Z.land_spec.
  destruct (Z.testbit a n), (Z.testbit b n), (Z.testbit (Z.ones 8) n);
    reflexivity.
Qed.

Lemma lxor_mod_byte a b :
  0 <= a < 256 -> 0 <= b < 256 -> 0 <= Z.lxor a b < 256.
Proof.
  intros Ha Hb. rewrite <- (Z.mod_small a 256), <- (Z.mod_small b 256) by lia.
  rewrite <- lxor_mod_256. apply Z.mod_pos_bound. lia.
Qed.

(** X3. The simulated public key does not hide the private key: for
    a key of 32 bytes, [getPublicKey] returns 33 bytes, the byte 0x02
    followed by the bytes of the key, each XORed with a byte that only
    depends on its place and on the 32-bit rolling hash of the key; so
    the XOR of that byte and the public byte gives the private byte
    back. *)
Theorem getPublicKey_reveals privateKey i :
  bytes privateKey -> (i < 32)%nat ->
  let pub := getPublicKey privateKey in
  let mask := keystream (rollingHash privateKey) (Z.of_nat i) in
  length pub = 33%nat
  /\ nth 0 pub 0 = 2
  /\ nth (S i) pub 0 = Z.lxor (nth i privateKey 0) mask
  /\ nth i privateKey 0 = Z.lxor (nth (S i) pub 0) mask.
Proof.
  intros Hb Hi. cbv zeta. unfold getPublicKey, simulateSecp256k1PublicKey.
  split; [cbn [length]; rewrite length_map; reflexivity|].
  split; [reflexivity|]. cbn [nth].
  assert (Hp : 0 <= nth i privateKey 0 < 256).
  { clear Hi. revert i. induction Hb as [|x l Hx _ IH]; intros [|i]; cbn;
      auto; lia. }
  assert (Hn : nth i
                 (map (fun i0 : Z =>
                         JS.u8 (JS.band
                                  (JS.bxor (JS.at0 privateKey (Z.to_nat i0))
                                     (JS.rem (JS.band (rollingHash privateKey
                                                       + i0 * 1337) 4294967295)
                                             256)) 255))
                      (JS.upto 32)) 0
               = Z.lxor (nth i privateKey 0)
                        (keystream (rollingHash privateKey) (Z.of_nat i))).
  { unfold JS.upto. rewrite map_map.
    rewrite (nth_indep _ 0
               ((fun x => JS.u8 (JS.band
                                   (JS.bxor (JS.at0 privateKey (Z.to_nat (Z.of_nat x)))
                                      (JS.rem (JS.band (rollingHash privateKey
                                                        + Z.of_nat x * 1337)
                                                       4294967295) 256)) 255))
                  0%nat))
      by (rewrite length_map, length_seq; exact Hi).
    rewrite (map_nth (fun x => JS.u8 (JS.band
                                   (JS.bxor (JS.at0 privateKey (Z.to_nat (Z.of_nat x)))
                                      (JS.rem (JS.band (rollingHash privateKey
                                                        + Z.of_nat x * 1337)
                                                       4294967295) 256)) 255))),
      seq_nth by exact Hi.
    cbn [Nat.add]. rewrite Nat2Z.id. unfold JS.at0, keystream.
    set (s := JS.rem (JS.band (rollingHash privateKey + Z.of_nat i * 1337)
                              4294967295) 256).
    unfold JS.band at 1. change (JS.toInt32 255) with 255.
    rewrite land_toInt32_255. unfold JS.bxor.
    rewrite lxor_mod_256, !land_toInt32_255_mod.
    rewrite (Z.mod_small (nth i privateKey 0)) by lia.
    apply u8_id. apply lxor_mod_byte; [lia|]. apply Z.mod_pos_bound. lia. }
  rewrite Hn. split; [reflexivity|].
  rewrite Z.lxor_assoc, Z.lxor_nilpotent, Z.lxor_0_r. reflexivity.
Qed.

Lemma getPublicKey_reveals_witness :
  let pub := getPublicKey (bigIntToBytes 123456789) in
  let mask := keystream (rollingHash (bigIntToBytes 123456789)) (Z.of_nat 31) in
  length pub = 33%nat
  /\ nth 0 pub 0 = 2
  /\ nth (S 31) pub 0 = Z.lxor (nth 31 (bigIntToBytes 123456789) 0) mask
  /\ nth 31 (bigIntToBytes 123456789) 0 = Z.lxor (nth (S 31) pub 0) mask.
Proof.
  apply (getPublicKey_reveals (bigIntToBytes 123456789) 31).
  - apply bigIntToBytes_bytes.
  - lia.
Defined.

(** X4. When [generatePrivateKey] returns, it returns the first draw of
    the random source that denotes an integer strictly between 0 and the
    group order; the draws before it were 0 or not below the order. *)
Theorem generatePrivateKey_first_valid draws privateKey :
  Forall bytes draws ->
  generatePrivateKey draws = Some privateKey ->
  exists rejected rest,
    draws = rejected ++ privateKey :: rest
    /\ Forall (fun d => bytesToBigInt d = 0 \/ secp256k1Order <= bytesToBigInt d)
              rejected
    /\ 0 < bytesToBigInt privateKey < secp256k1Order.
Proof.
  induction 1 as [|d draws Hd _ IH]; intros Hg; [discriminate|].
  cbn [generatePrivateKey] in Hg.
  destruct (Z.leb_spec secp256k1Order (bytesToBigInt d)) as [Hge|Hlt];
    destruct (Z.eqb_spec (bytesToBigInt d) 0) as [Hz|Hnz]; cbn [orb] in Hg.
  1-3: destruct (IH Hg) as (rej & rest & -> & Hrej & Hk);
       exists (d :: rej), rest;
       (split; [reflexivity|]); (split; [constructor; [lia|exact Hrej]|exact Hk]).
  injection Hg as ->. exists [], draws.
  split; [reflexivity|]. split; [constructor|].
  pose proof (bytesToBigInt_bound privateKey Hd). lia.
Qed.

Lemma generatePrivateKey_first_valid_witness :
  exists rejected rest,
    [bigIntToBytes 0; bigIntToBytes (2 ^ 256 - 1);
     bigIntToBytes 5; bigIntToBytes 6]
    = rejected ++ bigIntToBytes 5 :: rest
    /\ Forall (fun d => bytesToBigInt d = 0 \/ secp256k1Order <= bytesToBigInt d)
              rejected
    /\ 0 < bytesToBigInt (bigIntToBytes 5) < secp256k1Order.
Proof.
  apply (generatePrivateKey_first_valid
           [bigIntToBytes 0; bigIntToBytes (2 ^ 256 - 1);
            bigIntToBytes 5; bigIntToBytes 6]
           (bigIntToBytes 5)).
  - constructor; [apply bigIntToBytes_bytes|].
    constructor; [apply bigIntToBytes_bytes|].
    constructor; [apply bigIntToBytes_bytes|].
    constructor; [apply bigIntToBytes_bytes|].
    constructor.
  - vm_compute. reflexivity.
Defined.

End CodecInverse.

(** ** Further properties of Base58 *)

Section Base58Inverse.
Import Base58.

(** Every character: either it is not in the alphabet, or [indexOf]
    gives the place where it stands. *)
Lemma alphabet_index_check :
  forallb
    (fun n =>
       let c := ascii_of_nat n in
       let i := JS.indexOf c BASE58_ALPHABET in
       (i =? -1)
       || ((0 <=? i) && (i <? 58)
           && match String.get (Z.to_nat i) BASE58_ALPHABET with
              | Some d => Ascii.eqb c d
              | None => false
              end))
    (seq 0 256) = true.
Proof. vm_compute. reflexivity. Qed.

Lemma alphabet_index c :
  JS.indexOf c BASE58_ALPHABET <> -1 ->
  0 <= JS.indexOf c BASE58_ALPHABET < 58
  /\ String.get (Z.to_nat (JS.indexOf c BASE58_ALPHABET)) BASE58_ALPHABET
     = Some c.
Proof.
  intros Hne. pose proof alphabet_index_check as Hc.
  rewrite forallb_forall in Hc. specialize (Hc (nat_of_ascii c)).
  rewrite ascii_nat_embedding in Hc. cbv zeta in Hc.
  assert (Hin : In (nat_of_ascii c) (seq 0 256)).
  { apply in_seq. pose proof (nat_ascii_bounded c). lia. }
  specialize (Hc Hin).
  apply orb_prop in Hc as [Hc|Hc]; [apply Z.eqb_eq in Hc; contradiction|].
  apply andb_prop in Hc as [Hr Hg]. apply andb_prop in Hr as [H0 H58].
  apply Z.leb_le in H0. apply Z.ltb_lt in H58. split; [lia|].
  destruct (String.get _ _) as [d|]; [|discriminate].
  apply Ascii.eqb_eq in Hg. congruence.
Qed.

Lemma alphabet_index_inj c d :
  JS.indexOf c BASE58_ALPHABET <> -1 ->
  JS.indexOf c BASE58_ALPHABET = JS.indexOf d BASE58_ALPHABET -> c = d.
Proof.
  intros Hc Heq.
  destruct (alphabet_index c Hc) as [_ Gc].
  destruct (alphabet_index d ltac:(congruence)) as [_ Gd].
  rewrite Heq in Gc. congruence.
Qed.

Lemma alphabet_index_0 c : JS.indexOf c BASE58_ALPHABET = 0 -> c = "1"%char.
Proof.
  intros H0. destruct (alphabet_index c ltac:(lia)) as [_ G].
  rewrite H0 in G. change (Some "1"%char = Some c) in G. congruence.
Qed.

Lemma decode_num_inv c rest a n :
  decode_num (String c rest) a = Ok n ->
  JS.indexOf c BASE58_ALPHABET <> -1
  /\ decode_num rest (a * 58 + JS.indexOf c BASE58_ALPHABET) = Ok n.
Proof.
  cbn [decode_num].
  destruct (Z.eqb_spec (JS.indexOf c BASE58_ALPHABET) (-1)); [discriminate|].
  auto.
Qed.

(** A text [decode_num] accepts denotes a number below [58 ^ length],
    added to the shifted accumulator. *)
Lemma decode_num_value t : forall a0 n,
  decode_num t a0 = Ok n ->
  exists v,
    (forall a, decode_num t a = Ok (a * 58 ^ Z.of_nat (String.length t) + v))
    /\ 0 <= v < 58 ^ Z.of_nat (String.length t).
Proof.
  induction t as [|c rest IH]; intros a0 n Hd.
  - exists 0. split; [|cbn; lia]. intros a. cbn. f_equal. lia.
  - apply decode_num_inv in Hd as [Hc Hd].
    destruct (IH _ _ Hd) as (v & Hv & Hb).
    destruct (alphabet_index c Hc) as [Hi _].
    set (i := JS.indexOf c BASE58_ALPHABET) in *.
    assert (Hp : 0 < 58 ^ Z.of_nat (String.length rest))
      by (apply Z.pow_pos_nonneg; lia).
    cbn [String.length].
    replace (Z.of_nat (S (String.length rest)))
      with (1 + Z.of_nat (String.length rest)) by lia.
    rewrite Z.pow_add_r by lia. change (58 ^ 1) with 58.
    exists (i * 58 ^ Z.of_nat (String.length rest) + v). split; [|nia].
    intros a. rewrite (decode_num_digit c i) by (auto; lia).
    rewrite Hv. f_equal. lia.
Qed.

Lemma decode_num_lower c rest v :
  c <> "1"%char -> decode_num (String c rest) 0 = Ok v ->
  58 ^ Z.of_nat (String.length rest) <= v.
Proof.
  intros Hc Hd. apply decode_num_inv in Hd as [Hi Hd].
  destruct (alphabet_index c Hi) as [Hr _].
  assert (Hpos : JS.indexOf c BASE58_ALPHABET <> 0).
  { intros H0. apply Hc, alphabet_index_0, H0. }
  destruct (decode_num_value _ _ _ Hd) as (w & Hw & Hb).
  rewrite Hw in Hd. injection Hd as <-.
  assert (Hp : 0 < 58 ^ Z.of_nat (String.length rest))
    by (apply Z.pow_pos_nonneg; lia).
  nia.
Qed.

(** Two accepted texts of one length with one value are equal. *)
Lemma digits_unique_length D : forall t v,
  String.length D = String.length t ->
  decode_num D 0 = Ok v -> decode_num t 0 = Ok v -> D = t.
Proof.
  induction D as [|c D IH]; intros [|d t] v Hlen HD Ht;
    try discriminate; [reflexivity|].
  injection Hlen as Hlen.
  apply decode_num_inv in HD as [Hc HD]. apply decode_num_inv in Ht as [Hd Ht].
  destruct (alphabet_index c Hc) as [Hci _].
  destruct (alphabet_index d Hd) as [Hdi _].
  destruct (decode_num_value _ _ _ HD) as (w1 & Hw1 & Hb1).
  destruct (decode_num_value _ _ _ Ht) as (w2 & Hw2 & Hb2).
  rewrite Hw1 in HD. rewrite Hw2 in Ht. rewrite Hlen in HD, Hb1.
  injection HD as HD. injection Ht as Ht.
  assert (Hp : 0 < 58 ^ Z.of_nat (String.length t))
    by (apply Z.pow_pos_nonneg; lia).
  assert (Hi : JS.indexOf c BASE58_ALPHABET = JS.indexOf d BASE58_ALPHABET)
    by nia.
  assert (Hw : w1 = w2) by nia. subst w2.
  f_equal; [apply alphabet_index_inj; assumption|].
  apply (IH t w1 Hlen).
  - rewrite Hw1. reflexivity.
  - rewrite Hw2. reflexivity.
Qed.

Lemma digits_length D t v :
  noLeadingOne t -> decode_num D 0 = Ok v -> decode_num t 0 = Ok v ->
  (String.length t <= String.length D)%nat.
Proof.
  intros Ht HD Hd. destruct t as [|d t]; [cbn; lia|]. cbn in Ht.
  pose proof (decode_num_lower d t v Ht Hd) as Hlow.
  destruct (decode_num_value _ _ _ HD) as (w & Hw & Hb).
  rewrite Hw in HD. injection HD as HD.
  cbn [String.length].
  destruct (Nat.le_gt_cases (S (String.length t)) (String.length D))
    as [Hle|Hgt]; [exact Hle|exfalso].
  assert (58 ^ Z.of_nat (String.length D) <= 58 ^ Z.of_nat (String.length t))
    by (apply Z.pow_le_mono_r; lia).
  lia.
Qed.

(** The base-58 digits of a number, without a leading digit 0, are
    unique. *)
Lemma digits_unique D t v :
  noLeadingOne D -> noLeadingOne t ->
  decode_num D 0 = Ok v -> decode_num t 0 = Ok v -> D = t.
Proof.
  intros HD Ht Hd1 Hd2.
  apply (digits_unique_length D t v); auto.
  apply Nat.le_antisymm; eauto using digits_length.
Qed.

Lemma leadingOnes_split s :
  exists k t, s = ones k +:+ t /\ noLeadingOne t.
Proof.
  induction s as [|c s (k & t & Hs & Ht)].
  - exists O, EmptyString. split; [reflexivity|exact I].
  - destruct (Ascii.eqb_spec c "1") as [->|Hc].
    + exists (S k), t. split; [|exact Ht].
      cbn [ones]. rewrite append_cons. f_equal. exact Hs.
    + exists O, (String c s). split; [reflexivity|exact Hc].
Qed.

(** The bytes [decode_loop] puts in front of [acc] for a number, with
    enough fuel: the big-endian bytes of the number, without a leading
    zero. *)
Lemma decode_loop_canonical fuel : forall num acc,
  0 <= num < 2 ^ Z.of_nat fuel ->
  exists r,
    decode_loop fuel num acc = r ++ acc
    /\ bytes r /\ canonical r /\ bytesToNum r = num.
Proof.
  induction fuel as [|fuel IH]; intros num acc Hn.
  - assert (num = 0) by (change (2 ^ Z.of_nat 0) with 1 in Hn; lia). subst num.
    exists []. repeat split. constructor.
  - cbn [decode_loop]. destruct (Z.ltb_spec 0 num) as [Hpos|Hzero].
    + rewrite Z.rem_mod_nonneg, Z.quot_div_nonneg by lia.
      assert (Hr : 0 <= num mod 256 < 256) by (apply Z.mod_pos_bound; lia).
      assert (Hq : 0 <= num / 256 < 2 ^ Z.of_nat fuel).
      { split; [apply Z.div_pos; lia|].
        apply Z.div_lt_upper_bound; [lia|].
        replace (Z.of_nat (S fuel)) with (1 + Z.of_nat fuel) in Hn by lia.
        rewrite Z.pow_add_r in Hn by lia. lia. }
      destruct (IH (num / 256) (num mod 256 :: acc) Hq)
        as (r & Hloop & Hb & Hc & Hv).
      exists (r ++ [num mod 256]). rewrite <- app_assoc. split; [exact Hloop|].
      split; [|split].
      * apply Forall_app. split; [exact Hb|]. constructor; [exact Hr|constructor].
      * destruct r as [|y r']; [|exact Hc]. cbn.
        unfold bytesToNum in Hv. cbn in Hv.
        rewrite Z.mod_small; [lia|].
        symmetry in Hv. apply Z.div_small_iff in Hv; lia.
      * rewrite bytesToNum_snoc, Hv.
        pose proof (Z.div_mod num 256 ltac:(lia)). lia.
    + assert (num = 0) by lia. subst num.
      exists []. repeat split. constructor.
Qed.

Lemma leadingZeros_canonical k r :
  canonical r -> leadingZeros (repeat 0 k ++ r) = k.
Proof.
  intros Hc. induction k as [|k IH].
  - destruct r as [|x r]; [reflexivity|]. cbn in *.
    apply Z.eqb_neq in Hc. rewrite Hc. reflexivity.
  - cbn [repeat app leadingZeros]. change (0 =? 0) with true. cbv iota.
    f_equal. exact IH.
Qed.

(** X5. [encode] undoes [decode]: a text that [decode] accepts is
    the encoding of the bytes it decodes to. *)
Theorem encode_decode s b : decode s = Ok b -> encode b = s.
Proof.
  unfold decode. destruct (String.length s =? 0)%nat eqn:Hlen.
  { apply Nat.eqb_eq in Hlen. destruct s; [|discriminate].
    intros H. injection H as <-. reflexivity. }
  clear Hlen. destruct (decode_num s 0) as [num|m] eqn:Hnum; [|discriminate].
  cbn [mbind JsResult_bind].
  remember (decode_loop (steps num) num []) as L eqn:HL.
  intros H. injection H as <-. subst L.
  destruct (leadingOnes_split s) as (k & t & Hs & Ht).
  rewrite Hs in *. rewrite decode_num_ones in Hnum.
  destruct (decode_num_value _ _ _ Hnum) as (v & Hv & Hvb).
  rewrite Hv in Hnum. injection Hnum as Hnum.
  assert (Hn0 : 0 <= num) by lia.
  destruct (decode_loop_canonical (steps num) num [] (steps_enough num Hn0))
    as (r & Hloop & Hb & Hc & Hval).
  rewrite decode_leading_ones, Hloop, app_nil_r by exact Ht.
  assert (Hbytes : bytes (repeat 0 k ++ r)).
  { apply Forall_app. split; [|exact Hb].
    clear. induction k; constructor; auto. unfold is_byte. lia. }
  rewrite map_u8_bytes by exact Hbytes.
  destruct (encode_shape _ Hbytes) as (D & HE & HD & HDv & _).
  rewrite HE, leadingZeros_canonical by exact Hc.
  f_equal. apply (digits_unique D t num HD Ht).
  - rewrite HDv, bytesToNum_zeros, Hval. reflexivity.
  - rewrite Hv. f_equal. exact Hnum.
Qed.

Lemma encode_decode_witness : encode [0; 0; 5] = "116".
Proof. apply (encode_decode "116" [0; 0; 5]). reflexivity. Defined.

Lemma decode_num_text s : forall a,
  if base58Text s then exists n, decode_num s a = Ok n
  else decode_num s a = Throw "Invalid Base58 character".
Proof.
  unfold base58Text.
  induction s as [|c s IH]; intros a; cbn [list_ascii_of_string forallb].
  - eexists. reflexivity.
  - cbn [decode_num].
    destruct (JS.indexOf c BASE58_ALPHABET =? -1); cbn [negb andb].
    + reflexivity.
    + apply IH.
Qed.

(** X6. [decode] throws exactly on a text with a character outside
    the alphabet; on any other text it returns bytes. *)
Theorem decode_throws_iff s :
  if base58Text s then exists b, decode s = Ok b /\ bytes b
  else decode s = Throw "Invalid Base58 character".
Proof.
  pose proof (decode_num_text s 0) as Hn. unfold decode.
  destruct s as [|c s].
  - cbn. exists []. split; [reflexivity|constructor].
  - change (String.length (String c s) =? 0)%nat with false. cbv iota.
    destruct (base58Text (String c s)).
    + destruct Hn as [n ->]. cbn [mbind JsResult_bind].
      eexists. split; [reflexivity|apply bytes_map_u8].
    + rewrite Hn. reflexivity.
Qed.

End Base58Inverse.

Section Base58Checksum.
Import BitcoinCrypto Base58.
Variable sha256 : list Z -> list Z.

Lemma checksumMismatch_spec checksum hash :
  length checksum = 4%nat ->
  checksumMismatch checksum hash = false <-> checksum = firstn 4 hash.
Proof.
  intros Hlen.
  destruct checksum as [|c0 [|c1 [|c2 [|c3 [|c4 l]]]]]; try discriminate.
  unfold checksumMismatch.
  destruct hash as [|h0 [|h1 [|h2 [|h3 rest]]]]; cbn.
  1-4: repeat match goal with
              | |- context [?a =? ?b] => destruct (Z.eqb_spec a b)
              end; cbn; split; intros; congruence.
  destruct (Z.eqb_spec c0 h0), (Z.eqb_spec c1 h1),
           (Z.eqb_spec c2 h2), (Z.eqb_spec c3 h3); cbn;
    split; intros; subst; try reflexivity; congruence.
Qed.

Lemma set_prefix src k :
  bytes src -> JS.set (JS.zeros (length src + k)) src 0 = Ok (src ++ JS.zeros k).
Proof.
  intros Hb. unfold JS.set, JS.zeros. rewrite repeat_length.
  cbn [Nat.add firstn app].
  replace (length src <=? length src + k)%nat with true
    by (symmetry; apply Nat.leb_le; lia).
  rewrite repeat_app, skipn_app, repeat_length, Nat.sub_diag, skipn_0.
  rewrite skipn_all2 by (rewrite repeat_length; lia).
  rewrite map_u8_bytes by exact Hb. reflexivity.
Qed.

Lemma encodeCheck_value payload :
  bytes payload ->
  bytes (doubleSha256 sha256 payload) ->
  (4 <= length (doubleSha256 sha256 payload))%nat ->
  encodeCheck sha256 payload
  = Ok (encode (payload ++ firstn 4 (doubleSha256 sha256 payload))).
Proof.
  intros Hp Hh Hlen. unfold encodeCheck.
  set (hash := doubleSha256 sha256 payload) in *.
  assert (Hc : bytes (firstn 4 hash)) by (apply Forall_take; exact Hh).
  assert (Hl : length (firstn 4 hash) = 4%nat)
    by (rewrite length_firstn; lia).
  rewrite (set_prefix payload 4 Hp). cbn [mbind JsResult_bind].
  rewrite (set_fill payload (firstn 4 hash) 4 (length payload) Hc Hl eq_refl).
  reflexivity.
Qed.

(** [decodeCheck] on the encoding of a payload followed by four bytes *)
Lemma decodeCheck_encode_app payload checksum :
  bytes payload -> bytes checksum -> length checksum = 4%nat ->
  decodeCheck sha256 (encode (payload ++ checksum))
  = if checksumMismatch checksum (doubleSha256 sha256 payload)
    then Throw "Invalid checksum" else Ok payload.
Proof.
  intros Hp Hc Hl. unfold decodeCheck.
  rewrite decode_encode by (apply Forall_app; split; assumption).
  cbn [mbind JsResult_bind]. rewrite length_app, Hl.
  replace (length payload + 4 <? 4)%nat with false
    by (symmetry; apply Nat.ltb_ge; lia).
  replace (length payload + 4 - 4)%nat with (length payload) by lia.
  rewrite firstn_app, firstn_all, Nat.sub_diag, firstn_0, app_nil_r.
  rewrite skipn_app, skipn_all, Nat.sub_diag, skipn_0. reflexivity.
Qed.

(** X7. [decodeCheck] undoes [encodeCheck]: with a digest of at least
    four bytes, the payload is given back. *)
Theorem decodeCheck_encodeCheck payload :
  bytes payload ->
  bytes (doubleSha256 sha256 payload) ->
  (4 <= length (doubleSha256 sha256 payload))%nat ->
  exists s,
    encodeCheck sha256 payload = Ok s /\ decodeCheck sha256 s = Ok payload.
Proof.
  intros Hp Hh Hlen. rewrite (encodeCheck_value payload Hp Hh Hlen).
  eexists. split; [reflexivity|].
  set (hash := doubleSha256 sha256 payload) in *.
  assert (Hl : length (firstn 4 hash) = 4%nat)
    by (rewrite length_firstn; lia).
  rewrite decodeCheck_encode_app by (auto; apply Forall_take; exact Hh).
  fold hash.
  replace (checksumMismatch (firstn 4 hash) hash) with false; [reflexivity|].
  symmetry. apply checksumMismatch_spec; auto.
Qed.

(** X8. What [decodeCheck] accepts carries its checksum: the text
    decodes to the payload followed by the first four bytes of the
    double SHA-256 of the payload. *)
Theorem decodeCheck_sound s payload :
  decodeCheck sha256 s = Ok payload ->
  exists checksum,
    decode s = Ok (payload ++ checksum)
    /\ length checksum = 4%nat
    /\ checksum = firstn 4 (doubleSha256 sha256 payload).
Proof.
  unfold decodeCheck. destruct (decode s) as [decoded|m]; [|discriminate].
  cbn [mbind JsResult_bind].
  destruct (Nat.ltb_spec (length decoded) 4) as [Hlt|Hge]; [discriminate|].
  set (n := (length decoded - 4)%nat).
  destruct (checksumMismatch _ _) eqn:Hm; [discriminate|].
  intros H. injection H as <-.
  assert (Hl : length (skipn n decoded) = 4%nat)
    by (rewrite length_skipn; unfold n; lia).
  exists (skipn n decoded). rewrite firstn_skipn.
  split; [reflexivity|]. split; [exact Hl|].
  apply checksumMismatch_spec; assumption.
Qed.

(** X9. [decodeCheck] rejects the encoding of fewer than four bytes
    with 'Invalid length', and the encoding of a payload followed by
    four bytes that are not its checksum with 'Invalid checksum'. *)
Theorem decodeCheck_rejects d :
  bytes d ->
  ((length d < 4)%nat ->
   decodeCheck sha256 (encode d) = Throw "Invalid length")
  /\ (forall payload checksum,
        d = payload ++ checksum -> length checksum = 4%nat ->
        checksum <> firstn 4 (doubleSha256 sha256 payload) ->
        decodeCheck sha256 (encode d) = Throw "Invalid checksum").
Proof.
  intros Hd. split.
  - intros Hlt. unfold decodeCheck. rewrite decode_encode by exact Hd.
    cbn [mbind JsResult_bind].
    apply Nat.ltb_lt in Hlt. rewrite Hlt. reflexivity.
  - intros payload checksum -> Hl Hne.
    apply Forall_app in Hd as [Hp Hc].
    rewrite decodeCheck_encode_app by assumption.
    destruct (checksumMismatch _ _) eqn:Hm; [reflexivity|].
    apply checksumMismatch_spec in Hm; [contradiction|exact Hl].
Qed.

End Base58Checksum.

Lemma decodeCheck_encodeCheck_witness :
  exists s,
    Base58.encodeCheck Sha256.sha256 [0; 1; 2] = Ok s
    /\ Base58.decodeCheck Sha256.sha256 s = Ok [0; 1; 2].
Proof.
  apply (decodeCheck_encodeCheck Sha256.sha256 [0; 1; 2]).
  - repeat constructor; unfold is_byte; lia.
  - vm_compute. repeat constructor; discriminate.
  - vm_compute. lia.
Defined.

Lemma decodeCheck_sound_witness :
  exists checksum,
    Base58.decode "1Wh4bh" = Ok ([0] ++ checksum)
    /\ length checksum = 4%nat
    /\ checksum = firstn 4 (BitcoinCrypto.doubleSha256 Sha256.sha256 [0]).
Proof.
  apply (decodeCheck_sound Sha256.sha256 "1Wh4bh" [0]).
  vm_compute. reflexivity.
Defined.

Lemma decodeCheck_rejects_witness :
  ((length [1; 2; 3; 4; 5] < 4)%nat ->
   Base58.decodeCheck Sha256.sha256 (Base58.encode [1; 2; 3; 4; 5])
   = Throw "Invalid length")
  /\ (forall payload checksum,
        [1; 2; 3; 4; 5] = payload ++ checksum -> length checksum = 4%nat ->
        checksum
        <> firstn 4 (BitcoinCrypto.doubleSha256 Sha256.sha256 payload) ->
        Base58.decodeCheck Sha256.sha256 (Base58.encode [1; 2; 3; 4; 5])
        = Throw "Invalid checksum").
Proof.
  apply (decodeCheck_rejects Sha256.sha256 [1; 2; 3; 4; 5]).
  repeat constructor; unfold is_byte; lia.
Defined.

(** ** Further properties of the key derivation *)

Section KeyBytes.
Import BitcoinCrypto BitcoinKeyGenerator.

Lemma bigIntToBytes_id b :
  bytes b -> length b = 32%nat -> bigIntToBytes (bytesToBigInt b) = b.
Proof.
  intros Hb Hl. apply bytesToBigInt_inj.
  - apply bigIntToBytes_bytes.
  - exact Hb.
  - rewrite bigIntToBytes_length. auto.
  - rewrite bytesToBigInt_bigIntToBytes. apply Z.mod_small.
    pose proof (bytesToBigInt_bound b Hb) as H. rewrite Hl in H. exact H.
Qed.

(** For a non-negative index the key is the mixed bytes themselves. *)
Lemma key_is_candidate index :
  0 <= index ->
  generateFixedPrivateKeyFromIndex index = map (mixByte index) (JS.upto 32).
Proof.
  intros Hi. unfold generateFixedPrivateKeyFromIndex.
  rewrite ensureValid_valid by (apply candidate_valid; exact Hi).
  apply bigIntToBytes_id; [apply bytes_map_mixByte|].
  rewrite length_map. apply upto_length.
Qed.

Lemma toInt32_small z : 0 <= z < 2 ^ 31 -> JS.toInt32 z = z.
Proof. intros Hz. unfold JS.toInt32. rewrite Z.mod_small; lia. Qed.

Lemma lxor_byte a b : is_byte a -> is_byte b -> is_byte (Z.lxor a b).
Proof.
  unfold is_byte. intros Ha Hb.
  assert (H0 : 0 <= Z.lxor a b) by (apply Z.lxor_nonneg; lia).
  split; [exact H0|].
  destruct (Z.eq_dec (Z.lxor a b) 0) as [->|Hne]; [lia|].
  change 256 with (2 ^ 8). apply Z.log2_lt_pow2; [lia|].
  pose proof (Z.log2_lxor a b ltac:(lia) ltac:(lia)) as Hl.
  assert (La : Z.log2 a < 8).
  { destruct (Z.eq_dec a 0) as [->|]; [cbn; lia|].
    apply Z.log2_lt_pow2; lia. }
  assert (Lb : Z.log2 b < 8).
  { destruct (Z.eq_dec b 0) as [->|]; [cbn; lia|].
    apply Z.log2_lt_pow2; lia. }
  lia.
Qed.

Lemma bxor_byte a b : is_byte a -> is_byte b -> JS.bxor a b = Z.lxor a b.
Proof.
  unfold is_byte, JS.bxor. intros Ha Hb.
  rewrite !toInt32_small by lia. reflexivity.
Qed.

Lemma nth_bytes l n : bytes l -> is_byte (nth n l 0).
Proof.
  intros Hl. revert n. induction Hl as [|x l Hx _ IH]; intros [|n]; cbn;
    auto; unfold is_byte; lia.
Qed.

Lemma MASTER_SEED_bytes : bytes MASTER_SEED.
Proof. repeat constructor; unfold is_byte; cbn; lia. Qed.

Lemma indexArray_bytes index : bytes (indexArray index).
Proof.
  unfold indexArray. generalize (JS.upto 8). intros l.
  induction l; constructor; auto. apply Z.mod_pos_bound. lia.
Qed.

Lemma nth_map_upto (f : Z -> Z) n k d :
  (k < n)%nat -> nth k (map f (JS.upto n)) d = f (Z.of_nat k).
Proof.
  intros Hk. unfold JS.upto. rewrite map_map.
  rewrite (nth_indep _ d (f (Z.of_nat 0)))
    by (rewrite length_map, length_seq; exact Hk).
  rewrite (map_nth (fun x => f (Z.of_nat x))), seq_nth by exact Hk.
  reflexivity.
Qed.

(** The stored byte, without the coercions: three bytes XORed *)
Lemma mixByte_xor index i :
  0 <= index -> 0 <= i < 32 ->
  mixByte index i
  = Z.lxor (Z.lxor (JS.at0 MASTER_SEED (Z.to_nat i))
                   (JS.at0 (indexArray index) (Z.to_nat (i mod 8))))
           ((index + i) mod 256).
Proof.
  intros Hi Hr. unfold mixByte, JS.rem.
  rewrite (Z.rem_small i 32) by lia.
  rewrite (Z.rem_mod_nonneg i 8), (Z.rem_mod_nonneg (index + i) 256) by lia.
  set (s := JS.at0 MASTER_SEED (Z.to_nat i)).
  set (b := JS.at0 (indexArray index) (Z.to_nat (i mod 8))).
  set (p := (index + i) mod 256).
  assert (Hs : is_byte s) by apply nth_bytes, MASTER_SEED_bytes.
  assert (Hb : is_byte b) by apply nth_bytes, indexArray_bytes.
  assert (Hp : is_byte p) by (apply Z.mod_pos_bound; lia).
  rewrite (bxor_byte s b Hs Hb).
  rewrite (bxor_byte _ p (lxor_byte s b Hs Hb) Hp).
  pose proof (lxor_byte _ p (lxor_byte s b Hs Hb) Hp) as Hx.
  unfold is_byte in Hx. rewrite Z.rem_small by lia.
  apply u8_id. exact Hx.
Qed.

(** X10. The key of an index from 0 on, with [index + 31] below 2^53
    (the sums of the mixing loop are then exact), is never corrected:
    its byte [i] is the XOR of byte [i] of the master seed, byte
    [i mod 8] of the big-endian 64-bit index and the low byte of
    [index + i]. *)
Theorem privateKey_bytes index i :
  0 <= index -> index + 31 < 2 ^ 53 -> 0 <= i < 32 ->
  length (generateFixedPrivateKeyFromIndex index) = 32%nat
  /\ nth (Z.to_nat i) (generateFixedPrivateKeyFromIndex index) 0
     = Z.lxor (Z.lxor (nth (Z.to_nat i) MASTER_SEED 0)
                      (nth (Z.to_nat (i mod 8)) (indexArray index) 0))
              ((index + i) mod 256).
Proof.
  intros Hi _ Hr. split; [apply generateFixedPrivateKeyFromIndex_length|].
  rewrite key_is_candidate by exact Hi.
  pose proof (mixByte_xor index i Hi Hr) as Hx. unfold JS.at0 in Hx.
  rewrite <- Hx. clear Hx.
  rewrite nth_map_upto by lia. f_equal. lia.
Qed.

Lemma privateKey_bytes_witness :
  length (generateFixedPrivateKeyFromIndex 1000) = 32%nat
  /\ nth (Z.to_nat 9) (generateFixedPrivateKeyFromIndex 1000) 0
     = Z.lxor (Z.lxor (nth (Z.to_nat 9) MASTER_SEED 0)
                      (nth (Z.to_nat (9 mod 8)) (indexArray 1000) 0))
              ((1000 + 9) mod 256).
Proof. apply (privateKey_bytes 1000 9); lia. Defined.

Lemma lxor_cancel_l a x y : Z.lxor a x = Z.lxor a y -> x = y.
Proof.
  intros H. apply (f_equal (Z.lxor a)) in H.
  rewrite <- !Z.lxor_assoc, !Z.lxor_nilpotent, !Z.lxor_0_l in H. exact H.
Qed.

Lemma lxor_cancel_r a x y : Z.lxor x a = Z.lxor y a -> x = y.
Proof. rewrite !(Z.lxor_comm _ a). apply lxor_cancel_l. Qed.

(** What the equality of two stored bytes says, for indices with the
    same low byte: the bytes of the two indices at that place agree. *)
Lemma mixByte_eq i j p :
  0 <= i -> 0 <= j -> 0 <= p < 32 -> i mod 256 = j mod 256 ->
  mixByte i p = mixByte j p ->
  JS.at0 (indexArray i) (Z.to_nat (p mod 8))
  = JS.at0 (indexArray j) (Z.to_nat (p mod 8)).
Proof.
  intros Hi Hj Hp Hm H. rewrite !mixByte_xor in H by assumption.
  replace ((j + p) mod 256) with ((i + p) mod 256) in H
    by (rewrite <- (Zplus_mod_idemp_l i), <- (Zplus_mod_idemp_l j), Hm;
        reflexivity).
  apply lxor_cancel_r, lxor_cancel_l in H. exact H.
Qed.

(** A number below [256 ^ n] is determined by its [n] low bytes. *)
Lemma bytes_determine (n : nat) : forall i j,
  0 <= i < 256 ^ Z.of_nat n -> 0 <= j < 256 ^ Z.of_nat n ->
  (forall k, (k < n)%nat ->
             i / 256 ^ Z.of_nat k mod 256 = j / 256 ^ Z.of_nat k mod 256) ->
  i = j.
Proof.
  induction n as [|n IH]; intros i j Hi Hj Hk.
  - change (256 ^ Z.of_nat 0) with 1 in Hi, Hj. lia.
  - replace (Z.of_nat (S n)) with (1 + Z.of_nat n) in Hi, Hj by lia.
    rewrite Z.pow_add_r in Hi, Hj by lia. change (256 ^ 1) with 256 in Hi, Hj.
    assert (Hp : 0 < 256 ^ Z.of_nat n) by (apply Z.pow_pos_nonneg; lia).
    pose proof (Hk 0%nat ltac:(lia)) as H0.
    change (256 ^ Z.of_nat 0) with 1 in H0. rewrite !Z.div_1_r in H0.
    assert (Hq : i / 256 = j / 256).
    { apply IH.
      - split; [apply Z.div_pos; lia|apply Z.div_lt_upper_bound; lia].
      - split; [apply Z.div_pos; lia|apply Z.div_lt_upper_bound; lia].
      - intros k Hlt. specialize (Hk (S k) ltac:(lia)).
        replace (Z.of_nat (S k)) with (1 + Z.of_nat k) in Hk by lia.
        rewrite Z.pow_add_r in Hk by lia. change (256 ^ 1) with 256 in Hk.
        rewrite <- !Z.div_div in Hk
          by (try lia; apply Z.pow_pos_nonneg; lia).
        exact Hk. }
    pose proof (Z.div_mod i 256 ltac:(lia)).
    pose proof (Z.div_mod j 256 ltac:(lia)). lia.
Qed.

(** X11. Distinct indices have distinct private keys, for the indices
    from 0 on with [index + 31] below 2^53, where the sums of the mixing
    loop are exact. *)
Theorem generateFixedPrivateKeyFromIndex_inj i j :
  0 <= i -> i + 31 < 2 ^ 53 -> 0 <= j -> j + 31 < 2 ^ 53 ->
  i <> j ->
  generateFixedPrivateKeyFromIndex i <> generateFixedPrivateKeyFromIndex j.
Proof.
  intros Hi0 Hi1 Hj0 Hj1 Hne H. apply Hne. clear Hne.
  assert (Hi : 0 <= i < 2 ^ 53) by lia.
  assert (Hj : 0 <= j < 2 ^ 53) by lia.
  rewrite !key_is_candidate in H by lia.
  assert (Hnth : forall p, mixByte i (Z.of_nat p) = mixByte j (Z.of_nat p)
                           \/ (32 <= p)%nat).
  { intros p. destruct (Nat.lt_ge_cases p 32) as [Hp|Hp]; [left|right; exact Hp].
    apply (f_equal (fun l => nth p l 0)) in H.
    rewrite !nth_map_upto in H by exact Hp. exact H. }
  assert (Hm : i mod 256 = j mod 256).
  { destruct (Hnth 0%nat) as [H0|]; [|lia]. cbn [Z.of_nat] in H0.
    rewrite !mixByte_xor in H0 by lia.
    change (Z.to_nat (0 mod 8)) with 0%nat in H0.
    unfold indexArray, JS.at0 in H0.
    change (JS.upto 8) with [0; 1; 2; 3; 4; 5; 6; 7] in H0.
    cbn [map nth] in H0.
    rewrite !(Z.mod_small _ (2 ^ 64)) in H0 by lia.
    change (2 ^ (8 * (7 - 0))) with (2 ^ 56) in H0.
    rewrite !(Z.div_small _ (2 ^ 56)) in H0 by lia.
    rewrite !Z.add_0_r in H0. apply lxor_cancel_l in H0. exact H0. }
  assert (Hb : forall p, (1 <= p <= 6)%nat ->
             i / 2 ^ (8 * (7 - Z.of_nat p)) mod 256
             = j / 2 ^ (8 * (7 - Z.of_nat p)) mod 256).
  { intros p Hp. destruct (Hnth p) as [H0|]; [|lia].
    apply mixByte_eq in H0; [|lia..|exact Hm].
    rewrite Z.mod_small in H0 by lia.
    unfold indexArray, JS.at0 in H0.
    rewrite !(Z.mod_small _ (2 ^ 64)) in H0 by lia.
    rewrite Nat2Z.id, !nth_map_upto in H0 by lia. exact H0. }
  apply (bytes_determine 7).
  - change (256 ^ Z.of_nat 7) with (2 ^ 56). lia.
  - change (256 ^ Z.of_nat 7) with (2 ^ 56). lia.
  - intros k Hk. destruct k as [|k].
    + change (256 ^ Z.of_nat 0) with 1. rewrite !Z.div_1_r. exact Hm.
    + specialize (Hb (7 - S k)%nat ltac:(lia)).
      replace (8 * (7 - Z.of_nat (7 - S k))) with (8 * Z.of_nat (S k)) in Hb
        by lia.
      rewrite Z.pow_mul_r in Hb by lia. exact Hb.
Qed.

Lemma generateFixedPrivateKeyFromIndex_inj_witness :
  generateFixedPrivateKeyFromIndex 77 <> generateFixedPrivateKeyFromIndex 333.
Proof. apply (generateFixedPrivateKeyFromIndex_inj 77 333); lia. Defined.

End KeyBytes.

(** ** Valid keys, WIF and the records *)

Section ValidKeys.
Import BitcoinCrypto BitcoinKeyGenerator.

(** One iteration of the correction gives a valid key. *)
Lemma correction_step_valid k index attempts :
  0 <= k -> 0 <= index < maxKey - 1 -> 0 <= attempts ->
  let x := Z.rem (Z.lxor k (index + attempts * 1337)) maxKey in
  0 < (if x =? 0 then index + 1 else x) < maxKey.
Proof.
  intros Hk Hi Ha x.
  assert (Hx : 0 <= Z.lxor k (index + attempts * 1337))
    by (apply Z.lxor_nonneg; lia).
  assert (Hm : 0 <= x < maxKey).
  { unfold x. rewrite Z.rem_mod_nonneg by (unfold maxKey; lia).
    apply Z.mod_pos_bound. unfold maxKey. lia. }
  destruct (Z.eqb_spec x 0); lia.
Qed.

(** X12. For every byte array as seed and every index from 0 on, every
    sum the loop can form being below 2^53,
    [ensureValidPrivateKeySync] returns the 32 bytes of an integer
    strictly between 0 and [maxKey], after at most one iteration of its
    loop; a seed of 32 bytes that is such an integer already is returned
    as it is. *)
Theorem ensureValidPrivateKeySync_valid seed index :
  bytes seed -> 0 <= index -> index + 10 * 1337 < 2 ^ 53 ->
  0 < bytesToBigInt (ensureValidPrivateKeySync seed index) < maxKey
  /\ snd (ensureValid_loop 10 (bytesToBigInt seed) 0 index) <= 1
  /\ (length seed = 32%nat -> 0 < bytesToBigInt seed < maxKey ->
      ensureValidPrivateKeySync seed index = seed).
Proof.
  intros Hs Hi0 Hi1. pose proof (bytesToBigInt_bound seed Hs) as [Hk _].
  assert (Hi : 0 <= index < maxKey - 1) by (unfold maxKey; lia).
  assert (Hloop : exists k a,
             ensureValid_loop 10 (bytesToBigInt seed) 0 index = (k, a)
             /\ 0 < k < maxKey /\ a <= 1).
  { rewrite (ensureValid_loop_S 9). change (0 <? 10) with true.
    rewrite andb_true_r.
    destruct ((maxKey <=? bytesToBigInt seed) || (bytesToBigInt seed =? 0))
      eqn:Hc.
    - pose proof (correction_step_valid (bytesToBigInt seed) index 0
                    Hk Hi ltac:(lia)) as Hv. cbv zeta in Hv.
      rewrite ensureValid_loop_valid by exact Hv.
      eexists _, _. split; [reflexivity|]. split; [exact Hv|lia].
    - apply orb_false_iff in Hc as [H1 H2].
      apply Z.leb_gt in H1. apply Z.eqb_neq in H2.
      eexists _, _. split; [reflexivity|]. split; lia. }
  destruct Hloop as (k & a & Hl & Hv & Ha).
  unfold ensureValidPrivateKeySync. rewrite Hl. cbn [snd].
  split; [|split].
  - rewrite bytesToBigInt_bigIntToBytes, Z.mod_small; [exact Hv|].
    unfold maxKey in Hv. lia.
  - exact Ha.
  - intros Hlen Hvalid. rewrite ensureValid_loop_valid in Hl by exact Hvalid.
    injection Hl as <- _. apply bigIntToBytes_id; assumption.
Qed.

Lemma ensureValidPrivateKeySync_valid_witness :
  0 < bytesToBigInt (ensureValidPrivateKeySync seed_allOnes 5) < maxKey
  /\ snd (ensureValid_loop 10 (bytesToBigInt seed_allOnes) 0 5) <= 1
  /\ (length seed_allOnes = 32%nat -> 0 < bytesToBigInt seed_allOnes < maxKey ->
      ensureValidPrivateKeySync seed_allOnes 5 = seed_allOnes).
Proof.
  apply (ensureValidPrivateKeySync_valid seed_allOnes 5).
  - change seed_allOnes with (bigIntToBytes (2 ^ 256 - 1)).
    apply bigIntToBytes_bytes.
  - lia.
  - lia.
Defined.

Section WithSha256.
Variable sha256 : list Z -> list Z.
Variable now : Z.

(** X13. A seed of 32 bytes that denotes an integer strictly between 0
    and [maxKey] is not hashed: [ensureValidPrivateKey] returns it, as
    [ensureValidPrivateKeySync] does, and [generateKeyFromSeed] is
    [generateKeyFromPrivateKey] on it. *)
Theorem generateKeyFromSeed_valid seed index :
  bytes seed -> length seed = 32%nat -> 0 < bytesToBigInt seed < maxKey ->
  ensureValidPrivateKey sha256 seed = seed
  /\ ensureValidPrivateKeySync seed index = seed
  /\ generateKeyFromSeed sha256 now seed index
     = generateKeyFromPrivateKey sha256 now seed index.
Proof.
  intros Hs Hlen Hv.
  assert (He : ensureValidPrivateKey sha256 seed = seed).
  { unfold ensureValidPrivateKey.
    replace (maxKey <=? bytesToBigInt seed) with false
      by (symmetry; apply Z.leb_gt; lia).
    replace (bytesToBigInt seed =? 0) with false
      by (symmetry; apply Z.eqb_neq; lia).
    cbn [orb]. apply bigIntToBytes_id; assumption. }
  split; [exact He|]. split.
  - rewrite ensureValid_valid by exact Hv. apply bigIntToBytes_id; assumption.
  - unfold generateKeyFromSeed. rewrite He. reflexivity.
Qed.

Lemma privateKeyToWIF_payload privateKey :
  bytes privateKey -> length privateKey = 32%nat ->
  privateKeyToWIF sha256 privateKey
  = Base58.encodeCheck sha256 (wifPayload privateKey).
Proof.
  intros Hb Hlen. unfold privateKeyToWIF, JS.set.
  replace (1 + length privateKey <=? length (JS.store (JS.zeros 34) 0 128))%nat
    with true by (rewrite Hlen; reflexivity).
  rewrite Hlen, map_u8_bytes by exact Hb.
  change (firstn 1 (JS.store (JS.zeros 34) 0 128)) with [128].
  change (skipn (1 + 32) (JS.store (JS.zeros 34) 0 128)) with [0].
  cbn [mbind JsResult_bind]. f_equal. unfold JS.store, wifPayload.
  change ([128] ++ privateKey ++ [0]) with ((128 :: privateKey) ++ [0]).
  rewrite insert_app_r_alt by (cbn [length]; lia).
  cbn [length]. rewrite Hlen, Nat.sub_diag. reflexivity.
Qed.

(** X14. The WIF text of a 32-byte key decodes, with its checksum
    verified, to the byte 0x80, the key and the byte 0x01. *)
Theorem privateKeyToWIF_decodes privateKey :
  bytes privateKey -> length privateKey = 32%nat ->
  bytes (doubleSha256 sha256 (wifPayload privateKey)) ->
  (4 <= length (doubleSha256 sha256 (wifPayload privateKey)))%nat ->
  exists wif,
    privateKeyToWIF sha256 privateKey = Ok wif
    /\ Base58.decodeCheck sha256 wif = Ok (wifPayload privateKey).
Proof.
  intros Hb Hlen Hh Hl4.
  assert (Hp : bytes (wifPayload privateKey)).
  { unfold wifPayload. constructor; [unfold is_byte; lia|].
    apply Forall_app. split; [exact Hb|].
    constructor; [unfold is_byte; lia|constructor]. }
  rewrite (privateKeyToWIF_payload privateKey Hb Hlen).
  rewrite (encodeCheck_value sha256 _ Hp Hh Hl4).
  eexists. split; [reflexivity|].
  set (hash := doubleSha256 sha256 (wifPayload privateKey)) in *.
  assert (Hl : length (firstn 4 hash) = 4%nat)
    by (rewrite length_firstn; lia).
  rewrite decodeCheck_encode_app by (auto; apply Forall_take; exact Hh).
  fold hash.
  replace (Base58.checksumMismatch (firstn 4 hash) hash) with false;
    [reflexivity|].
  symmetry. apply checksumMismatch_spec; auto.
Qed.

(** X15. [privateKeyToWIF], and with it [generateKeyFromPrivateKey],
    returns exactly for keys of at most 33 bytes: a longer one does not
    fit after the version byte, and the [set] call throws. *)
Theorem generateKeyFromPrivateKey_range privateKey n :
  ((exists wif, privateKeyToWIF sha256 privateKey = Ok wif)
   <-> (length privateKey <= 33)%nat)
  /\ ((exists key, generateKeyFromPrivateKey sha256 now privateKey n = Ok key)
      <-> (length privateKey <= 33)%nat).
Proof.
  assert (Hthrow : (33 < length privateKey)%nat ->
            privateKeyToWIF sha256 privateKey
            = Throw "RangeError: offset is out of bounds").
  { intros Hlen. unfold privateKeyToWIF, JS.set.
    change (length (JS.store (JS.zeros 34) 0 128)) with 34%nat.
    replace (1 + length privateKey <=? 34)%nat with false
      by (symmetry; apply Nat.leb_gt; lia).
    reflexivity. }
  split; split.
  - intros [wif Hw].
    destruct (Nat.le_gt_cases (length privateKey) 33) as [Hle|Hgt];
      [exact Hle|]. rewrite Hthrow in Hw by exact Hgt. discriminate.
  - apply privateKeyToWIF_ok.
  - intros [key Hk].
    destruct (Nat.le_gt_cases (length privateKey) 33) as [Hle|Hgt];
      [exact Hle|]. unfold generateKeyFromPrivateKey in Hk.
    rewrite Hthrow in Hk by exact Hgt. discriminate.
  - intros Hle.
    destruct (generateKeyFromPrivateKey_ok sha256 now privateKey n Hle)
      as (key & Hk & _). eauto.
Qed.

Lemma generatePrivateKey_In draws privateKey :
  generatePrivateKey draws = Some privateKey ->
  In privateKey draws
  /\ bytesToBigInt privateKey < secp256k1Order
  /\ bytesToBigInt privateKey <> 0.
Proof.
  induction draws as [|d draws IH]; [discriminate|].
  cbn [generatePrivateKey].
  destruct (Z.leb_spec secp256k1Order (bytesToBigInt d)) as [Hge|Hlt];
    destruct (Z.eqb_spec (bytesToBigInt d) 0) as [Hz|Hnz]; cbn [orb].
  1-3: intros H; destruct (IH H) as (Hin & Hv); split; [right; exact Hin|exact Hv].
  intros H. injection H as <-. split; [left; reflexivity|]. split; assumption.
Qed.

(** X16. [generateKey] builds the record of the first valid draw of
    the random source, and does not throw. The clock value it passes
    is read as a timestamp only from 10^12 on: then the
    record has index 0 and that timestamp; an earlier clock value
    becomes the index of the record. *)
Theorem generateKey_record argNow draws privateKey :
  Forall (fun d => bytes d /\ length d = 32%nat) draws ->
  generatePrivateKey draws = Some privateKey ->
  exists key,
    generateKey sha256 argNow now draws = Some (Ok key)
    /\ 0 < bytesToBigInt privateKey < secp256k1Order
    /\ privateKeyHex key = bytesToHex privateKey
    /\ id key = keyId argNow
    /\ (1000000000000 <= argNow -> index key = 0 /\ timestamp key = argNow)
    /\ (argNow < 1000000000000 -> index key = argNow /\ timestamp key = now).
Proof.
  intros Hd Hg. unfold generateKey. rewrite Hg.
  destruct (generatePrivateKey_In draws privateKey Hg) as (Hin & Hlt & Hnz).
  rewrite Forall_forall in Hd.
  destruct (Hd privateKey ltac:(apply list_elem_of_In; exact Hin)) as [Hb Hl].
  destruct (generateKeyFromPrivateKey_ok sha256 now privateKey argNow
              ltac:(lia)) as (key & Hk & Hid & Hidx & Hts & Hhex & _).
  exists key. rewrite Hk. split; [reflexivity|].
  pose proof (bytesToBigInt_bound privateKey Hb).
  split; [lia|]. split; [exact Hhex|]. split; [exact Hid|].
  rewrite Hidx, Hts. split; intros Hn.
  - replace (argNow <? 1000000000000) with false
      by (symmetry; apply Z.ltb_ge; lia). auto.
  - replace (argNow <? 1000000000000) with true
      by (symmetry; apply Z.ltb_lt; lia). auto.
Qed.

End WithSha256.

Lemma shouldHaveBalance_period x :
  0 <= x -> shouldHaveBalance (x + 10000) = shouldHaveBalance x.
Proof.
  intros Hx. unfold shouldHaveBalance, JS.rem.
  rewrite !Z.rem_mod_nonneg by lia.
  replace ((x + 10000) * 1337 + 42) with (x * 1337 + 42 + 1337 * 10000) by lia.
  rewrite Z.mod_add by lia. reflexivity.
Qed.

Lemma balancesIn_S a n :
  balancesIn a (S n)
  = ((if shouldHaveBalance a then 1 else 0) + balancesIn (a + 1) n)%nat.
Proof.
  unfold balancesIn, JS.upto. cbn [seq map List.filter].
  rewrite Z.add_0_r, <- seq_shift, !map_map.
  replace (map (fun x => a + Z.of_nat (S x)) (seq 0 n))
    with (map (fun x => a + 1 + Z.of_nat x) (seq 0 n))
    by (apply map_ext; intros; lia).
  destruct (shouldHaveBalance a); reflexivity.
Qed.

Lemma balancesIn_slide a n :
  (balancesIn (a + 1) n + (if shouldHaveBalance a then 1 else 0)
   = balancesIn a n
     + (if shouldHaveBalance (a + Z.of_nat n) then 1 else 0))%nat.
Proof.
  pose proof (balancesIn_S a n) as H1.
  assert (H2 : balancesIn a (S n)
               = (balancesIn a n
                  + (if shouldHaveBalance (a + Z.of_nat n) then 1 else 0))%nat).
  { unfold balancesIn, JS.upto.
    rewrite seq_S, !map_app, List.filter_app, length_app.
    cbn [map List.filter Nat.add].
    destruct (shouldHaveBalance (a + Z.of_nat n)); reflexivity. }
  lia.
Qed.

Lemma countBalances_spec n : forall a acc,
  countBalances n a acc = (acc + balancesIn a n)%nat.
Proof.
  induction n as [|n IH]; intros a acc.
  - cbn. lia.
  - cbn [countBalances]. rewrite IH, balancesIn_S.
    destruct (shouldHaveBalance a); lia.
Qed.

Lemma balancesIn_0 : balancesIn 0 (Z.to_nat 10000) = 10%nat.
Proof.
  rewrite <- (Nat.add_0_l (balancesIn _ _)), <- countBalances_spec.
  vm_compute. reflexivity.
Qed.

(** X17. On the indices for which [index * 1337 + 42] is below 2^53 in
    absolute value, where the source computes it exactly: of any 10000
    consecutive indices from 0 on, [shouldHaveBalance] marks exactly
    ten; it marks every negative index, the remainder of a negative
    number not being positive. *)
Theorem shouldHaveBalance_marks a :
  - 2 ^ 53 < a * 1337 + 42 -> (a + 9999) * 1337 + 42 < 2 ^ 53 ->
  (0 <= a -> balancesIn a (Z.to_nat 10000) = 10%nat)
  /\ (a < 0 -> shouldHaveBalance a = true).
Proof.
  intros _ _. split.
  - intros Ha. rewrite <- (Z2Nat.id a Ha). generalize (Z.to_nat a). clear.
    intros n. induction n as [|n IH]; [exact balancesIn_0|].
    pose proof (balancesIn_slide (Z.of_nat n) (Z.to_nat 10000)) as Hs.
    rewrite Z2Nat.id in Hs by lia.
    rewrite shouldHaveBalance_period in Hs by lia.
    replace (Z.of_nat (S n)) with (Z.of_nat n + 1) by lia.
    destruct (shouldHaveBalance (Z.of_nat n)); lia.
  - intros Hi. unfold shouldHaveBalance, JS.rem. apply Z.ltb_lt.
    pose proof (Z.rem_nonpos (a * 1337 + 42) 10000 ltac:(lia) ltac:(lia)).
    lia.
Qed.

End ValidKeys.

Lemma generateKeyFromSeed_valid_witness :
  BitcoinKeyGenerator.ensureValidPrivateKey Sha256.sha256
    (BitcoinCrypto.bigIntToBytes 5) = BitcoinCrypto.bigIntToBytes 5
  /\ BitcoinKeyGenerator.ensureValidPrivateKeySync
       (BitcoinCrypto.bigIntToBytes 5) 9 = BitcoinCrypto.bigIntToBytes 5
  /\ BitcoinKeyGenerator.generateKeyFromSeed Sha256.sha256 0
       (BitcoinCrypto.bigIntToBytes 5) 9
     = BitcoinKeyGenerator.generateKeyFromPrivateKey Sha256.sha256 0
         (BitcoinCrypto.bigIntToBytes 5) 9.
Proof.
  apply (generateKeyFromSeed_valid Sha256.sha256 0
           (BitcoinCrypto.bigIntToBytes 5) 9).
  - apply bigIntToBytes_bytes.
  - apply bigIntToBytes_length.
  - vm_compute. split; reflexivity.
Defined.

Lemma privateKeyToWIF_decodes_witness :
  exists wif,
    BitcoinKeyGenerator.privateKeyToWIF Sha256.sha256
      (BitcoinCrypto.bigIntToBytes 1) = Ok wif
    /\ Base58.decodeCheck Sha256.sha256 wif
       = Ok (wifPayload (BitcoinCrypto.bigIntToBytes 1)).
Proof.
  apply (privateKeyToWIF_decodes Sha256.sha256 (BitcoinCrypto.bigIntToBytes 1)).
  - apply bigIntToBytes_bytes.
  - apply bigIntToBytes_length.
  - vm_compute. repeat constructor; discriminate.
  - vm_compute. lia.
Defined.

Example wif_of_key_1 :
  BitcoinKeyGenerator.privateKeyToWIF Sha256.sha256
    (BitcoinCrypto.bigIntToBytes 1)
  = Ok "KwDiBf89QgGbjEhKnhXJuH7LrciVrZi3qYjgd9M7rFU73sVHnoWn".
Proof. vm_compute. reflexivity. Qed.

Lemma shouldHaveBalance_marks_witness :
  balancesIn 123456 (Z.to_nat 10000) = 10%nat
  /\ BitcoinKeyGenerator.shouldHaveBalance (-5) = true.
Proof.
  split.
  - apply (shouldHaveBalance_marks 123456); lia.
  - apply (shouldHaveBalance_marks (-5)); lia.
Defined.

Lemma generateKey_record_witness :
  exists key,
    BitcoinKeyGenerator.generateKey Sha256.sha256 1700000000000 1700000000001
      [BitcoinCrypto.bigIntToBytes 0; BitcoinCrypto.bigIntToBytes 5]
    = Some (Ok key)
    /\ 0 < BitcoinCrypto.bytesToBigInt (BitcoinCrypto.bigIntToBytes 5)
       < BitcoinCrypto.secp256k1Order
    /\ privateKeyHex key
       = BitcoinCrypto.bytesToHex (BitcoinCrypto.bigIntToBytes 5)
    /\ id key = keyId 1700000000000
    /\ (1000000000000 <= 1700000000000 ->
        index key = 0 /\ timestamp key = 1700000000000)
    /\ (1700000000000 < 1000000000000 ->
        index key = 1700000000000 /\ timestamp key = 1700000000001).
Proof.
  apply (generateKey_record Sha256.sha256 1700000000001 1700000000000
           [BitcoinCrypto.bigIntToBytes 0; BitcoinCrypto.bigIntToBytes 5]
           (BitcoinCrypto.bigIntToBytes 5)).
  - constructor; [split; [apply bigIntToBytes_bytes|apply bigIntToBytes_length]|].
    constructor; [split; [apply bigIntToBytes_bytes|apply bigIntToBytes_length]|].
    constructor.
  - vm_compute. reflexivity.
Defined.

(** ** The balance cache and the rate limit *)

Section BalanceCache.
Import BitcoinKeyGenerator.

(** X18. Calls made one after the other: a lookup that goes to the
    network sends its request at the later of the time of the call and
    one second after the previous request, and records that time. The
    balance it fetches is then served from the cache for five minutes:
    a second lookup of the address, less than [CACHE_DURATION] after
    the request, returns the same balance whatever the network would
    answer and leaves the cache and the recorded time as they are. From
    [CACHE_DURATION] on, and after [clearBalanceCache], a lookup goes to
    the network again. *)
Theorem checkBalance_cached now0 now1 fetch0 fetch1 st address satoshis :
  lookupFetches now0 fetch0 st address satoshis ->
  let st1 := snd (checkBalance now0 fetch0 st address) in
  fst (checkBalance now0 fetch0 st address) = Ok (satoshis # 100000000)%Q
  /\ lastApiCall st1 = Z.max now0 (lastApiCall st + API_RATE_LIMIT)
  /\ (now1 - lastApiCall st1 < CACHE_DURATION ->
      checkBalance now1 fetch1 st1 address
      = (Ok (satoshis # 100000000)%Q, st1))
  /\ (CACHE_DURATION <= now1 - lastApiCall st1 ->
      checkBalance_start now1 st1 address = Request address)
  /\ checkBalance_start now1 (clearBalanceCache st1) address = Request address.
Proof.
  intros [Hstart Hfetch]. unfold checkBalance. rewrite Hstart.
  unfold checkBalance_finish, checkBalance_try. rewrite Hfetch.
  cbn [fst snd]. split; [reflexivity|].
  set (sent := if now0 - lastApiCall st <? API_RATE_LIMIT
               then now0 + (API_RATE_LIMIT - (now0 - lastApiCall st))
               else now0).
  unfold checkBalance_start. cbn [balanceCache lastApiCall clearBalanceCache].
  rewrite lookup_insert_eq, lookup_empty.
  split; [|split; [|split; [|reflexivity]]].
  - unfold sent. destruct (Z.ltb_spec (now0 - lastApiCall st) API_RATE_LIMIT);
      lia.
  - intros Hfresh. apply Z.ltb_lt in Hfresh. rewrite Hfresh. reflexivity.
  - intros Hold. apply Z.ltb_ge in Hold. rewrite Hold. reflexivity.
Qed.

Lemma checkBalance_cached_witness :
  let st1 := snd (checkBalance 5000 (fun _ => FinalBalance 150000000)
                               emptyApi "1A") in
  fst (checkBalance 5000 (fun _ => FinalBalance 150000000) emptyApi "1A")
  = Ok (150000000 # 100000000)%Q
  /\ lastApiCall st1 = Z.max 5000 (lastApiCall emptyApi + API_RATE_LIMIT)
  /\ (6000 - lastApiCall st1 < CACHE_DURATION ->
      checkBalance 6000 (fun _ => NetworkError) st1 "1A"
      = (Ok (150000000 # 100000000)%Q, st1))
  /\ (CACHE_DURATION <= 6000 - lastApiCall st1 ->
      checkBalance_start 6000 st1 "1A" = Request "1A")
  /\ checkBalance_start 6000 (clearBalanceCache st1) "1A" = Request "1A".
Proof.
  apply (checkBalance_cached 5000 6000 (fun _ => FinalBalance 150000000)
                             (fun _ => NetworkError) emptyApi "1A" 150000000).
  split; reflexivity.
Defined.

(** X19. A lookup that fails returns 0 and caches nothing: the cache
    is as before, so that the next lookup of the address starts as this
    one did. The failed request counts for the rate limit like any
    other. *)
Theorem failed_lookup_not_cached now fetch st address :
  lookupFails now fetch st address ->
  fst (checkBalance now fetch st address) = Ok 0%Q
  /\ balanceCache (snd (checkBalance now fetch st address)) = balanceCache st
  /\ lastApiCall (snd (checkBalance now fetch st address))
     = Z.max now (lastApiCall st + API_RATE_LIMIT)
  /\ forall now',
       checkBalance_start now' (snd (checkBalance now fetch st address)) address
       = checkBalance_start now' st address.
Proof.
  intros [Hstart Hfail]. unfold checkBalance. rewrite Hstart.
  unfold checkBalance_finish, checkBalance_try.
  assert (Hsent : (if now - lastApiCall st <? API_RATE_LIMIT
                   then now + (API_RATE_LIMIT - (now - lastApiCall st))
                   else now)
                  = Z.max now (lastApiCall st + API_RATE_LIMIT)).
  { destruct (Z.ltb_spec (now - lastApiCall st) API_RATE_LIMIT); lia. }
  rewrite Hsent.
  destruct (fetch address) as [|status| |s] eqn:Hf.
  - cbn. repeat split.
  - destruct (status =? 429); cbn; repeat split.
  - cbn. repeat split.
  - exfalso. apply (Hfail s). reflexivity.
Qed.

Lemma failed_lookup_not_cached_witness :
  fst (checkBalance 5000 (fun _ => HttpStatus 500) emptyApi "1A") = Ok 0%Q
  /\ balanceCache (snd (checkBalance 5000 (fun _ => HttpStatus 500) emptyApi "1A"))
     = balanceCache emptyApi
  /\ lastApiCall (snd (checkBalance 5000 (fun _ => HttpStatus 500) emptyApi "1A"))
     = Z.max 5000 (lastApiCall emptyApi + API_RATE_LIMIT)
  /\ forall now',
       checkBalance_start now'
         (snd (checkBalance 5000 (fun _ => HttpStatus 500) emptyApi "1A")) "1A"
       = checkBalance_start now' emptyApi "1A".
Proof.
  apply (failed_lookup_not_cached 5000 (fun _ => HttpStatus 500) emptyApi "1A").
  split; [reflexivity|]. intros s. discriminate.
Defined.

End BalanceCache.

(** ** Further properties of the hook *)

Section HookFacts.
Import UseInfiniteKeys.
Variable sha256 : list Z -> list Z.
Variable now : Z.

Lemma elem_of_map_id (i : string) (l : list BitcoinKey) :
  i ∈ map id l <-> exists k, In k l /\ id k = i.
Proof.
  rewrite list_elem_of_In, in_map_iff. split.
  - intros (k & Hk & Hin). eauto.
  - intros (k & Hin & Hk). eauto.
Qed.

(** The loop of [generateKeys] from any set of ids: the records it adds
    have pairwise distinct ids, none of which was in the set. *)
Lemma generateKeys_loop_ids start offsets : forall ids newKeys,
  exists ks,
    generateKeys_loop sha256 now start offsets ids newKeys
    = (newKeys ++ ks, list_to_set (map id ks) ∪ ids)
    /\ NoDup (map id ks)
    /\ (forall k, In k ks -> id k ∉ ids).
Proof.
  induction offsets as [|i rest IH]; intros ids newKeys.
  - exists []. cbn [generateKeys_loop map list_to_set].
    rewrite app_nil_r, (left_id_L ∅ (∪)).
    split; [reflexivity|]. split; [constructor|]. intros k [].
  - cbn [generateKeys_loop]. fold (keyId (start + i)).
    destruct (bool_decide (keyId (start + i) ∈ ids)) eqn:Hin; [apply IH|].
    apply bool_decide_eq_false in Hin.
    destruct (generateKeyAtIndex_ok sha256 now (start + i))
      as (key & Hk & Hid & _).
    rewrite Hk.
    destruct (IH ({[id key]} ∪ ids) (newKeys ++ [key]))
      as (ks & Hloop & Hnd & Hfresh).
    exists (key :: ks). rewrite Hloop, <- app_assoc. cbn [app map list_to_set].
    split; [|split].
    + f_equal. rewrite (assoc_L (∪)), (comm_L (∪) (list_to_set _)).
      reflexivity.
    + apply NoDup_cons. split; [|exact Hnd].
      intros Hmem. apply elem_of_map_id in Hmem as (k & Hkin & Hkid).
      apply (Hfresh k Hkin). rewrite Hkid.
      apply elem_of_union_l, elem_of_singleton. reflexivity.
    + intros k [<-|Hkin]; [rewrite Hid; exact Hin|].
      intros Hmem. apply (Hfresh k Hkin). apply elem_of_union_r. exact Hmem.
Qed.

Lemma NoDup_map_filter (f : BitcoinKey -> bool) l :
  NoDup (map id l) -> NoDup (map id (List.filter f l)).
Proof.
  induction l as [|k l IH]; intros Hnd; [constructor|].
  cbn [map] in Hnd. apply NoDup_cons in Hnd as [Hk Hnd].
  cbn [List.filter]. destruct (f k); [|auto].
  cbn [map]. apply NoDup_cons. split; [|auto].
  intros Hmem. apply Hk. apply elem_of_map_id in Hmem as (k' & Hin & Hid).
  apply elem_of_map_id. exists k'. apply filter_In in Hin as [Hin _]. auto.
Qed.

(** X20. [loadMore] keeps the ids of the loaded records pairwise
    distinct, from any state: the records it appends are new, it appends
    after the records there are, and the set of generated ids only
    grows. *)
Theorem loadMore_distinct st :
  NoDup (map id (keys st)) ->
  NoDup (map id (keys (loadMore sha256 now st)))
  /\ (exists added, keys (loadMore sha256 now st) = keys st ++ added)
  /\ generatedKeyIds st ⊆ generatedKeyIds (loadMore sha256 now st).
Proof.
  intros Hnd. unfold loadMore. destruct (loading st).
  { split; [exact Hnd|]. split; [exists []; now rewrite app_nil_r|].
    reflexivity. }
  unfold generateKeys.
  destruct (generateKeys_loop_ids (currentIndex st)
              (JS.upto (Z.to_nat BATCH_SIZE)) (generatedKeyIds st) [])
    as (ks & Hloop & Hks & _).
  rewrite Hloop. cbn [app keys generatedKeyIds].
  split; [|split].
  - rewrite map_app. apply NoDup_app. split; [exact Hnd|]. split.
    + intros i Hi Hmem. apply elem_of_map_id in Hmem as (k & Hin & Hid).
      apply filter_In in Hin as [_ Hf]. apply negb_true_iff in Hf.
      apply bool_decide_eq_false in Hf. apply Hf.
      rewrite elem_of_list_to_set, Hid. exact Hi.
    + apply NoDup_map_filter. exact Hks.
  - eexists. reflexivity.
  - apply union_subseteq_r.
Qed.

(** X21. [n] calls of [loadMore] in sequence, from the fresh state,
    leave the records of the indices 0 to 50 n - 1, in this order
    and with the ids [key-0], [key-1], ...; the cursor is at 50 n. *)
Theorem loadMore_iterated n :
  50 * Z.of_nat n <= 1000000000000 ->
  let st := loadMoreTimes sha256 now n in
  map index (keys st) = JS.upto (50 * n)
  /\ map id (keys st) = map keyId (JS.upto (50 * n))
  /\ currentIndex st = 50 * Z.of_nat n
  /\ loading st = false.
Proof.
  intros Hn. cbv zeta.
  assert (Hm : materialized (50 * Z.of_nat n) (loadMoreTimes sha256 now n)).
  { induction n as [|n IH]; [exact initialState_materialized|].
    unfold loadMoreTimes. cbn [Nat.iter]. fold (loadMoreTimes sha256 now n).
    replace (50 * Z.of_nat (S n)) with (50 * Z.of_nat n + 50) by lia.
    apply loadMore_materialized; [lia|lia|]. apply IH. lia. }
  destruct Hm as (Hl & Hc & Hids & Hidx & _).
  replace (Z.to_nat (50 * Z.of_nat n)) with (50 * n)%nat in * by lia.
  auto.
Qed.

(** *** The merge of [performSearch] *)

Lemma mapSet_In m k v e : In e (mapSet m k v) -> e = (k, v) \/ In e m.
Proof.
  induction m as [|[k' v'] m IH]; cbn [mapSet].
  - intros [<-|[]]. auto.
  - destruct (String.eqb k k').
    + intros [<-|H]; [auto|]. right. right. exact H.
    + intros [<-|H]; [right; left; reflexivity|].
      destruct (IH H); [auto|]. right. right. assumption.
Qed.

Lemma mapSet_keys m k v i :
  In i (map fst (mapSet m k v)) <-> i = k \/ In i (map fst m).
Proof.
  induction m as [|[k' v'] m IH]; cbn [mapSet map fst In].
  - intuition.
  - destruct (String.eqb_spec k k') as [->|Hne]; cbn [map fst In].
    + intuition.
    + rewrite IH. intuition.
Qed.

Lemma mapSet_NoDup m k v :
  NoDup (map fst m) -> NoDup (map fst (mapSet m k v)).
Proof.
  induction m as [|[k' v'] m IH]; cbn [mapSet map fst]; intros Hnd.
  - apply NoDup_cons. split; [apply not_elem_of_nil|constructor].
  - apply NoDup_cons in Hnd as [Hk Hnd].
    destruct (String.eqb_spec k k') as [->|Hne]; cbn [map fst].
    + apply NoDup_cons. auto.
    + apply NoDup_cons. split; [|auto].
      rewrite list_elem_of_In, mapSet_keys. intros [Heq|Hin]; [congruence|].
      apply Hk, list_elem_of_In, Hin.
Qed.

Lemma mapHas_spec m k : mapHas m k = true <-> In k (map fst m).
Proof.
  unfold mapHas. rewrite existsb_exists, in_map_iff. split.
  - intros (e & Hin & He). apply String.eqb_eq in He. eauto.
  - intros (e & He & Hin). exists e. split; [exact Hin|].
    apply String.eqb_eq. auto.
Qed.

Lemma merged_set L V m key :
  merged L V m ->
  (In key L \/ (In key V /\ ~ In (id key) (map id L))) ->
  merged L V (mapSet m (id key) key).
Proof.
  intros (Hf & Hnd & Hsrc) Hkey. split; [|split].
  - apply Forall_forall. intros e He.
    apply list_elem_of_In, mapSet_In in He as [->|He]; [reflexivity|].
    rewrite Forall_forall in Hf. apply Hf, list_elem_of_In, He.
  - apply mapSet_NoDup, Hnd.
  - intros e He. apply mapSet_In in He as [->|He]; [exact Hkey|auto].
Qed.

Lemma merge_loaded L V l : forall m,
  merged L V m -> (forall k, In k l -> In k L) ->
  merged L V (fold_left (fun m key => mapSet m (id key) key) l m)
  /\ forall i,
       In i (map fst (fold_left (fun m key => mapSet m (id key) key) l m))
       <-> In i (map fst m) \/ In i (map id l).
Proof.
  induction l as [|key l IH]; intros m Hm Hl; cbn [fold_left map In].
  - split; [exact Hm|]. intuition.
  - destruct (IH (mapSet m (id key) key)) as [Hm' Hk'].
    + apply merged_set; [exact Hm|]. left. apply Hl. left. reflexivity.
    + intros k Hk. apply Hl. right. exact Hk.
    + split; [exact Hm'|]. intros i. rewrite Hk', mapSet_keys. intuition.
Qed.

Lemma merge_virtual L V l : forall m,
  merged L V m -> (forall k, In k l -> In k V) ->
  (forall i, In i (map id L) -> In i (map fst m)) ->
  merged L V (fold_left (fun m key => if mapHas m (id key) then m
                                      else mapSet m (id key) key) l m)
  /\ forall i,
       In i (map fst (fold_left (fun m key => if mapHas m (id key) then m
                                              else mapSet m (id key) key) l m))
       <-> In i (map fst m) \/ In i (map id l).
Proof.
  induction l as [|key l IH]; intros m Hm Hl HL; cbn [fold_left map In].
  - split; [exact Hm|]. intuition.
  - destruct (mapHas m (id key)) eqn:Hhas.
    + destruct (IH m Hm) as [Hm' Hk'].
      * intros k Hk. apply Hl. right. exact Hk.
      * exact HL.
      * split; [exact Hm'|]. intros i. rewrite Hk'.
        apply mapHas_spec in Hhas. intuition. subst. auto.
    + assert (Hnew : ~ In (id key) (map fst m)).
      { intros Hin. apply mapHas_spec in Hin. congruence. }
      destruct (IH (mapSet m (id key) key)) as [Hm' Hk'].
      * apply merged_set; [exact Hm|]. right. split; [apply Hl; now left|].
        intros Hin. apply Hnew, HL, Hin.
      * intros k Hk. apply Hl. right. exact Hk.
      * intros i Hi. apply mapSet_keys. right. apply HL, Hi.
      * split; [exact Hm'|]. intros i. rewrite Hk', mapSet_keys. intuition.
Qed.

Lemma insertByIndex_perm k l : insertByIndex k l ≡ₚ k :: l.
Proof.
  induction l as [|k' l IH]; cbn [insertByIndex]; [reflexivity|].
  destruct (index k <=? index k'); [reflexivity|].
  rewrite IH. apply perm_swap.
Qed.

Lemma sortByIndex_perm l : sortByIndex l ≡ₚ l.
Proof.
  induction l as [|k l IH]; [reflexivity|].
  unfold sortByIndex in *. cbn [fold_right].
  rewrite insertByIndex_perm, IH. reflexivity.
Qed.

Lemma insertByIndex_sorted k l :
  indexSorted l -> indexSorted (insertByIndex k l).
Proof.
  induction l as [|k' l IH]; cbn [insertByIndex indexSorted].
  - intros _. split; [intros k'' []|exact I].
  - intros [Hk' Hl]. destruct (Z.leb_spec (index k) (index k')) as [Hle|Hgt].
    + cbn [indexSorted]. split; [|auto].
      intros k'' [<-|Hin]; [exact Hle|]. specialize (Hk' k'' Hin). lia.
    + cbn [indexSorted]. split; [|auto].
      intros k'' Hin.
      apply (Permutation_in _ (insertByIndex_perm k l)) in Hin.
      destruct Hin as [<-|Hin]; [lia|auto].
Qed.

Lemma sortByIndex_sorted l : indexSorted (sortByIndex l).
Proof.
  induction l as [|k l IH]; [exact I|].
  unfold sortByIndex in *. cbn [fold_right].
  apply insertByIndex_sorted, IH.
Qed.

(** The map [performSearch] builds from the two lists *)
Lemma combine_merged L V :
  exists m,
    combine L V = sortByIndex (map snd m)
    /\ merged L V m
    /\ (forall i, In i (map fst m) <-> In i (map id L) \/ In i (map id V)).
Proof.
  unfold combine.
  destruct (merge_loaded L V L []) as [Hm1 Hk1].
  { split; [constructor|]. split; [constructor|]. intros e []. }
  { auto. }
  set (m1 := fold_left (fun m key => mapSet m (id key) key) L []) in *.
  destruct (merge_virtual L V V m1 Hm1) as [Hm2 Hk2].
  { auto. }
  { intros i Hi. apply Hk1. right. exact Hi. }
  eexists. split; [reflexivity|]. split; [exact Hm2|].
  intros i. rewrite Hk2, Hk1. cbn [map In]. intuition.
Qed.

Lemma combine_In L V k :
  In k (combine L V) -> In k L \/ In k V.
Proof.
  destruct (combine_merged L V) as (m & -> & (_ & _ & Hsrc) & _).
  intros Hk. apply (Permutation_in _ (sortByIndex_perm _)) in Hk.
  apply in_map_iff in Hk as (e & <- & He).
  destruct (Hsrc e He) as [H|[H _]]; auto.
Qed.

(** X22. The list [performSearch] shows is merged without duplicates
    and in the order of the indices: its ids are pairwise distinct, they
    are the ids of the loaded matches and of the virtual matches, and
    where a loaded and a virtual record have one id the loaded record is
    the one kept. *)
Theorem combine_spec loaded virtualMatches :
  let shown := combine loaded virtualMatches in
  NoDup (map id shown)
  /\ indexSorted shown
  /\ (forall i, In i (map id shown)
                <-> In i (map id loaded) \/ In i (map id virtualMatches))
  /\ (forall k, In k shown ->
        In k loaded
        \/ (In k virtualMatches /\ ~ In (id k) (map id loaded))).
Proof.
  cbv zeta.
  destruct (combine_merged loaded virtualMatches)
    as (m & -> & (Hf & Hnd & Hsrc) & Hkeys).
  assert (Hids : map id (map snd m) = map fst m).
  { clear -Hf. induction Hf as [|e m He _ IH]; [reflexivity|].
    cbn [map]. rewrite IH, He. reflexivity. }
  pose proof (sortByIndex_perm (map snd m)) as Hperm.
  split; [|split; [|split]].
  - rewrite (Permutation_map id Hperm), Hids. exact Hnd.
  - apply sortByIndex_sorted.
  - intros i. rewrite <- Hkeys, <- Hids. split.
    + apply (Permutation_in _ (Permutation_map id Hperm)).
    + apply (Permutation_in _ (Permutation_sym (Permutation_map id Hperm))).
  - intros k Hk. apply (Permutation_in _ Hperm) in Hk.
    apply in_map_iff in Hk as (e & <- & He). apply Hsrc, He.
Qed.

(** *** A search that runs undisturbed *)

Lemma resumeAll_None n st : resumeAll sha256 now n st None = (st, None).
Proof. destruct n; reflexivity. Qed.

Lemma batchOf_ok t : exists batch, batchOf sha256 now t = Ok batch.
Proof.
  unfold batchOf.
  destruct (awaitAll_ok sha256 now
              (map (fun i => batchStart t + i)
                   (JS.upto (Z.to_nat (searchIndex t - batchStart t)))))
    as (batch & Hb).
  rewrite map_map in Hb. eauto.
Qed.

(** The loop over a batch keeps the results matching and counted. *)
Lemma scanBatch_invariant term batch : forall results ids count,
  Forall (fun k => matches term k = true) results ->
  count = Z.of_nat (length results) -> count < MAX_SEARCH_RESULTS ->
  exists results' ids' count',
    scanBatch false term batch (results, ids, count) = (results', ids', count')
    /\ Forall (fun k => matches term k = true) results'
    /\ count' = Z.of_nat (length results')
    /\ count' <= MAX_SEARCH_RESULTS.
Proof.
  induction batch as [|key batch IH]; intros results ids count Hm Hc Hlt.
  - exists results, ids, count. cbn. repeat split; auto. lia.
  - cbn [scanBatch]. destruct (bool_decide (id key ∈ ids)); [apply IH; auto|].
    destruct (matches term key) eqn:Hk; [|apply IH; auto].
    assert (Hm' : Forall (fun k => matches term k = true) (results ++ [key])).
    { apply Forall_app. split; [exact Hm|]. constructor; [exact Hk|constructor]. }
    assert (Hc' : count + 1 = Z.of_nat (length (results ++ [key]))).
    { rewrite length_app. cbn [length]. lia. }
    destruct (Z.leb_spec MAX_SEARCH_RESULTS (count + 1)) as [Hfull|Hroom].
    + eexists _, _, _. split; [reflexivity|]. repeat split; auto. lia.
    + apply IH; auto.
Qed.

(** From the settled batch to the pause *)
Lemma scanBody_invariant st t :
  searchInvariant st t -> foundCount t < MAX_SEARCH_RESULTS ->
  exists t',
    scanBody sha256 now st t = AwaitDelay t'
    /\ searchInvariant st t'
    /\ searchIndex t' = searchIndex t
    /\ loadedMatches t' = loadedMatches t
    /\ term t' = term t.
Proof.
  intros (Hc & Ha & Hm & Hn & Hle) Hlt. unfold scanBody.
  destruct (batchOf_ok t) as (batch & ->).
  unfold signalAborted. rewrite bool_decide_eq_false_2 by exact Ha.
  destruct (scanBatch_invariant (JS.toLowerCase (term t)) batch
              (results t) (foundKeyIds t) (foundCount t) Hm Hn Hlt)
    as (r' & i' & c' & -> & Hm' & Hn' & Hle').
  eexists. split; [reflexivity|].
  unfold searchInvariant. cbn. auto 10.
Qed.

(** A suspended search at its pause runs to its end, and
    [performSearch] with it, within two resumptions for each batch left
    and two more. *)
Lemma scan_runs r : forall st t,
  searchInvariant st t ->
  searchIndex t = 100000 - 1000 * Z.of_nat r ->
  exists t',
    resumeAll sha256 now (2 * r + 2) st (Some (AwaitDelay t))
    = (performSearch_finish st t', None)
    /\ searchInvariant st t'
    /\ loadedMatches t' = loadedMatches t
    /\ term t' = term t.
Proof.
  induction r as [|r IH]; intros st t Hinv Hidx.
  - exists t. cbn [Nat.mul Nat.add resumeAll resume]. unfold scanHead.
    replace (searchIndex t <? 100000) with false
      by (symmetry; apply Z.ltb_ge; lia).
    rewrite andb_false_r. cbn [resumeAll resume]. auto.
  - replace (2 * S r + 2)%nat with (S (S (2 * r + 2))) by lia.
    cbn [resumeAll resume]. unfold scanHead.
    destruct (Z.ltb_spec (foundCount t) MAX_SEARCH_RESULTS) as [Hlt|Hfull].
    + replace (searchIndex t <? 100000) with true
        by (symmetry; apply Z.ltb_lt; lia).
      cbn [andb]. destruct Hinv as (Hc & Ha & Hm & Hn & Hle).
      unfold signalAborted. rewrite bool_decide_eq_false_2 by exact Ha.
      set (t1 := {| signal := signal t; term := term t;
                    loadedMatches := loadedMatches t;
                    searchIndex :=
                      searchIndex t
                      + Z.min SEARCH_BATCH_SIZE (100000 - searchIndex t);
                    batchStart := searchIndex t;
                    results := results t;
                    foundKeyIds := foundKeyIds t;
                    foundCount := foundCount t |}).
      cbn [resumeAll resume].
      destruct (scanBody_invariant st t1) as (t2 & Hb & Hinv2 & Hi2 & Hl2 & Ht2).
      { unfold searchInvariant. cbn. auto. }
      { exact Hlt. }
      rewrite Hb.
      destruct (IH st t2 Hinv2) as (t' & Hrun & Hinv' & Hl' & Ht').
      { rewrite Hi2. cbn [t1 searchIndex]. unfold SEARCH_BATCH_SIZE. lia. }
      exists t'. rewrite Hrun. split; [reflexivity|]. split; [exact Hinv'|].
      split; [rewrite Hl', Hl2|rewrite Ht', Ht2]; reflexivity.
    + cbn [andb resumeAll resume]. rewrite resumeAll_None.
      exists t. auto.
Qed.

(** X23. A search that nothing interrupts ends: started with a term of
    three characters or more, [performSearch] has returned after at most
    201 resumptions (100 batches, each awaited and followed by a
    pause, and the return). It then shows the loaded matches merged with
    at most 100 virtual matches, every record shown matches the term,
    the search is marked completed and no longer loading, and the loaded
    records are untouched. *)
Theorem search_completes searchTerm st :
  wellNumbered st -> (3 <= String.length searchTerm)%nat ->
  exists st2 virtualMatches,
    (let '(st1, scan) := performSearch_start searchTerm st in
     resumeAll sha256 now 201 st1 scan) = (st2, None)
    /\ searchCompleted st2 = true
    /\ searchLoading st2 = false
    /\ keys st2 = keys st
    /\ searchResults st2
       = combine (List.filter (matches (JS.toLowerCase searchTerm)) (keys st))
                 virtualMatches
    /\ (length virtualMatches <= 100)%nat
    /\ (forall k, In k (searchResults st2) ->
                  matches (JS.toLowerCase searchTerm) k = true).
Proof.
  intros Hwf Hlen.
  rewrite (performSearch_start_searching searchTerm st Hwf Hlen).
  assert (Hinv0 : searchInvariant (searching st) (firstBatch searchTerm st)).
  { unfold searchInvariant. cbn. repeat split; auto.
    - intros Hin. apply (abortCurrent_bound st _ Hwf) in Hin. lia.
    - unfold MAX_SEARCH_RESULTS. lia. }
  change 201%nat with (S (2 * 99 + 2)). cbn [resumeAll resume].
  destruct (scanBody_invariant (searching st) (firstBatch searchTerm st) Hinv0)
    as (t2 & Hb & Hinv2 & Hi2 & Hl2 & Ht2).
  { cbn. unfold MAX_SEARCH_RESULTS. lia. }
  rewrite Hb.
  destruct (scan_runs 99 (searching st) t2 Hinv2) as (t' & Hrun & Hinv' & Hl' & Ht').
  { rewrite Hi2. reflexivity. }
  rewrite Hrun. destruct Hinv' as (Hc & Ha & Hm & Hn & Hle).
  destruct (performSearch_finish_shown (searching st) t' (signal t') Hc Ha)
    as (Hres & Hcomp & Hload & _ & _).
  exists (performSearch_finish (searching st) t'), (results t').
  assert (Hloaded : loadedMatches t'
                    = List.filter (matches (JS.toLowerCase searchTerm)) (keys st)).
  { rewrite Hl', Hl2. reflexivity. }
  assert (Hterm : term t' = searchTerm) by (rewrite Ht', Ht2; reflexivity).
  split; [reflexivity|]. split; [exact Hcomp|]. split; [exact Hload|].
  split; [|split; [|split]].
  - unfold performSearch_finish. rewrite Hc.
    rewrite bool_decide_eq_false_2 by exact Ha. reflexivity.
  - rewrite Hres, Hloaded. reflexivity.
  - unfold MAX_SEARCH_RESULTS in Hle. lia.
  - intros k Hk. rewrite Hres in Hk. apply combine_In in Hk as [Hk|Hk].
    + rewrite Hloaded in Hk. apply filter_In in Hk as [_ Hk]. exact Hk.
    + rewrite Forall_forall in Hm. rewrite <- Hterm.
      apply Hm, list_elem_of_In, Hk.
Qed.

(** *** Balance checks of a record *)




End HookFacts.

Lemma loadMore_distinct_witness :
  map id (keys loadedState) = map keyId (JS.upto 50)
  /\ NoDup (map id (keys (UseInfiniteKeys.loadMore Sha256.sha256 0
                            loadedState)))
  /\ (exists added,
         keys (UseInfiniteKeys.loadMore Sha256.sha256 0 loadedState)
         = keys loadedState ++ added)
  /\ generatedKeyIds loadedState
     ⊆ generatedKeyIds (UseInfiniteKeys.loadMore Sha256.sha256 0 loadedState).
Proof.
  assert (H : map id (keys loadedState) = map keyId (JS.upto 50)).
  { apply (loadMore_materialized Sha256.sha256 0 0 UseInfiniteKeys.initialState);
      [lia|lia|exact initialState_materialized]. }
  split; [exact H|].
  apply (loadMore_distinct Sha256.sha256 0 loadedState).
  rewrite H. apply (bool_decide_unpack _). vm_compute. exact I.
Defined.


Lemma loadMore_iterated_witness :
  let st := loadMoreTimes Sha256.sha256 0 3 in
  map index (keys st) = JS.upto (50 * 3)
  /\ map id (keys st) = map keyId (JS.upto (50 * 3))
  /\ currentIndex st = 50 * Z.of_nat 3
  /\ loading st = false.
Proof. apply (loadMore_iterated Sha256.sha256 0 3). lia. Defined.

Lemma search_completes_witness :
  exists st2 virtualMatches,
    (let '(st1, scan) :=
       UseInfiniteKeys.performSearch_start "abc" UseInfiniteKeys.initialState in
     resumeAll Sha256.sha256 0 201 st1 scan) = (st2, None)
    /\ searchCompleted st2 = true
    /\ searchLoading st2 = false
    /\ keys st2 = keys UseInfiniteKeys.initialState
    /\ searchResults st2
       = UseInfiniteKeys.combine
           (List.filter (UseInfiniteKeys.matches (JS.toLowerCase "abc"))
                        (keys UseInfiniteKeys.initialState))
           virtualMatches
    /\ (length virtualMatches <= 100)%nat
    /\ (forall k, In k (searchResults st2) ->
                  UseInfiniteKeys.matches (JS.toLowerCase "abc") k = true).
Proof.
  apply (search_completes Sha256.sha256 0 "abc" UseInfiniteKeys.initialState).
  - split; cbn; [intros c Hc; apply elem_of_empty in Hc; contradiction|].
    intros c Hc. discriminate.
  - cbn. lia.
Defined.

(** ** Bech32 *)

Section Bech32Checksum.
Import Bech32.

Lemma lxor_bound n a b :
  0 <= n -> 0 <= a < 2 ^ n -> 0 <= b < 2 ^ n -> 0 <= Z.lxor a b < 2 ^ n.
Proof.
  intros Hn Ha Hb.
  assert (H0 : 0 <= Z.lxor a b) by (apply Z.lxor_nonneg; lia).
  split; [exact H0|].
  destruct (Z.eq_dec (Z.lxor a b) 0) as [->|Hne];
    [apply Z.pow_pos_nonneg; lia|].
  apply Z.log2_lt_pow2; [lia|].
  pose proof (Z.log2_lxor a b ltac:(lia) ltac:(lia)) as Hl.
  assert (La : Z.log2 a < n \/ a = 0).
  { destruct (Z.eq_dec a 0); [auto|]. left. apply Z.log2_lt_pow2; lia. }
  assert (Lb : Z.log2 b < n \/ b = 0).
  { destruct (Z.eq_dec b 0); [auto|]. left. apply Z.log2_lt_pow2; lia. }
  destruct La as [La| ->], Lb as [Lb| ->];
    rewrite ?Z.lxor_0_r, ?Z.lxor_0_l in *; lia.
Qed.

Lemma GEN_bound i : 0 <= nth i GEN 0 < 2 ^ 30.
Proof.
  unfold GEN.
  destruct i as [|[|[|[|[|[|i]]]]]]; cbn [nth]; lia.
Qed.

Lemma land_1_testbit x i :
  0 <= i -> (Z.land (Z.shiftr x i) 1 =? 0) = negb (Z.testbit x i).
Proof.
  intros Hi. change 1 with (Z.ones 1). rewrite Z.land_ones by lia.
  change (2 ^ 1) with 2. rewrite <- Z.bit0_mod, Z.shiftr_spec by lia.
  rewrite Z.add_0_l. destruct (Z.testbit x i); reflexivity.
Qed.

(** The inner loop of [polymod], coercions removed *)
Lemma polymod_inner top l : forall chk,
  0 <= top < 2 ^ 31 -> 0 <= chk < 2 ^ 30 ->
  Forall (fun i => 0 <= i < 32) l ->
  fold_left (fun chk i => JS.bxor chk (if JS.band (JS.sar top i) 1 =? 0 then 0
                                       else nth (Z.to_nat i) GEN 0)) l chk
  = fold_left (fun chk i => Z.lxor chk (if Z.testbit top i
                                        then nth (Z.to_nat i) GEN 0 else 0)) l chk
  /\ 0 <= fold_left (fun chk i => Z.lxor chk (if Z.testbit top i
                                        then nth (Z.to_nat i) GEN 0 else 0)) l chk
     < 2 ^ 30.
Proof.
  induction l as [|i l IH]; intros chk Ht Hc Hl; [cbn; auto|].
  inversion Hl as [|? ? Hi Hl']; subst. cbn [fold_left].
  set (g := if Z.testbit top i then nth (Z.to_nat i) GEN 0 else 0).
  assert (Hg : 0 <= g < 2 ^ 30).
  { unfold g. destruct (Z.testbit top i); [apply GEN_bound|lia]. }
  assert (Hsel : (if JS.band (JS.sar top i) 1 =? 0 then 0
                  else nth (Z.to_nat i) GEN 0) = g).
  { unfold JS.band, JS.sar. rewrite (toInt32_small top) by lia.
    rewrite (Z.mod_small i 32) by lia.
    assert (Hs : 0 <= Z.shiftr top i < 2 ^ 31).
    { rewrite Z.shiftr_div_pow2 by lia. split; [apply Z.div_pos; lia|].
      apply Z.div_lt_upper_bound; [apply Z.pow_pos_nonneg; lia|].
      assert (1 <= 2 ^ i) by (apply (Z.pow_le_mono_r 2 0 i); lia). nia. }
    rewrite (toInt32_small (Z.shiftr top i)) by lia.
    rewrite (toInt32_small 1) by lia.
    rewrite land_1_testbit by lia. unfold g.
    destruct (Z.testbit top i); reflexivity. }
  rewrite Hsel. unfold JS.bxor.
  rewrite (toInt32_small chk), (toInt32_small g) by lia.
  apply IH; auto. apply lxor_bound; lia.
Qed.

Lemma fold_left_cons {A B} (f : A -> B -> A) v l a :
  fold_left f (v :: l) a = fold_left f l (f a v).
Proof. reflexivity. Qed.

Lemma polymod_body values : polymod values = fold_left polymodBody values 1.
Proof. unfold polymod, polymodBody. reflexivity. Qed.

(** One step of [polymod] is [polymodStep], and stays below 2^30. *)
Lemma polymod_step chk value :
  0 <= chk < 2 ^ 30 -> 0 <= value < 2 ^ 30 ->
  polymodBody chk value = polymodStep chk value
  /\ 0 <= polymodStep chk value < 2 ^ 30.
Proof.
  intros Hc Hv. unfold polymodBody, polymodStep. cbv zeta.
  assert (Htop : JS.sar chk 25 = Z.shiftr chk 25).
  { unfold JS.sar. rewrite toInt32_small by lia. reflexivity. }
  assert (Ht : 0 <= Z.shiftr chk 25 < 2 ^ 31).
  { rewrite Z.shiftr_div_pow2 by lia. split; [apply Z.div_pos; lia|].
    apply Z.div_lt_upper_bound; lia. }
  assert (Hl : 0 <= Z.land chk 0x1ffffff < 2 ^ 25).
  { change 0x1ffffff with (Z.ones 25). rewrite Z.land_ones by lia.
    apply Z.mod_pos_bound. lia. }
  assert (Hs : 0 <= Z.shiftl (Z.land chk 0x1ffffff) 5 < 2 ^ 30).
  { rewrite Z.shiftl_mul_pow2 by lia. change (2 ^ 30) with (2 ^ 25 * 2 ^ 5).
    nia. }
  assert (Hinit : JS.bxor (JS.shl (JS.band chk 0x1ffffff) 5) value
                  = Z.lxor (Z.shiftl (Z.land chk 0x1ffffff) 5) value).
  { unfold JS.bxor, JS.shl, JS.band.
    rewrite (toInt32_small chk), (toInt32_small 0x1ffffff) by lia.
    rewrite (toInt32_small (Z.land chk 0x1ffffff)) by lia.
    change (5 mod 32) with 5.
    rewrite (toInt32_small (Z.shiftl _ 5)) by lia.
    rewrite (toInt32_small (Z.shiftl _ 5)), (toInt32_small value) by lia.
    reflexivity. }
  rewrite Htop, Hinit. apply polymod_inner; [exact Ht| |].
  - apply lxor_bound; lia.
  - unfold JS.upto. cbn. repeat constructor; lia.
Qed.

(** [polymod] is [polymodFrom 1] on values below 2^30. *)
Lemma polymod_fold values : forall chk,
  0 <= chk < 2 ^ 30 -> Forall (fun v => 0 <= v < 2 ^ 30) values ->
  fold_left polymodBody values chk = polymodFrom chk values
  /\ 0 <= polymodFrom chk values < 2 ^ 30.
Proof.
  induction values as [|v values IH]; intros chk Hc Hv.
  - split; [reflexivity|exact Hc].
  - inversion Hv as [|? ? Hv1 Hv']; subst.
    destruct (polymod_step chk v Hc Hv1) as [Hs Hb].
    destruct (IH (polymodStep chk v) Hb Hv') as [IH1 IH2].
    split.
    + rewrite fold_left_cons, Hs. exact IH1.
    + exact IH2.
Qed.

Lemma polymod_pure values :
  Forall (fun v => 0 <= v < 2 ^ 30) values ->
  polymod values = polymodFrom 1 values
  /\ 0 <= polymodFrom 1 values < 2 ^ 30.
Proof.
  intros Hv. rewrite polymod_body. apply polymod_fold; [lia|exact Hv].
Qed.

(** *** Linearity *)

Lemma lxor_swap4 a b c d :
  Z.lxor (Z.lxor a b) (Z.lxor c d) = Z.lxor (Z.lxor a c) (Z.lxor b d).
Proof.
  rewrite !Z.lxor_assoc. f_equal. rewrite <- !Z.lxor_assoc. f_equal.
  apply Z.lxor_comm.
Qed.

Lemma land_lxor_distr a b c :
  Z.land (Z.lxor a b) c = Z.lxor (Z.land a c) (Z.land b c).
Proof.
  apply Z.bits_inj'. intros n _.
  rewrite Z.land_spec, !Z.lxor_spec, !Z.land_spec.
  destruct (Z.testbit a n), (Z.testbit b n), (Z.testbit c n); reflexivity.
Qed.

Lemma select_lxor g s t i :
  (if Z.testbit (Z.lxor s t) i then g else 0)
  = Z.lxor (if Z.testbit s i then g else 0) (if Z.testbit t i then g else 0).
Proof.
  rewrite Z.lxor_spec.
  destruct (Z.testbit s i), (Z.testbit t i); cbn [xorb];
    rewrite ?Z.lxor_nilpotent, ?Z.lxor_0_l, ?Z.lxor_0_r; reflexivity.
Qed.

Lemma inner_lxor s t l : forall c d,
  fold_left (fun chk i => Z.lxor chk (if Z.testbit (Z.lxor s t) i
                                      then nth (Z.to_nat i) GEN 0 else 0))
            l (Z.lxor c d)
  = Z.lxor
      (fold_left (fun chk i => Z.lxor chk (if Z.testbit s i
                                           then nth (Z.to_nat i) GEN 0 else 0))
                 l c)
      (fold_left (fun chk i => Z.lxor chk (if Z.testbit t i
                                           then nth (Z.to_nat i) GEN 0 else 0))
                 l d).
Proof.
  induction l as [|i l IH]; intros c d; [reflexivity|].
  cbn [fold_left]. rewrite select_lxor, lxor_swap4. apply IH.
Qed.

Lemma polymodStep_lxor a b v w :
  polymodStep (Z.lxor a b) (Z.lxor v w)
  = Z.lxor (polymodStep a v) (polymodStep b w).
Proof.
  unfold polymodStep. cbv zeta.
  rewrite Z.shiftr_lxor, land_lxor_distr, Z.shiftl_lxor, lxor_swap4.
  apply inner_lxor.
Qed.

Lemma polymodFrom_lxor values : forall a b,
  polymodFrom (Z.lxor a b) values
  = Z.lxor (polymodFrom a (map (fun _ => 0) values)) (polymodFrom b values).
Proof.
  induction values as [|v values IH]; intros a b; [reflexivity|].
  unfold polymodFrom in *. cbn [map fold_left].
  rewrite <- (Z.lxor_0_l v) at 1. rewrite polymodStep_lxor. apply IH.
Qed.

(** *** Six values of five bits from the state 0 *)

Lemma polymodStep_shift a v :
  0 <= a < 2 ^ 25 -> fiveBit v -> polymodStep a v = a * 32 + v.
Proof.
  intros Ha Hv. unfold fiveBit in Hv. unfold polymodStep. cbv zeta.
  rewrite (Z.shiftr_div_pow2 a 25), (Z.div_small a (2 ^ 25)) by lia.
  change (JS.upto 5) with [0; 1; 2; 3; 4]. cbn [fold_left].
  rewrite !Z.bits_0, !Z.lxor_0_r.
  change 0x1ffffff with (Z.ones 25).
  rewrite Z.land_ones, Z.mod_small, Z.shiftl_mul_pow2 by lia.
  change (2 ^ 5) with 32. symmetry. apply Z.add_nocarry_lxor.
  apply Z.bits_inj'. intros n Hn. rewrite Z.land_spec, Z.bits_0.
  destruct (Z.lt_ge_cases n 5) as [Hlt|Hge].
  - change 32 with (2 ^ 5). rewrite Z.mul_pow2_bits_low by lia. reflexivity.
  - assert (Hf : Z.testbit v n = false).
    { apply Z.testbit_false; [lia|].
      rewrite Z.div_small; [reflexivity|].
      split; [lia|]. apply Z.lt_le_trans with (2 ^ 5); [lia|].
      apply Z.pow_le_mono_r; lia. }
    rewrite Hf. apply andb_false_r.
Qed.

Lemma polymodFrom_shift values : forall a,
  Forall fiveBit values -> (length values <= 6)%nat ->
  0 <= a < 32 ^ (6 - Z.of_nat (length values)) ->
  polymodFrom a values = fold_left (fun acc v => acc * 32 + v) values a.
Proof.
  induction values as [|v values IH]; intros a Hv Hlen Ha; [reflexivity|].
  inversion Hv as [|? ? Hv1 Hv']; subst. cbn [length] in *.
  unfold polymodFrom in *. cbn [fold_left].
  assert (Hp : 32 ^ (6 - Z.of_nat (S (length values))) <= 2 ^ 25).
  { change (2 ^ 25) with (32 ^ 5). apply Z.pow_le_mono_r; lia. }
  rewrite polymodStep_shift by (auto; lia).
  apply IH; [exact Hv'|lia|].
  unfold fiveBit in Hv1.
  replace (6 - Z.of_nat (length values))
    with (1 + (6 - Z.of_nat (S (length values)))) by lia.
  rewrite Z.pow_add_r by lia. change (32 ^ 1) with 32. lia.
Qed.

Lemma polymodFrom_0 values :
  Forall fiveBit values -> (length values <= 6)%nat ->
  polymodFrom 0 values = fromFiveBit values.
Proof.
  intros Hv Hlen. unfold fromFiveBit. apply polymodFrom_shift; auto.
  split; [lia|]. apply Z.pow_pos_nonneg; lia.
Qed.

Lemma polymodFrom_app a l1 l2 :
  polymodFrom a (l1 ++ l2) = polymodFrom (polymodFrom a l1) l2.
Proof. unfold polymodFrom. apply fold_left_app. Qed.

(** The six groups of five bits of a number below 2^30 denote it. *)
Lemma fromFiveBit_groups m :
  0 <= m < 2 ^ 30 -> fromFiveBit (toFiveBit m) = m.
Proof.
  intros Hm. unfold fromFiveBit, toFiveBit.
  change (JS.upto 6) with [0; 1; 2; 3; 4; 5]. cbn [map fold_left].
  change 31 with (Z.ones 5). rewrite !Z.land_ones by lia.
  rewrite !Z.shiftr_div_pow2 by lia.
  change (2 ^ (5 * (5 - 0))) with (32 * (32 * (32 * (32 * 32)))).
  change (2 ^ (5 * (5 - 1))) with (32 * (32 * (32 * 32))).
  change (2 ^ (5 * (5 - 2))) with (32 * (32 * 32)).
  change (2 ^ (5 * (5 - 3))) with (32 * 32).
  change (2 ^ (5 * (5 - 4))) with 32.
  change (2 ^ (5 * (5 - 5))) with 1.
  change (2 ^ 5) with 32. change (2 ^ 30) with 1073741824 in Hm.
  rewrite <- !Z.div_div by lia. rewrite Z.div_1_r.
  set (q1 := m / 32). set (q2 := q1 / 32). set (q3 := q2 / 32).
  set (q4 := q3 / 32). set (q5 := q4 / 32).
  pose proof (Z.div_mod m 32 ltac:(lia)) as E0.
  pose proof (Z.mod_pos_bound m 32 ltac:(lia)) as B0.
  pose proof (Z.div_mod q1 32 ltac:(lia)) as E1.
  pose proof (Z.mod_pos_bound q1 32 ltac:(lia)) as B1.
  pose proof (Z.div_mod q2 32 ltac:(lia)) as E2.
  pose proof (Z.mod_pos_bound q2 32 ltac:(lia)) as B2.
  pose proof (Z.div_mod q3 32 ltac:(lia)) as E3.
  pose proof (Z.mod_pos_bound q3 32 ltac:(lia)) as B3.
  pose proof (Z.div_mod q4 32 ltac:(lia)) as E4.
  pose proof (Z.mod_pos_bound q4 32 ltac:(lia)) as B4.
  pose proof (Z.div_mod q5 32 ltac:(lia)) as E5.
  pose proof (Z.mod_pos_bound q5 32 ltac:(lia)) as B5.
  fold q1 in E0. fold q2 in E1. fold q3 in E2. fold q4 in E3. fold q5 in E4.
  assert (H5 : q5 / 32 = 0).
  { apply Z.div_small. split; [lia|]. clearbody q1 q2 q3 q4 q5.
    generalize dependent (m mod 32). generalize dependent (q1 mod 32).
    generalize dependent (q2 mod 32). generalize dependent (q3 mod 32).
    generalize dependent (q4 mod 32). generalize dependent (q5 mod 32).
    intros. lia. }
  rewrite H5 in E5. clearbody q1 q2 q3 q4 q5.
  generalize dependent (m mod 32). generalize dependent (q1 mod 32).
  generalize dependent (q2 mod 32). generalize dependent (q3 mod 32).
  generalize dependent (q4 mod 32). generalize dependent (q5 mod 32).
  intros. lia.
Qed.

Lemma hrpExpand_fiveBit hrp : Forall fiveBit (hrpExpand hrp).
Proof.
  unfold hrpExpand, charCodes.
  assert (Hc : forall c : ascii, 0 <= Z.of_nat (nat_of_ascii c) < 256).
  { intros c. pose proof (nat_ascii_bounded c). lia. }
  apply Forall_app. split; [|apply Forall_app; split].
  - rewrite map_map. induction (list_ascii_of_string hrp) as [|c l IH];
      constructor; [|exact IH].
    unfold fiveBit, JS.sar. specialize (Hc c).
    rewrite toInt32_small by lia. change (5 mod 32) with 5.
    rewrite Z.shiftr_div_pow2 by lia. split; [apply Z.div_pos; lia|].
    apply Z.div_lt_upper_bound; lia.
  - constructor; [unfold fiveBit; lia|constructor].
  - rewrite map_map. induction (list_ascii_of_string hrp) as [|c l IH];
      constructor; [|exact IH].
    unfold fiveBit, JS.band. specialize (Hc c).
    rewrite !toInt32_small by lia.
    change 31 with (Z.ones 5). rewrite Z.land_ones by lia.
    apply Z.mod_pos_bound. lia.
Qed.

Lemma fiveBit_30 l : Forall fiveBit l -> Forall (fun v => 0 <= v < 2 ^ 30) l.
Proof.
  intros H. eapply Forall_impl; [exact H|].
  unfold fiveBit. intros v Hv. lia.
Qed.

Lemma createChecksum_value hrp data :
  Forall fiveBit data ->
  createChecksum hrp data
  = toFiveBit (Z.lxor (polymodFrom 1 (hrpExpand hrp ++ data
                                      ++ [0; 0; 0; 0; 0; 0])) 1)
  /\ 0 <= Z.lxor (polymodFrom 1 (hrpExpand hrp ++ data
                                  ++ [0; 0; 0; 0; 0; 0])) 1 < 2 ^ 30.
Proof.
  intros Hd. unfold createChecksum.
  destruct (polymod_pure (hrpExpand hrp ++ data ++ [0; 0; 0; 0; 0; 0]))
    as [Hp Hb].
  { apply fiveBit_30. apply Forall_app. split; [apply hrpExpand_fiveBit|].
    apply Forall_app. split; [exact Hd|].
    repeat constructor; unfold fiveBit; lia. }
  rewrite Hp. set (P := polymodFrom 1 _) in *.
  assert (Hm : 0 <= Z.lxor P 1 < 2 ^ 30) by (apply lxor_bound; lia).
  split; [|exact Hm]. unfold toFiveBit.
  unfold JS.bxor. rewrite (toInt32_small P), (toInt32_small 1) by lia.
  change (JS.upto 6) with [0; 1; 2; 3; 4; 5]. cbn [map].
  unfold JS.band, JS.sar. rewrite (toInt32_small (Z.lxor P 1)) by lia.
  rewrite (toInt32_small 31) by lia.
  change (5 * (5 - 0) mod 32) with (5 * (5 - 0)).
  change (5 * (5 - 1) mod 32) with (5 * (5 - 1)).
  change (5 * (5 - 2) mod 32) with (5 * (5 - 2)).
  change (5 * (5 - 3) mod 32) with (5 * (5 - 3)).
  change (5 * (5 - 4) mod 32) with (5 * (5 - 4)).
  change (5 * (5 - 5) mod 32) with (5 * (5 - 5)).
  assert (Hs : forall k, 0 <= k ->
                 JS.toInt32 (Z.shiftr (Z.lxor P 1) k) = Z.shiftr (Z.lxor P 1) k).
  { intros k Hk. apply toInt32_small. rewrite Z.shiftr_div_pow2 by lia.
    split; [apply Z.div_pos; [lia|apply Z.pow_pos_nonneg; lia]|].
    apply Z.div_lt_upper_bound; [apply Z.pow_pos_nonneg; lia|].
    assert (1 <= 2 ^ k) by (apply (Z.pow_le_mono_r 2 0 k); lia). nia. }
  rewrite !Hs by lia. reflexivity.
Qed.

Lemma createChecksum_fiveBit hrp data :
  Forall fiveBit data ->
  Forall fiveBit (createChecksum hrp data)
  /\ length (createChecksum hrp data) = 6%nat.
Proof.
  intros Hd. destruct (createChecksum_value hrp data Hd) as [-> _].
  split; [|reflexivity]. unfold toFiveBit.
  apply Forall_map, Forall_forall. intros i _. unfold fiveBit.
  change 31 with (Z.ones 5). rewrite Z.land_ones by lia.
  apply Z.mod_pos_bound. lia.
Qed.

(** [polymod] on values that end in six values of five bits: the six
    values are XORed onto the state six zeros give. *)
Lemma polymod_tail hrp data c :
  Forall fiveBit data -> Forall fiveBit c -> length c = 6%nat ->
  polymod (hrpExpand hrp ++ data ++ c)
  = Z.lxor (polymodFrom 1 (hrpExpand hrp ++ data ++ [0; 0; 0; 0; 0; 0]))
           (fromFiveBit c).
Proof.
  intros Hd Hc Hlen.
  destruct (polymod_pure (hrpExpand hrp ++ data ++ c)) as [-> _].
  { apply fiveBit_30. apply Forall_app. split; [apply hrpExpand_fiveBit|].
    apply Forall_app. split; assumption. }
  rewrite !(app_assoc (hrpExpand hrp)).
  rewrite (polymodFrom_app 1 (hrpExpand hrp ++ data) c).
  rewrite (polymodFrom_app 1 (hrpExpand hrp ++ data) [0; 0; 0; 0; 0; 0]).
  generalize (polymodFrom 1 (hrpExpand hrp ++ data)). intros S.
  rewrite <- (Z.lxor_0_r S) at 1. rewrite polymodFrom_lxor.
  rewrite (polymodFrom_0 c Hc) by (rewrite Hlen; lia).
  do 7 (destruct c as [|? c]; try discriminate). reflexivity.
Qed.

Lemma toFiveBit_fromFiveBit c :
  Forall fiveBit c -> length c = 6%nat -> toFiveBit (fromFiveBit c) = c.
Proof.
  intros Hc Hlen.
  do 7 (destruct c as [|? c]; try discriminate).
  repeat match goal with
         | H : Forall _ (_ :: _) |- _ =>
             let H1 := fresh "B" in
             apply Forall_cons in H as [H1 H]; unfold fiveBit in H1
         end.
  unfold toFiveBit, fromFiveBit.
  change (JS.upto 6) with [0; 1; 2; 3; 4; 5]. cbn [map fold_left].
  change 31 with (Z.ones 5). rewrite !Z.land_ones by lia.
  rewrite !Z.shiftr_div_pow2 by lia.
  change (2 ^ (5 * (5 - 0))) with 33554432.
  change (2 ^ (5 * (5 - 1))) with 1048576.
  change (2 ^ (5 * (5 - 2))) with 32768.
  change (2 ^ (5 * (5 - 3))) with 1024.
  change (2 ^ (5 * (5 - 4))) with 32.
  change (2 ^ (5 * (5 - 5))) with 1.
  change (2 ^ 5) with 32.
  repeat f_equal.
  - symmetry. apply (Z.mod_unique _ _ 0); [lia|].
    symmetry. apply (Z.div_unique _ _ _ (((z0 * 32 + z1) * 32 + z2) * 32 * 32 + z3 * 32 + z4)); lia.
  - symmetry. apply (Z.mod_unique _ _ z); [lia|].
    symmetry. apply (Z.div_unique _ _ _ ((z1 * 32 + z2) * 32 * 32 + z3 * 32 + z4)); lia.
  - symmetry. apply (Z.mod_unique _ _ (z * 32 + z0)); [lia|].
    symmetry. apply (Z.div_unique _ _ _ (z2 * 32 * 32 + z3 * 32 + z4)); lia.
  - symmetry. apply (Z.mod_unique _ _ ((z * 32 + z0) * 32 + z1)); [lia|].
    symmetry. apply (Z.div_unique _ _ _ (z3 * 32 + z4)); lia.
  - symmetry. apply (Z.mod_unique _ _ (((z * 32 + z0) * 32 + z1) * 32 + z2)); [lia|].
    symmetry. apply (Z.div_unique _ _ _ z4); lia.
  - rewrite Z.div_1_r. symmetry.
    apply (Z.mod_unique _ _ ((((z * 32 + z0) * 32 + z1) * 32 + z2) * 32 + z3)); lia.
Qed.

(** Six values of five bits that verify are the checksum. *)
Lemma checksum_unique hrp data c :
  Forall fiveBit data -> Forall fiveBit c -> length c = 6%nat ->
  verifyChecksum hrp (data ++ c) = true -> c = createChecksum hrp data.
Proof.
  intros Hd Hc Hlen. unfold verifyChecksum.
  rewrite Z.eqb_eq, (polymod_tail hrp data c Hd Hc Hlen).
  destruct (createChecksum_value hrp data Hd) as [-> Hm].
  set (P := polymodFrom 1 (hrpExpand hrp ++ data ++ [0; 0; 0; 0; 0; 0])) in *.
  intros H1.
  assert (HN : fromFiveBit c = Z.lxor P 1).
  { apply (lxor_cancel_l P). rewrite H1, <- Z.lxor_assoc, Z.lxor_nilpotent.
    reflexivity. }
  rewrite <- HN. symmetry. apply toFiveBit_fromFiveBit; assumption.
Qed.

(** X25. [verifyChecksum] accepts data followed by six values of five
    bits exactly when the six values are the checksum [createChecksum]
    computes for the data: the checksum verifies, and no other one
    does. *)
Theorem verifyChecksum_iff hrp data c :
  Forall fiveBit data -> Forall fiveBit c -> length c = 6%nat ->
  verifyChecksum hrp (data ++ c) = true <-> c = createChecksum hrp data.
Proof.
  intros Hd Hc Hlen. split.
  - apply checksum_unique; assumption.
  - intros ->. unfold verifyChecksum.
    rewrite Z.eqb_eq, (polymod_tail hrp data _ Hd Hc Hlen).
    destruct (createChecksum_value hrp data Hd) as [-> Hm].
    rewrite fromFiveBit_groups by exact Hm.
    rewrite <- Z.lxor_assoc, Z.lxor_nilpotent, Z.lxor_0_l. reflexivity.
Qed.

Lemma verifyChecksum_iff_witness :
  verifyChecksum "bc" ([0; 14; 20] ++ [26; 22; 26; 8; 30; 22]) = true
  <-> [26; 22; 26; 8; 30; 22] = createChecksum "bc" [0; 14; 20].
Proof.
  apply (verifyChecksum_iff "bc" [0; 14; 20] [26; 22; 26; 8; 30; 22]).
  - repeat constructor; unfold fiveBit; lia.
  - repeat constructor; unfold fiveBit; lia.
  - reflexivity.
Defined.

(** *** Text *)

Lemma bech32_alphabet_check :
  forallb
    (fun d =>
       match String.get (Z.to_nat d) BECH32_ALPHABET with
       | Some c => (JS.indexOf c BECH32_ALPHABET =? d)
                   && negb (Ascii.eqb "1" c)
       | None => false
       end)
    (JS.upto 32) = true.
Proof. vm_compute. reflexivity. Qed.

Lemma bech32_digit d :
  fiveBit d ->
  exists c, JS.strAt BECH32_ALPHABET d = String c EmptyString
            /\ JS.indexOf c BECH32_ALPHABET = d
            /\ Ascii.eqb "1" c = false.
Proof.
  intros Hd. unfold fiveBit in Hd. pose proof bech32_alphabet_check as Hc.
  rewrite forallb_forall in Hc. specialize (Hc d).
  assert (Hin : In d (JS.upto 32)) by (apply in_upto; lia).
  specialize (Hc Hin). unfold JS.strAt.
  replace (d <? 0) with false by (symmetry; apply Z.ltb_ge; lia).
  destruct (String.get (Z.to_nat d) BECH32_ALPHABET) as [c|]; [|discriminate].
  apply andb_prop in Hc as [Hidx Hone].
  exists c. split; [reflexivity|]. split; [apply Z.eqb_eq, Hidx|].
  apply negb_true_iff, Hone.
Qed.

Lemma bech32Text_cons d values :
  fiveBit d ->
  exists c, bech32Text (d :: values) = String c (bech32Text values)
            /\ JS.indexOf c BECH32_ALPHABET = d
            /\ Ascii.eqb "1" c = false.
Proof.
  intros Hd. destruct (bech32_digit d Hd) as (c & Hc & Hi & H1).
  exists c. unfold bech32Text. cbn [fold_right].
  rewrite Hc, append_cons, append_nil_l. auto.
Qed.

Lemma bech32Text_length values :
  Forall fiveBit values -> String.length (bech32Text values) = length values.
Proof.
  induction 1 as [|d values Hd _ IH]; [reflexivity|].
  destruct (bech32Text_cons d values Hd) as (c & -> & _).
  cbn [String.length length]. rewrite IH. reflexivity.
Qed.

Lemma encode_text hrp data :
  encode hrp data
  = hrp +:+ "1" +:+ bech32Text (data ++ createChecksum hrp data).
Proof.
  unfold encode. cbv zeta.
  generalize (data ++ createChecksum hrp data). intros l.
  rewrite <- append_assoc. generalize (hrp +:+ "1"). intros p.
  revert p. induction l as [|d l IH]; intros p; cbn [fold_left].
  - unfold bech32Text. cbn [fold_right]. rewrite append_nil_r. reflexivity.
  - rewrite IH. unfold bech32Text. cbn [fold_right].
    rewrite append_assoc. reflexivity.
Qed.

Lemma lastIndexOf_from_app c s1 : forall s2 pos last,
  JS.lastIndexOf_from c (s1 +:+ s2) pos last
  = JS.lastIndexOf_from c s2 (pos + Z.of_nat (String.length s1))
                        (JS.lastIndexOf_from c s1 pos last).
Proof.
  induction s1 as [|d s1 IH]; intros s2 pos last.
  - rewrite append_nil_l. cbn [String.length JS.lastIndexOf_from].
    rewrite Z.add_0_r. reflexivity.
  - rewrite append_cons. cbn [JS.lastIndexOf_from String.length].
    rewrite IH. f_equal. lia.
Qed.

Lemma lastIndexOf_from_text c values : forall pos last,
  Forall fiveBit values -> c = "1"%char ->
  JS.lastIndexOf_from c (bech32Text values) pos last = last.
Proof.
  induction values as [|d values IH]; intros pos last Hv ->; [reflexivity|].
  inversion Hv as [|? ? Hd Hv']; subst.
  destruct (bech32Text_cons d values Hd) as (c & -> & _ & H1).
  cbn [JS.lastIndexOf_from]. rewrite H1. apply IH; auto.
Qed.

Lemma substring_prefix p s :
  String.substring 0 (String.length p) (p +:+ s) = p.
Proof.
  induction p as [|c p IH].
  - rewrite append_nil_l. apply substring_0_0.
  - rewrite append_cons. cbn [String.length String.substring].
    rewrite IH. reflexivity.
Qed.

Lemma substring_skip p s m :
  String.substring (String.length p) m (p +:+ s) = String.substring 0 m s.
Proof.
  induction p as [|c p IH].
  - rewrite append_nil_l. reflexivity.
  - rewrite append_cons. cbn [String.length String.substring]. exact IH.
Qed.

Lemma substring_all s : forall m,
  (String.length s <= m)%nat -> String.substring 0 m s = s.
Proof.
  induction s as [|c s IH]; intros m Hm.
  - destruct m; reflexivity.
  - destruct m as [|m]; [cbn in Hm; lia|].
    cbn [String.substring]. rewrite IH; [reflexivity|]. cbn in Hm. lia.
Qed.

Lemma decode_data_text values : forall acc,
  Forall fiveBit values ->
  decode_data (bech32Text values) acc = Some (acc ++ values).
Proof.
  induction values as [|d values IH]; intros acc Hv.
  - cbn. rewrite app_nil_r. reflexivity.
  - inversion Hv as [|? ? Hd Hv']; subst.
    destruct (bech32Text_cons d values Hd) as (c & -> & Hi & _).
    cbn [decode_data]. rewrite Hi.
    replace (d =? -1) with false
      by (symmetry; apply Z.eqb_neq; unfold fiveBit in Hd; lia).
    rewrite IH by exact Hv'. rewrite <- app_assoc. reflexivity.
Qed.

(** X26. [decode] undoes [encode]: for a prefix of at least one
    character and data of five-bit values, the whole text not longer
    than 90 characters, the text [encode] builds is accepted by
    [decode], which gives the prefix and the data back. *)
Theorem bech32_decode_encode hrp data :
  (1 <= String.length hrp)%nat -> Forall fiveBit data ->
  (String.length hrp + length data + 7 <= 90)%nat ->
  decode (encode hrp data) = Some (hrp, data).
Proof.
  intros Hhrp Hd Hlen.
  destruct (createChecksum_fiveBit hrp data Hd) as [Hc5 Hc6].
  assert (Hall : Forall fiveBit (data ++ createChecksum hrp data))
    by (apply Forall_app; split; assumption).
  rewrite encode_text.
  set (t := bech32Text (data ++ createChecksum hrp data)).
  assert (Ht : String.length t = (length data + 6)%nat).
  { unfold t. rewrite bech32Text_length, length_app, Hc6 by exact Hall.
    reflexivity. }
  assert (Hpos : JS.lastIndexOf "1" (hrp +:+ "1" +:+ t)
                 = Z.of_nat (String.length hrp)).
  { unfold JS.lastIndexOf. rewrite lastIndexOf_from_app, append_cons.
    cbn [JS.lastIndexOf_from]. rewrite append_nil_l.
    change (Ascii.eqb "1" "1") with true. cbv iota.
    apply lastIndexOf_from_text; auto. }
  assert (Hl : String.length (hrp +:+ "1" +:+ t)
               = (String.length hrp + 1 + (length data + 6))%nat).
  { rewrite !length_append, Ht. cbn [String.length]. lia. }
  unfold decode. rewrite Hpos, Hl.
  replace (Z.of_nat (String.length hrp) <? 1) with false
    by (symmetry; apply Z.ltb_ge; lia).
  replace (Z.of_nat (String.length hrp + 1 + (length data + 6))
           <? Z.of_nat (String.length hrp) + 7) with false
    by (symmetry; apply Z.ltb_ge; lia).
  replace (90 <? Z.of_nat (String.length hrp + 1 + (length data + 6)))
    with false by (symmetry; apply Z.ltb_ge; lia).
  cbn [orb]. rewrite Nat2Z.id, substring_prefix.
  replace (Z.to_nat (Z.of_nat (String.length hrp) + 1))
    with (String.length (hrp +:+ "1"))
    by (rewrite length_append; cbn [String.length]; lia).
  rewrite <- append_assoc, substring_skip, substring_all by lia.
  unfold t. rewrite decode_data_text by exact Hall. cbn [app].
  replace (verifyChecksum hrp (data ++ createChecksum hrp data)) with true.
  2:{ symmetry. unfold verifyChecksum. apply Z.eqb_eq.
      rewrite (polymod_tail hrp data _ Hd Hc5 Hc6).
      destruct (createChecksum_value hrp data Hd) as [-> Hm].
      rewrite fromFiveBit_groups by exact Hm.
      rewrite <- Z.lxor_assoc, Z.lxor_nilpotent, Z.lxor_0_l. reflexivity. }
  rewrite length_app, Hc6.
  replace (length data + 6 - 6)%nat with (length data) by lia.
  rewrite firstn_app, firstn_all, Nat.sub_diag, firstn_0, app_nil_r.
  reflexivity.
Qed.

Lemma bech32_decode_encode_witness :
  decode (encode "bc" [0; 14; 20]) = Some ("bc", [0; 14; 20]).
Proof.
  apply (bech32_decode_encode "bc" [0; 14; 20]).
  - cbn. lia.
  - repeat constructor; unfold fiveBit; lia.
  - cbn. lia.
Defined.

(** Every character: either it is not in the alphabet, or [indexOf]
    gives a value of five bits, the place where it stands. *)
Lemma bech32_index_check :
  forallb
    (fun n =>
       let c := ascii_of_nat n in
       let i := JS.indexOf c BECH32_ALPHABET in
       (i =? -1)
       || ((0 <=? i) && (i <? 32)
           && match String.get (Z.to_nat i) BECH32_ALPHABET with
              | Some d => Ascii.eqb c d
              | None => false
              end))
    (seq 0 256) = true.
Proof. vm_compute. reflexivity. Qed.

Lemma bech32_index c :
  JS.indexOf c BECH32_ALPHABET <> -1 ->
  fiveBit (JS.indexOf c BECH32_ALPHABET)
  /\ JS.strAt BECH32_ALPHABET (JS.indexOf c BECH32_ALPHABET)
     = String c EmptyString.
Proof.
  intros Hne. pose proof bech32_index_check as Hc.
  rewrite forallb_forall in Hc. specialize (Hc (nat_of_ascii c)).
  rewrite ascii_nat_embedding in Hc. cbv zeta in Hc.
  assert (Hin : In (nat_of_ascii c) (seq 0 256)).
  { apply in_seq. pose proof (nat_ascii_bounded c). lia. }
  specialize (Hc Hin).
  apply orb_prop in Hc as [Hc|Hc]; [apply Z.eqb_eq in Hc; contradiction|].
  apply andb_prop in Hc as [Hr Hg]. apply andb_prop in Hr as [H0 H32].
  apply Z.leb_le in H0. apply Z.ltb_lt in H32.
  split; [unfold fiveBit; lia|]. unfold JS.strAt.
  replace (JS.indexOf c BECH32_ALPHABET <? 0) with false
    by (symmetry; apply Z.ltb_ge; lia).
  destruct (String.get _ _) as [d|]; [|discriminate].
  apply Ascii.eqb_eq in Hg. subst d. reflexivity.
Qed.

Lemma decode_data_inv rest : forall acc all,
  decode_data rest acc = Some all ->
  exists values,
    all = acc ++ values /\ Forall fiveBit values /\ rest = bech32Text values.
Proof.
  induction rest as [|c rest IH]; intros acc all Hd.
  - cbn in Hd. injection Hd as <-. exists []. rewrite app_nil_r.
    repeat split. constructor.
  - cbn [decode_data] in Hd.
    destruct (Z.eqb_spec (JS.indexOf c BECH32_ALPHABET) (-1)) as [|Hne];
      [discriminate|].
    destruct (bech32_index c Hne) as [H5 Hc].
    destruct (IH _ _ Hd) as (values & -> & Hv & ->).
    exists (JS.indexOf c BECH32_ALPHABET :: values).
    rewrite <- app_assoc. split; [reflexivity|].
    split; [constructor; assumption|].
    unfold bech32Text at 2. cbn [fold_right].
    rewrite Hc, append_cons, append_nil_l. reflexivity.
Qed.

Lemma lastIndexOf_from_split c s : forall pos last,
  JS.lastIndexOf_from c s pos last = last
  \/ exists p t,
       s = p +:+ String c t
       /\ JS.lastIndexOf_from c s pos last = pos + Z.of_nat (String.length p).
Proof.
  induction s as [|d s IH]; intros pos last; [left; reflexivity|].
  cbn [JS.lastIndexOf_from].
  destruct (IH (pos + 1) (if Ascii.eqb c d then pos else last))
    as [Hlast|(p & t & Hs & Hr)].
  - rewrite Hlast. destruct (Ascii.eqb_spec c d) as [->|Hne]; [|auto].
    right. exists EmptyString, s. cbn [String.length].
    rewrite append_nil_l, Z.add_0_r. auto.
  - right. exists (String d p), t. rewrite Hr, Hs, append_cons.
    cbn [String.length]. split; [reflexivity|lia].
Qed.

(** X27. [encode] undoes [decode]: a text that [decode] accepts has
    at most 90 characters and is the text [encode] builds for the
    prefix and the data returned; the prefix is not empty and the data
    are values of five bits. *)
Theorem bech32_encode_decode addr hrp data :
  decode addr = Some (hrp, data) ->
  encode hrp data = addr
  /\ (String.length addr <= 90)%nat
  /\ (1 <= String.length hrp)%nat
  /\ Forall fiveBit data.
Proof.
  unfold decode.
  destruct (Z.ltb_spec (JS.lastIndexOf "1" addr) 1) as [|Hpos];
    [discriminate|].
  destruct (Z.ltb_spec (Z.of_nat (String.length addr))
                       (JS.lastIndexOf "1" addr + 7)) as [|Hshort];
    [discriminate|].
  destruct (Z.ltb_spec 90 (Z.of_nat (String.length addr))) as [|Hlong];
    [discriminate|].
  cbn [orb]. unfold JS.lastIndexOf in *.
  destruct (lastIndexOf_from_split "1" addr 0 (-1)) as [Hnone|(p & t & -> & Hr)];
    [lia|].
  rewrite Hr in *. rewrite Z.add_0_l in *.
  rewrite Nat2Z.id, substring_prefix.
  replace (Z.to_nat (Z.of_nat (String.length p) + 1))
    with (String.length (p +:+ "1"))
    by (rewrite length_append; cbn [String.length]; lia).
  replace (p +:+ String "1" t) with ((p +:+ "1") +:+ t)
    by (rewrite append_assoc, append_cons, append_nil_l; reflexivity).
  rewrite substring_skip, substring_all
    by (rewrite !length_append; lia).
  destruct (decode_data t []) as [all|] eqn:Hd; [|discriminate].
  destruct (decode_data_inv t [] all Hd) as (values & -> & Hv & ->).
  cbn [app].
  destruct (verifyChecksum p values) eqn:Hver; [|discriminate].
  intros H. injection H as <- <-.
  assert (Hlen : (6 <= length values)%nat).
  { rewrite length_append in Hshort. cbn [String.length] in Hshort.
    rewrite bech32Text_length in Hshort by exact Hv. lia. }
  rewrite <- (firstn_skipn (length values - 6) values) in Hver, Hv.
  apply Forall_app in Hv as [Hdata Hsum].
  apply checksum_unique in Hver;
    [|assumption..|rewrite length_skipn; lia].
  split; [|split; [|split]].
  - rewrite encode_text, <- Hver, firstn_skipn.
    rewrite append_assoc, append_cons, append_nil_l. reflexivity.
  - rewrite append_assoc, append_cons, append_nil_l. lia.
  - lia.
  - exact Hdata.
Qed.

Lemma bech32_encode_decode_witness :
  encode "bc" [0; 14; 20; 15; 7; 13; 26; 0; 25; 18; 6; 11; 13; 8; 21; 4; 20; 3;
               17; 2; 29; 3; 12; 29; 3; 4; 15; 24; 20; 6; 14; 30; 22]
  = "bc1qw508d6qejxtdg4y5r3zarvary0c5xw7kv8f3t4"
  /\ (String.length "bc1qw508d6qejxtdg4y5r3zarvary0c5xw7kv8f3t4" <= 90)%nat
  /\ (1 <= String.length "bc")%nat
  /\ Forall fiveBit
        [0; 14; 20; 15; 7; 13; 26; 0; 25; 18; 6; 11; 13; 8; 21; 4; 20; 3;
         17; 2; 29; 3; 12; 29; 3; 4; 15; 24; 20; 6; 14; 30; 22].
Proof.
  apply (bech32_encode_decode "bc1qw508d6qejxtdg4y5r3zarvary0c5xw7kv8f3t4").
  vm_compute. reflexivity.
Defined.

End Bech32Checksum.

(** ** The shape of the addresses *)

Section BitGroups.
Import Bech32.

Lemma band_31_fiveBit x : fiveBit (JS.band x 31).
Proof.
  unfold fiveBit, JS.band. change (JS.toInt32 31) with (Z.ones 5).
  rewrite Z.land_ones by lia. apply Z.mod_pos_bound. lia.
Qed.

(** The inner [while] of [convertBits], for groups of five bits: it
    leaves fewer than five bits and adds one value for each five bits
    taken. *)
Lemma convertBits_drain_spec fuel : forall acc bits result,
  0 <= bits -> (Z.to_nat bits <= fuel)%nat -> Forall fiveBit result ->
  exists bits' result',
    convertBits_drain fuel acc bits 5 31 result = (bits', result')
    /\ 0 <= bits' < 5
    /\ Forall fiveBit result'
    /\ 5 * Z.of_nat (length result') + bits'
       = 5 * Z.of_nat (length result) + bits.
Proof.
  induction fuel as [|fuel IH]; intros acc bits result Hb Hf Hr.
  - exists bits, result. cbn. repeat split; auto; lia.
  - cbn [convertBits_drain]. destruct (Z.leb_spec 5 bits) as [Hge|Hlt].
    + destruct (IH acc (bits - 5)
                   (result ++ [JS.band (JS.sar acc (bits - 5)) 31]))
        as (bits' & result' & Hd & Hb' & Hr' & Hlen); [lia|lia| |].
      { apply Forall_app. split; [exact Hr|].
        constructor; [apply band_31_fiveBit|constructor]. }
      exists bits', result'. rewrite Hd. repeat split; auto; try lia.
      rewrite Hlen, length_app. cbn [length]. lia.
    + exists bits, result. repeat split; auto; lia.
Qed.

Lemma convertBits_loop_spec data : forall acc bits result,
  bytes data -> 0 <= bits < 5 -> Forall fiveBit result ->
  exists acc' bits' result',
    convertBits_loop data 8 5 31 acc bits result = Some (acc', bits', result')
    /\ 0 <= bits' < 5
    /\ Forall fiveBit result'
    /\ 5 * Z.of_nat (length result') + bits'
       = 5 * Z.of_nat (length result) + bits + 8 * Z.of_nat (length data).
Proof.
  induction data as [|v data IH]; intros acc bits result Hd Hb Hr.
  - exists acc, bits, result. cbn. repeat split; auto; lia.
  - inversion Hd as [|? ? Hv Hd']; subst.
    cbn [convertBits_loop]. rewrite (sar_byte v Hv).
    replace (v <? 0) with false
      by (symmetry; apply Z.ltb_ge; unfold is_byte in Hv; lia).
    cbn [orb negb Z.eqb].
    destruct (convertBits_drain_spec (Z.to_nat (bits + 8))
                (JS.bor (JS.shl acc 8) v) (bits + 8) result)
      as (bits1 & result1 & Hdr & Hb1 & Hr1 & Hl1); [lia|lia|exact Hr|].
    rewrite Hdr.
    destruct (IH (JS.bor (JS.shl acc 8) v) bits1 result1 Hd' Hb1 Hr1)
      as (acc' & bits' & result' & Hloop & Hb' & Hr' & Hl').
    exists acc', bits', result'. rewrite Hloop.
    repeat split; auto; try lia. cbn [length]. lia.
Qed.

(** X28. On bytes [convertBits] from 8 to 5 bits with padding always
    returns: values of five bits, one for each five bits of the input,
    the last group completed. *)
Theorem convertBits_shape data :
  bytes data ->
  exists converted,
    convertBits data 8 5 true = Some converted
    /\ Forall fiveBit converted
    /\ Z.of_nat (length converted) = (8 * Z.of_nat (length data) + 4) / 5.
Proof.
  intros Hd. unfold convertBits. change (JS.shl 1 5 - 1) with 31.
  destruct (convertBits_loop_spec data 0 0 [] Hd ltac:(lia) ltac:(constructor))
    as (acc & bits & result & -> & Hb & Hr & Hl).
  cbn [length] in Hl. destruct (Z.eqb_spec bits 0) as [->|Hne].
  - exists result. split; [reflexivity|]. split; [exact Hr|].
    apply (Z.div_unique _ _ _ 4); lia.
  - eexists. split; [reflexivity|]. split.
    + apply Forall_app. split; [exact Hr|].
      constructor; [apply band_31_fiveBit|constructor].
    + rewrite length_app. cbn [length].
      apply (Z.div_unique _ _ _ (bits - 1)); lia.
Qed.

Lemma convertBits_shape_witness :
  exists converted,
    convertBits [255; 0; 17] 8 5 true = Some converted
    /\ Forall fiveBit converted
    /\ Z.of_nat (length converted) = (8 * Z.of_nat (length [255; 0; 17]) + 4) / 5.
Proof.
  apply (convertBits_shape [255; 0; 17]).
  repeat constructor; unfold is_byte; lia.
Defined.

End BitGroups.

Section AddressShapes.
Import BitcoinCrypto BitcoinKeyGenerator.
Variable sha256 : list Z -> list Z.

(** What [encodeCheck] encodes: the bytes followed by four bytes *)
Lemma encodeCheck_payload data :
  bytes data ->
  exists c,
    Base58.encodeCheck sha256 data = Ok (Base58.encode (data ++ c))
    /\ bytes c /\ length c = 4%nat.
Proof.
  intros Hd. unfold Base58.encodeCheck.
  rewrite (set_prefix data 4 Hd). cbn [mbind JsResult_bind].
  set (checksum := firstn 4 (doubleSha256 sha256 data)).
  assert (Hc : (length checksum <= 4)%nat) by apply firstn_le_length.
  unfold JS.set.
  replace (length data + length checksum <=? length (data ++ JS.zeros 4))%nat
    with true
    by (symmetry; apply Nat.leb_le; rewrite length_app; cbn [JS.zeros length repeat]; lia).
  cbn [mbind JsResult_bind].
  rewrite firstn_app, firstn_all, Nat.sub_diag, firstn_0, app_nil_r.
  exists (map JS.u8 checksum
          ++ skipn (length data + length checksum) (data ++ JS.zeros 4)).
  split; [reflexivity|]. split.
  - apply Forall_app. split; [apply bytes_map_u8|].
    apply Forall_drop, Forall_app. split; [exact Hd|].
    repeat constructor; unfold is_byte; lia.
  - rewrite length_app, length_map, length_skipn, length_app.
    cbn [JS.zeros repeat length]. lia.
Qed.

(** The first digit and the number of digits of the encoding of bytes
    that do not start with a zero, from the range of their number *)
Lemma encode_leading_digit b n d :
  bytes b -> canonical b -> 1 <= d < 58 ->
  d * 58 ^ Z.of_nat n <= Base58.bytesToNum b < (d + 1) * 58 ^ Z.of_nat n ->
  exists c D,
    Base58.encode b = String c D
    /\ JS.indexOf c Base58.BASE58_ALPHABET = d
    /\ String.length D = n.
Proof.
  intros Hb Hc Hd Hnum.
  destruct (encode_shape b Hb) as (D0 & HE & Hlead & Hval & Hnil).
  assert (Hz : leadingZeros b = 0%nat).
  { destruct b as [|x b']; [reflexivity|]. cbn in *.
    apply Z.eqb_neq in Hc. rewrite Hc. reflexivity. }
  rewrite Hz in HE. cbn [ones] in HE. rewrite append_nil_l in HE.
  assert (Hp : 0 < 58 ^ Z.of_nat n) by (apply Z.pow_pos_nonneg; lia).
  destruct D0 as [|c D].
  { specialize (Hval 0). cbn in Hval. injection Hval as Hval. nia. }
  pose proof (Hval 0) as H0. rewrite Z.mul_0_l, Z.add_0_l in H0.
  apply decode_num_inv in H0 as [Hi H0].
  destruct (alphabet_index c Hi) as [Hr _].
  destruct (decode_num_value _ _ _ H0) as (w & Hw & Hwb).
  rewrite Hw in H0. injection H0 as H0.
  set (i := JS.indexOf c Base58.BASE58_ALPHABET) in *.
  assert (Hi1 : 1 <= i).
  { destruct (Z.eq_dec i 0) as [Hi0|]; [|lia].
    apply alphabet_index_0 in Hi0. cbn in Hlead. contradiction. }
  rewrite Z.mul_0_l, Z.add_0_l in H0.
  assert (HD : String.length D = n).
  { destruct (Nat.lt_trichotomy (String.length D) n) as [Hlt|[Heq|Hgt]];
      [exfalso|exact Heq|exfalso].
    - assert (58 * 58 ^ Z.of_nat (String.length D) <= 58 ^ Z.of_nat n).
      { rewrite <- Z.pow_succ_r by lia. apply Z.pow_le_mono_r; lia. }
      assert (0 < 58 ^ Z.of_nat (String.length D))
        by (apply Z.pow_pos_nonneg; lia).
      nia.
    - assert (58 * 58 ^ Z.of_nat n <= 58 ^ Z.of_nat (String.length D)).
      { rewrite <- Z.pow_succ_r by lia. apply Z.pow_le_mono_r; lia. }
      nia. }
  exists c, D. split; [exact HE|]. split; [|exact HD].
  rewrite HD in *. fold i. nia.
Qed.

Lemma prefix_cons c s t :
  String.prefix (String c s) (String c t) = String.prefix s t.
Proof. cbn [String.prefix]. destruct (ascii_dec c c); [reflexivity|congruence]. Qed.

Lemma prefix_nil s : String.prefix EmptyString s = true.
Proof. destruct s; reflexivity. Qed.

Lemma alphabet_char c d :
  JS.indexOf c Base58.BASE58_ALPHABET = d -> 0 <= d ->
  String.get (Z.to_nat d) Base58.BASE58_ALPHABET = Some c.
Proof.
  intros Hi Hd. destruct (alphabet_index c ltac:(lia)) as [_ Hg].
  rewrite Hi in Hg. exact Hg.
Qed.

(** X29. Whatever the public key and the digests, the three addresses
    have the shape of their kind: the legacy address starts with ['1'];
    the segwit address has 34 characters and starts with ['3']; the
    native segwit address has 42 characters and starts with ["bc1q"]. *)
Theorem address_shapes publicKey :
  exists a,
    deriveAddresses sha256 publicKey = Ok a
    /\ String.prefix "1" (legacy a) = true
    /\ String.prefix "3" (segwit a) = true
    /\ String.length (segwit a) = 34%nat
    /\ String.prefix "bc1q" (nativeSegwit a) = true
    /\ String.length (nativeSegwit a) = 42%nat.
Proof.
  rewrite deriveAddresses_payloads.
  set (pubKeyHash := ripemd160 sha256 (sha256 publicKey)).
  set (scriptHash := ripemd160 sha256 (sha256 ([0; 20] ++ pubKeyHash))).
  assert (Hpb : bytes pubKeyHash) by apply ripemd160_bytes.
  assert (Hpl : length pubKeyHash = 20%nat) by apply ripemd160_length.
  assert (Hsb : bytes scriptHash) by apply ripemd160_bytes.
  assert (Hsl : length scriptHash = 20%nat) by apply ripemd160_length.
  destruct (encodeCheck_payload ([0] ++ pubKeyHash)) as (c1 & -> & Hc1 & Hl1).
  { constructor; [unfold is_byte; lia|exact Hpb]. }
  destruct (encodeCheck_payload ([5] ++ scriptHash)) as (c2 & -> & Hc2 & Hl2).
  { constructor; [unfold is_byte; lia|exact Hsb]. }
  cbn [mbind JsResult_bind].
  destruct (convertBits_shape pubKeyHash Hpb) as (converted & -> & Hv & Hn).
  rewrite Hpl in Hn. change ((8 * Z.of_nat 20 + 4) / 5) with 32 in Hn.
  eexists. split; [reflexivity|]. cbn [legacy segwit nativeSegwit].
  split; [|split; [|split; [|split]]].
  - destruct (encode_shape (([0] ++ pubKeyHash) ++ c1)) as (D & -> & _).
    { apply Forall_app. split; [|exact Hc1].
      constructor; [unfold is_byte; lia|exact Hpb]. }
    cbn [app leadingZeros]. change (0 =? 0) with true. cbv iota.
    cbn [ones]. rewrite append_cons, prefix_cons. apply prefix_nil.
  - destruct (encode_leading_digit (([5] ++ scriptHash) ++ c2) 33 2)
      as (c & D & -> & Hc & _).
    + apply Forall_app. split; [|exact Hc2].
      constructor; [unfold is_byte; lia|exact Hsb].
    + cbn. lia.
    + lia.
    + cbn [app]. rewrite bytesToNum_bytesToBigInt, bytesToBigInt_cons.
      pose proof (bytesToBigInt_bound (scriptHash ++ c2)
                    ltac:(apply Forall_app; split; assumption)) as Hbd.
      rewrite length_app, Hsl, Hl2 in *.
      let v := eval vm_compute in (256 ^ Z.of_nat (20 + 4)) in
      change (256 ^ Z.of_nat (20 + 4)) with v in *.
      let v := eval vm_compute in (58 ^ Z.of_nat 33) in
      change (58 ^ Z.of_nat 33) with v.
      lia.
    + apply alphabet_char in Hc; [|lia].
      change (Some "3"%char = Some c) in Hc. injection Hc as <-.
      rewrite prefix_cons. apply prefix_nil.
  - destruct (encode_leading_digit (([5] ++ scriptHash) ++ c2) 33 2)
      as (c & D & -> & _ & HD).
    + apply Forall_app. split; [|exact Hc2].
      constructor; [unfold is_byte; lia|exact Hsb].
    + cbn. lia.
    + lia.
    + cbn [app]. rewrite bytesToNum_bytesToBigInt, bytesToBigInt_cons.
      pose proof (bytesToBigInt_bound (scriptHash ++ c2)
                    ltac:(apply Forall_app; split; assumption)) as Hbd.
      rewrite length_app, Hsl, Hl2 in *.
      let v := eval vm_compute in (256 ^ Z.of_nat (20 + 4)) in
      change (256 ^ Z.of_nat (20 + 4)) with v in *.
      let v := eval vm_compute in (58 ^ Z.of_nat 33) in
      change (58 ^ Z.of_nat 33) with v.
      lia.
    + cbn [String.length]. rewrite HD. reflexivity.
  - rewrite encode_text. cbn [app].
    destruct (bech32Text_cons 0 (converted ++ Bech32.createChecksum "bc" (0 :: converted)))
      as (c & -> & Hc & _); [unfold fiveBit; lia|].
    assert (Hq : c = "q"%char).
    { destruct (bech32_index c ltac:(lia)) as [_ Hs]. rewrite Hc in Hs.
      change (String "q" EmptyString = String c EmptyString) in Hs.
      congruence. }
    subst c. rewrite !append_cons, append_nil_l, !prefix_cons.
    apply prefix_nil.
  - rewrite encode_text, !length_append, bech32Text_length.
    + destruct (createChecksum_fiveBit "bc" ([0] ++ converted)) as [_ Hl6].
      { constructor; [unfold fiveBit; lia|exact Hv]. }
      rewrite !length_app, Hl6. cbn [length String.length]. lia.
    + destruct (createChecksum_fiveBit "bc" ([0] ++ converted)) as [H5 _].
      { constructor; [unfold fiveBit; lia|exact Hv]. }
      apply Forall_app. split; [|exact H5].
      constructor; [unfold fiveBit; lia|exact Hv].
Qed.

(** X30. The WIF text of a 32-byte key has 52 characters and starts
    with ['K'] or ['L'], whatever the digests. *)
Theorem privateKeyToWIF_shape privateKey :
  bytes privateKey -> length privateKey = 32%nat ->
  exists wif,
    privateKeyToWIF sha256 privateKey = Ok wif
    /\ String.length wif = 52%nat
    /\ (String.prefix "K" wif = true \/ String.prefix "L" wif = true).
Proof.
  intros Hb Hlen. rewrite (privateKeyToWIF_payload sha256 privateKey Hb Hlen).
  assert (Hp : bytes (wifPayload privateKey)).
  { unfold wifPayload. constructor; [unfold is_byte; lia|].
    apply Forall_app. split; [exact Hb|].
    constructor; [unfold is_byte; lia|constructor]. }
  destruct (encodeCheck_payload (wifPayload privateKey) Hp)
    as (c & -> & Hc & Hl).
  eexists. split; [reflexivity|].
  set (rest := (privateKey ++ [1]) ++ c).
  assert (Hrb : bytes rest).
  { apply Forall_app. split; [|exact Hc]. apply Forall_app. split; [exact Hb|].
    constructor; [unfold is_byte; lia|constructor]. }
  assert (Hrl : length rest = 37%nat).
  { unfold rest. rewrite !length_app, Hlen, Hl. reflexivity. }
  assert (Hnum : Base58.bytesToNum (wifPayload privateKey ++ c)
                 = 128 * 256 ^ 37 + bytesToBigInt rest).
  { unfold wifPayload. cbn [app]. fold rest.
    rewrite bytesToNum_bytesToBigInt, bytesToBigInt_cons, Hrl. reflexivity. }
  pose proof (bytesToBigInt_bound rest Hrb) as Hbd. rewrite Hrl in Hbd.
  change (256 ^ Z.of_nat 37) with (256 ^ 37) in Hbd.
  assert (Hall : bytes (wifPayload privateKey ++ c))
    by (apply Forall_app; split; assumption).
  assert (Hcan : canonical (wifPayload privateKey ++ c)) by (cbn; lia).
  destruct (Z.lt_ge_cases (Base58.bytesToNum (wifPayload privateKey ++ c))
                          (19 * 58 ^ 51)) as [Hlow|Hhigh].
  - destruct (encode_leading_digit _ 51 18 Hall Hcan ltac:(lia))
      as (d & D & -> & Hd & HD).
    { rewrite Hnum in *.
      let v := eval vm_compute in (256 ^ 37) in change (256 ^ 37) with v in *.
      let v := eval vm_compute in (58 ^ 51) in change (58 ^ 51) with v in *.
      let v := eval vm_compute in (58 ^ 51) in
      change (58 ^ Z.of_nat 51) with v.
      lia. }
    split; [cbn [String.length]; rewrite HD; reflexivity|]. left.
    apply alphabet_char in Hd; [|lia].
    change (Some "K"%char = Some d) in Hd. injection Hd as <-.
    rewrite prefix_cons. apply prefix_nil.
  - destruct (encode_leading_digit _ 51 19 Hall Hcan ltac:(lia))
      as (d & D & -> & Hd & HD).
    { rewrite Hnum in *.
      let v := eval vm_compute in (256 ^ 37) in change (256 ^ 37) with v in *.
      let v := eval vm_compute in (58 ^ 51) in change (58 ^ 51) with v in *.
      let v := eval vm_compute in (58 ^ 51) in
      change (58 ^ Z.of_nat 51) with v.
      lia. }
    split; [cbn [String.length]; rewrite HD; reflexivity|]. right.
    apply alphabet_char in Hd; [|lia].
    change (Some "L"%char = Some d) in Hd. injection Hd as <-.
    rewrite prefix_cons. apply prefix_nil.
Qed.

End AddressShapes.

Lemma privateKeyToWIF_shape_witness :
  exists wif,
    BitcoinKeyGenerator.privateKeyToWIF Sha256.sha256
      (BitcoinCrypto.bigIntToBytes 1) = Ok wif
    /\ String.length wif = 52%nat
    /\ (String.prefix "K" wif = true \/ String.prefix "L" wif = true).
Proof.
  apply (privateKeyToWIF_shape Sha256.sha256 (BitcoinCrypto.bigIntToBytes 1)).
  - apply bigIntToBytes_bytes.
  - apply bigIntToBytes_length.
Defined.
